(** * JumperJonesy: the runner's physics, obstacles and menu state machine

    A shallow embedding of [game.js].  The script keeps all of its state in
    top-level variables ([gameState], [score], [levelObstacles], [player],
    [menuButtons], the canvas size, ...) and mutates them from three entry
    points: the animation-frame callback [gameLoop], the mouse handler
    [handleMouseDown] and the key handler [handleKeyInput]; [resizeCanvas]
    recomputes the responsive geometry.  Here the variables are the fields of
    one record [Game] that every function takes and returns.

    Numbers.  JavaScript numbers are IEEE doubles; they are modelled by exact
    rationals [Q], so the definitions below compute the arithmetic the
    formulas denote, without rounding.  [Math.floor] is [Qfloor], [Math.max]
    and [Math.min] are [Qmax] and [Qmin].  [currentLevel] only ever holds
    1, a button index 1..50 or a successor, and is a [nat].  The statements
    about positions are written with the script's own expressions and tests
    and with bounds that leave room for rounding; where a sum that should
    come back to a value does not, or an exact bound is attained, module
    [Double] computes the script's binary64 values.

    Drawing calls have no effect on the variables and are left out. *)

From Stdlib Require Import QArith Qround Qminmax Lqa Lia Floats.SpecFloat.
From stdpp Require Import base option list gmap strings pretty.

Local Open Scope Q_scope.

(** ** Comparisons of numbers as booleans *)

Definition Qlt_bool (a b : Q) : bool :=
  (Qnum a * QDen b <? Qnum b * QDen a)%Z.

(** ** Data *)

Inductive GameState :=
  MENU | LEVEL_SELECT | LEVEL | INFINITE | GAME_OVER | LEVEL_COMPLETE.

Definition GameState_eqb (a b : GameState) : bool :=
  match a, b with
  | MENU, MENU | LEVEL_SELECT, LEVEL_SELECT | LEVEL, LEVEL
  | INFINITE, INFINITE | GAME_OVER, GAME_OVER
  | LEVEL_COMPLETE, LEVEL_COMPLETE => true
  | _, _ => false
  end.

(** An obstacle literal [{x, y, width, height}]. *)
Module Obstacle.
Record t := mk { x : Q; y : Q; width : Q; height : Q }.
End Obstacle.

(** A button literal [{x, y, width, height, text}]. *)
Module Button.
Record t := mk { x : Q; y : Q; width : Q; height : Q; text : string }.
End Button.

(** The [player] object. *)
Module Player.
Record t := mk {
  x : Q;
  y : Q;
  width : Q;
  height : Q;
  velocityY : Q;
  gravity : Q;
  jumpStrength : Q;
  isGrounded : bool;
  hitboxOffsetX : Q;
  hitboxOffsetY : Q;
  hitboxWidthScale : Q;
  hitboxHeightScale : Q;
  terminalVelocity : Q
}.
End Player.

(** The top-level variables of the script, with the canvas size. *)
Record Game := mkGame {
  gameState : GameState;
  previousGameState : GameState;
  currentLevel : nat;
  score : Q;
  lastTime : Q;
  levelObstacles : list Obstacle.t;
  groundHeight : Q;
  player : Player.t;
  menuButtons : gmap string Button.t;
  canvas_width : Q;
  canvas_height : Q
}.

(** Assignments to one variable. *)
Definition set_gameState (g : GameState) (st : Game) : Game :=
  mkGame g (previousGameState st) (currentLevel st) (score st) (lastTime st)
    (levelObstacles st) (groundHeight st) (player st) (menuButtons st)
    (canvas_width st) (canvas_height st).

Definition set_previousGameState (g : GameState) (st : Game) : Game :=
  mkGame (gameState st) g (currentLevel st) (score st) (lastTime st)
    (levelObstacles st) (groundHeight st) (player st) (menuButtons st)
    (canvas_width st) (canvas_height st).

Definition set_currentLevel (n : nat) (st : Game) : Game :=
  mkGame (gameState st) (previousGameState st) n (score st) (lastTime st)
    (levelObstacles st) (groundHeight st) (player st) (menuButtons st)
    (canvas_width st) (canvas_height st).

Definition set_score (s : Q) (st : Game) : Game :=
  mkGame (gameState st) (previousGameState st) (currentLevel st) s (lastTime st)
    (levelObstacles st) (groundHeight st) (player st) (menuButtons st)
    (canvas_width st) (canvas_height st).

Definition set_lastTime (t : Q) (st : Game) : Game :=
  mkGame (gameState st) (previousGameState st) (currentLevel st) (score st) t
    (levelObstacles st) (groundHeight st) (player st) (menuButtons st)
    (canvas_width st) (canvas_height st).

Definition set_levelObstacles (l : list Obstacle.t) (st : Game) : Game :=
  mkGame (gameState st) (previousGameState st) (currentLevel st) (score st)
    (lastTime st) l (groundHeight st) (player st) (menuButtons st)
    (canvas_width st) (canvas_height st).

Definition set_player (p : Player.t) (st : Game) : Game :=
  mkGame (gameState st) (previousGameState st) (currentLevel st) (score st)
    (lastTime st) (levelObstacles st) (groundHeight st) p (menuButtons st)
    (canvas_width st) (canvas_height st).

Definition set_menuButtons (m : gmap string Button.t) (st : Game) : Game :=
  mkGame (gameState st) (previousGameState st) (currentLevel st) (score st)
    (lastTime st) (levelObstacles st) (groundHeight st) (player st) m
    (canvas_width st) (canvas_height st).

Definition set_xy (x y : Q) (p : Player.t) : Player.t :=
  Player.mk x y (Player.width p) (Player.height p) (Player.velocityY p)
    (Player.gravity p) (Player.jumpStrength p) (Player.isGrounded p)
    (Player.hitboxOffsetX p) (Player.hitboxOffsetY p)
    (Player.hitboxWidthScale p) (Player.hitboxHeightScale p)
    (Player.terminalVelocity p).

Definition set_y (y : Q) (p : Player.t) : Player.t := set_xy (Player.x p) y p.

Definition set_velocityY (v : Q) (p : Player.t) : Player.t :=
  Player.mk (Player.x p) (Player.y p) (Player.width p) (Player.height p) v
    (Player.gravity p) (Player.jumpStrength p) (Player.isGrounded p)
    (Player.hitboxOffsetX p) (Player.hitboxOffsetY p)
    (Player.hitboxWidthScale p) (Player.hitboxHeightScale p)
    (Player.terminalVelocity p).

Definition set_isGrounded (b : bool) (p : Player.t) : Player.t :=
  Player.mk (Player.x p) (Player.y p) (Player.width p) (Player.height p)
    (Player.velocityY p) (Player.gravity p) (Player.jumpStrength p) b
    (Player.hitboxOffsetX p) (Player.hitboxOffsetY p)
    (Player.hitboxWidthScale p) (Player.hitboxHeightScale p)
    (Player.terminalVelocity p).

(** The variables as the script declares them.  The canvas size is the HTML
    default; [resizeCanvas] overwrites it before anything reads it. *)
Definition globals : Game := {|
  gameState := MENU;
  previousGameState := INFINITE;
  currentLevel := 1;
  score := 0;
  lastTime := 0;
  levelObstacles := [];
  groundHeight := 10;
  player := {|
    Player.x := 0; Player.y := 0; Player.width := 0; Player.height := 0;
    Player.velocityY := 0; Player.gravity := 1; Player.jumpStrength := -20;
    Player.isGrounded := true;
    Player.hitboxOffsetX := 0.12; Player.hitboxOffsetY := 0.18;
    Player.hitboxWidthScale := 0.76; Player.hitboxHeightScale := 0.68;
    Player.terminalVelocity := 2000 |};
  menuButtons := ∅;
  canvas_width := 300;
  canvas_height := 150
|}.

(** ** Resize and button layout *)

(** The loop [for (i = 1; i <= 50; i++)] of [updateMenuButtonPositions]:
    [n] iterations are left, [i] is the loop variable. *)
Fixpoint levelButtonsLoop (startX startY btnW btnH pad : Q) (cols : nat)
    (n i : nat) (m : gmap string Button.t) : gmap string Button.t :=
  match n with
  | O => m
  | S n' =>
    let col := ((i - 1) mod cols)%nat in
    let row := ((i - 1) / cols)%nat in
    let x := startX + inject_Z (Z.of_nat col) * (btnW + pad) in
    let y := startY + inject_Z (Z.of_nat row) * (btnH + pad) in
    levelButtonsLoop startX startY btnW btnH pad cols n' (S i)
      (<["level_" +:+ pretty i := Button.mk x y btnW btnH (pretty i)]> m)
  end.

Definition updateMenuButtonPositions (st : Game) : Game :=
  let W := canvas_width st in
  let H := canvas_height st in
  let m := menuButtons st in
  let m := <["levels" := Button.mk (W/2 - 150) (H/2 + 30) 140 40 "Levels"]> m in
  let m := <["infinite" := Button.mk (W/2 + 10) (H/2 + 30) 140 40 "Infinite"]> m in
  let m := <["back" := Button.mk 20 20 100 30 "Back"]> m in
  let bw := 200 in
  let bh := 50 in
  let by_ := H/2 + 20 in
  let margin := 20 in
  let m := <["gameOverMenu" :=
             Button.mk (W/2 - bw - margin/2) by_ bw bh "Return to Menu"]> m in
  let m := <["gameOverRetry" :=
             Button.mk (W/2 + margin/2) by_ bw bh "Retry Level"]> m in
  let m := <["levelCompleteMenu" :=
             Button.mk (W/2 - bw - margin/2) by_ bw bh "Return to Menu"]> m in
  let m := <["levelCompleteLevels" :=
             Button.mk (W/2 + margin/2) by_ bw bh "Select Level"]> m in
  let m := levelButtonsLoop (W*0.1) (H*0.25) 50 30 15 10 50 1 m in
  set_menuButtons m st.

(** [resizeCanvas]; [offsetWidth] and [offsetHeight] are the canvas element's
    layout size, read from the page. *)
Definition resizeCanvas (offsetWidth offsetHeight : Q) (st : Game) : Game :=
  let cw := offsetWidth in
  let ch := offsetHeight in
  let groundHeight' := Qmax 18 (ch * 0.06) in
  let height' := ch * 0.15 in
  let width' := height' in
  let gravity' := ch * 0.0035 in
  let jumpStrength' := - (ch * 0.06) in
  let terminalVelocity' := ch * 2.5 in
  let p := player st in
  let p' := {|
    Player.x := cw * 0.05;
    Player.y := ch - groundHeight' - height';
    Player.width := width';
    Player.height := height';
    Player.velocityY := Player.velocityY p;
    Player.gravity := gravity';
    Player.jumpStrength := jumpStrength';
    Player.isGrounded := Player.isGrounded p;
    Player.hitboxOffsetX := Player.hitboxOffsetX p;
    Player.hitboxOffsetY := Player.hitboxOffsetY p;
    Player.hitboxWidthScale := Player.hitboxWidthScale p;
    Player.hitboxHeightScale := Player.hitboxHeightScale p;
    Player.terminalVelocity := terminalVelocity' |} in
  updateMenuButtonPositions
    (mkGame (gameState st) (previousGameState st) (currentLevel st) (score st)
       (lastTime st) (levelObstacles st) groundHeight' p' (menuButtons st)
       cw ch).

(** ** Player physics *)

Definition resetPlayerAndObstacles (st : Game) : Game :=
  let p := player st in
  let p := set_xy (canvas_width st * 0.05)
             (canvas_height st - Player.height p - groundHeight st) p in
  let p := set_velocityY 0 p in
  let p := set_isGrounded true p in
  set_levelObstacles [] (set_player p st).

(** [updatePlayer] is three blocks in sequence: the integration while
    airborne, the ground collision and the ceiling clamp. *)
Definition integrate (p : Player.t) : Player.t :=
  if negb (Player.isGrounded p) then
    let p := set_velocityY (Player.velocityY p + Player.gravity p) p in
    let p :=
      if Qlt_bool (Player.terminalVelocity p) (Player.velocityY p)
      then set_velocityY (Player.terminalVelocity p) p else p in
    set_y (Player.y p + Player.velocityY p) p
  else p.

Definition groundCollision (canvasHeight ground : Q) (p : Player.t)
    : Player.t :=
  if Qlt_bool (canvasHeight - ground) (Player.y p + Player.height p) then
    let p := set_y (canvasHeight - ground - Player.height p) p in
    let p := set_velocityY 0 p in
    set_isGrounded true p
  else p.

Definition ceilingClamp (p : Player.t) : Player.t :=
  if Qlt_bool (Player.y p) 0 then
    let p := set_y 0 p in
    if Qlt_bool (Player.velocityY p) 0 then set_velocityY 0 p else p
  else p.

Definition updatePlayer (st : Game) : Game :=
  let p := integrate (player st) in
  let p := groundCollision (canvas_height st) (groundHeight st) p in
  let p := ceilingClamp p in
  set_player p st.

Definition jump (st : Game) : Game :=
  let p := player st in
  if Player.isGrounded p then
    let p := set_isGrounded false p in
    set_player (set_velocityY (Player.jumpStrength p) p) st
  else st.

(** ** Obstacles *)

(** [Math.random()] is a stream of draws [rnd 0], [rnd 1], ... in [0, 1),
    consumed in call order; [k] is the number of draws already made.  The
    [while] loop is bounded by [fuel]: [None] means the fuel ran out before
    the loop condition became false. *)
Section Generate.

Variable rnd : nat -> Q.
Variables difficulty maxDist baseH tallH maxW minGap : Q.
Variables canvasHeight ground : Q.

Fixpoint generateLoop (fuel k : nat) (x total : Q) (obs : list Obstacle.t)
    : option (list Obstacle.t) :=
  match fuel with
  | O => None
  | S fuel' =>
    if Qlt_bool total maxDist then
      let gap := Qmax minGap (420 - difficulty*60 + rnd k * 100) in
      let x := x + gap in
      let w := Qmin maxW (baseH*0.6 + difficulty*8 + rnd (k+1) * 18) in
      let h := if Qlt_bool (rnd (k+2)) 0.25
               then tallH + difficulty*6 else baseH in
      let obs := obs ++ [Obstacle.mk x (canvasHeight - ground - h) w h] in
      let x := x + w in
      let total := x in
      generateLoop fuel' (k+3) x total obs
    else Some obs
  end.

End Generate.

Definition generateObstacles (fuel : nat) (rnd : nat -> Q) (isInfinite : bool)
    (st : Game) : option Game :=
  let difficulty :=
    if isInfinite then 1 + inject_Z (Qfloor (score st / 500)) * 0.2
    else 1 + (inject_Z (Z.of_nat (currentLevel st)) - 1) * 0.15 in
  let maxDist :=
    if isInfinite then 999999999
    else 800 + inject_Z (Z.of_nat (currentLevel st)) * 100 in
  let x := canvas_width st * 0.6 in
  let total := 0 in
  let baseH := Player.height (player st) * 1.05 in
  let tallH := Player.height (player st) * 2.0 + difficulty * 4 in
  let maxW := Player.width (player st) * 2.4 in
  let minGap := Qmax (Player.width (player st) * 1.6) 40 in
  match generateLoop rnd difficulty maxDist baseH tallH maxW minGap
          (canvas_height st) (groundHeight st) fuel 0 x total [] with
  | Some obs => Some (set_levelObstacles obs st)
  | None => None
  end.

Definition resetGame (st : Game) : Game :=
  let st := set_previousGameState (gameState st) st in
  let st := set_player (set_velocityY 0 (player st)) st in
  let st := set_player (set_isGrounded true (player st)) st in
  set_gameState GAME_OVER st.

(** The body of the [for] loop of [updateObstacles] either returns from the
    function after [resetGame] or falls through with the flag. *)
Inductive Scan :=
| Crashed (obs : list Obstacle.t)
| Scanned (obs : list Obstacle.t) (levelDone : bool).

Definition scroll_by (dx : Q) (o : Obstacle.t) : Obstacle.t :=
  Obstacle.mk (Obstacle.x o - dx) (Obstacle.y o) (Obstacle.width o)
    (Obstacle.height o).

Section ScanObstacles.

Variables (inLevel : bool) (dx pX pY pW pH : Q).

Definition hit (o : Obstacle.t) : bool :=
  Qlt_bool pX (Obstacle.x o + Obstacle.width o)
  && Qlt_bool (Obstacle.x o) (pX + pW)
  && Qlt_bool pY (Obstacle.y o + Obstacle.height o)
  && Qlt_bool (Obstacle.y o) (pY + pH).

(** [n] iterations are left, [i] is the loop variable; [obs] is the array
    with the obstacles before [i] already moved. *)
Fixpoint scanLoop (n i : nat) (obs : list Obstacle.t) (levelDone : bool)
    : Scan :=
  match n with
  | O => Scanned obs levelDone
  | S n' =>
    match obs !! i with
    | None => Scanned obs levelDone
    | Some o =>
      let o := scroll_by dx o in
      let obs := <[i := o]> obs in
      if hit o then Crashed obs
      else
        let levelDone :=
          if inLevel
             && Qlt_bool (Obstacle.x o) (- Obstacle.width o)
             && (i =? length obs - 1)%nat
          then true else levelDone in
        scanLoop n' (S i) obs levelDone
    end
  end.

End ScanObstacles.

Definition updateObstacles (delta : Q) (st : Game) : Game :=
  let baseSpeed := if GameState_eqb (gameState st) LEVEL then 250 else 300 in
  let speedUp :=
    if GameState_eqb (gameState st) INFINITE
    then inject_Z (Qfloor (score st / 100)) * 5 else 0 in
  let scroll := baseSpeed + speedUp in
  let dx := scroll * delta in
  let p := player st in
  let pX := Player.x p + Player.width p * Player.hitboxOffsetX p in
  let pY := Player.y p + Player.height p * Player.hitboxOffsetY p in
  let pW := Player.width p * Player.hitboxWidthScale p in
  let pH := Player.height p * Player.hitboxHeightScale p in
  match scanLoop (GameState_eqb (gameState st) LEVEL) dx pX pY pW pH
          (length (levelObstacles st)) 0 (levelObstacles st) false with
  | Crashed obs => resetGame (set_levelObstacles obs st)
  | Scanned obs levelDone =>
    let st := set_levelObstacles obs st in
    if levelDone then
      let st := set_gameState LEVEL_COMPLETE st in
      let st := resetPlayerAndObstacles st in
      set_currentLevel (S (currentLevel st)) st
    else st
  end.

(** ** The frame callback *)

Definition updateGame (delta : Q) (st : Game) : Game :=
  updateObstacles delta (updatePlayer st).

Definition updateScore (delta : Q) (st : Game) : Game :=
  set_score (score st + 250 * delta) st.

(** [gameLoop] is only scheduled once the sprite has loaded, so the guard on
    [playerImg.complete] never fires and is left out. *)
Definition gameLoop (timestamp : Q) (st : Game) : Game :=
  let delta := (timestamp - lastTime st) / 1000 in
  let st := set_lastTime timestamp st in
  match gameState st with
  | MENU => st
  | LEVEL_SELECT => st
  | LEVEL | INFINITE =>
    let st := updateGame delta st in
    if GameState_eqb (gameState st) LEVEL then st
    else updateScore delta st
  | GAME_OVER => st
  | LEVEL_COMPLETE => st
  end.

(** ** Input handling *)

Definition isButtonClicked (btn : option Button.t) (x y : Q) : bool :=
  match btn with
  | None => false
  | Some btn =>
    Qle_bool (Button.x btn) x
    && Qle_bool x (Button.x btn + Button.width btn)
    && Qle_bool (Button.y btn) y
    && Qle_bool y (Button.y btn + Button.height btn)
  end.

(** The loop [for (i = 1; i <= 50; i++)] over the level buttons, left with
    [break] at the first button hit. *)
Fixpoint levelSelectLoop (fuel : nat) (rnd : nat -> Q) (x y : Q) (n i : nat)
    (st : Game) : option Game :=
  match n with
  | O => Some st
  | S n' =>
    let b := menuButtons st !! ("level_" +:+ pretty i) in
    if isButtonClicked b x y then
      let st := set_currentLevel i st in
      let st := resetPlayerAndObstacles st in
      match generateObstacles fuel rnd false st with
      | Some st => Some (set_gameState LEVEL st)
      | None => None
      end
    else levelSelectLoop fuel rnd x y n' (S i) st
  end.

(** [x] and [y] are the pointer position relative to the canvas;
    [rnd] are the draws [Math.random] gives during this call. *)
Definition handleMouseDown (fuel : nat) (rnd : nat -> Q) (x y : Q) (st : Game)
    : option Game :=
  let btn name := menuButtons st !! name in
  match gameState st with
  | MENU =>
    if isButtonClicked (btn "levels") x y then
      Some (set_gameState LEVEL_SELECT st)
    else if isButtonClicked (btn "infinite") x y then
      let st := set_score 0 st in
      let st := resetPlayerAndObstacles st in
      match generateObstacles fuel rnd true st with
      | Some st => Some (set_gameState INFINITE st)
      | None => None
      end
    else Some st
  | LEVEL_SELECT =>
    if isButtonClicked (btn "back") x y then Some (set_gameState MENU st)
    else levelSelectLoop fuel rnd x y 50 1 st
  | GAME_OVER =>
    if isButtonClicked (btn "gameOverMenu") x y then
      let st := resetPlayerAndObstacles st in
      let st := set_score 0 st in
      Some (set_gameState MENU st)
    else if isButtonClicked (btn "gameOverRetry") x y then
      let st := resetPlayerAndObstacles st in
      if GameState_eqb (previousGameState st) INFINITE then
        let st := set_score 0 st in
        match generateObstacles fuel rnd true st with
        | Some st => Some (set_gameState INFINITE st)
        | None => None
        end
      else
        match generateObstacles fuel rnd false st with
        | Some st => Some (set_gameState LEVEL st)
        | None => None
        end
    else Some st
  | LEVEL_COMPLETE =>
    if isButtonClicked (btn "levelCompleteMenu") x y then
      Some (set_score 0 (set_gameState MENU st))
    else if isButtonClicked (btn "levelCompleteLevels") x y then
      Some (set_gameState LEVEL_SELECT st)
    else Some st
  | LEVEL | INFINITE => Some st
  end.

Definition handleKeyInput (code : string) (st : Game) : Game :=
  if (GameState_eqb (gameState st) LEVEL
      || GameState_eqb (gameState st) INFINITE)
     && (String.eqb code "Space" || String.eqb code "ArrowUp")
  then jump st else st.

(** ** The machine: one event at a time *)

Inductive Event :=
| Resize (offsetWidth offsetHeight : Q)
| Frame (timestamp : Q)
| MouseDown (rnd : nat -> Q) (x y : Q)
| KeyDown (code : string).

Definition step (fuel : nat) (e : Event) (st : Game) : option Game :=
  match e with
  | Resize w h => Some (resizeCanvas w h st)
  | Frame t => Some (gameLoop t st)
  | MouseDown rnd x y => handleMouseDown fuel rnd x y st
  | KeyDown code => Some (handleKeyInput code st)
  end.

Fixpoint run (fuel : nat) (es : list Event) (st : Game) : option Game :=
  match es with
  | [] => Some st
  | e :: es' =>
    match step fuel e st with
    | Some st' => run fuel es' st'
    | None => None
    end
  end.

(** [init]: the first resize happens before any handler is registered. *)
Definition init (offsetWidth offsetHeight : Q) : Game :=
  resizeCanvas offsetWidth offsetHeight globals.

(** ** Vocabulary of the properties *)

(** The player rests on or above the ground line, and is not above the top
    edge of the canvas. *)
Definition on_or_above_ground (st : Game) : Prop :=
  Player.y (player st) + Player.height (player st)
  <= canvas_height st - groundHeight st.

Definition below_ceiling (st : Game) : Prop := 0 <= Player.y (player st).

(** The sprite is not taller than the room between ceiling and ground. *)
Definition player_fits (st : Game) : Prop :=
  Player.height (player st) <= canvas_height st - groundHeight st.

(** Calls into the physics, in any order. *)
Inductive PhysicsCall := CallStep | CallJump.

Definition physics (c : PhysicsCall) (st : Game) : Game :=
  match c with
  | CallStep => updatePlayer st
  | CallJump => jump st
  end.

Definition runPhysics (calls : list PhysicsCall) (st : Game) : Game :=
  fold_left (fun s c => physics c s) calls st.

(** A level entered on an 800 x 600 canvas, then the window shrunk to
    100 x 10 while the level runs. *)
Definition half : nat -> Q := fun _ => 0.5.

Definition shrunkWindow : list Event :=
  [Frame 0; MouseDown half 300 340; Frame 16; MouseDown half 90 160;
   Frame 32; Resize 100 10].

(** The state a run ends in; the start state when the fuel runs out, which
    [completes] excludes. *)
Definition completes (fuel : nat) (es : list Event) (st : Game) : bool :=
  match run fuel es st with Some _ => true | None => false end.

Definition after (fuel : nat) (es : list Event) (st : Game) : Game :=
  default st (run fuel es st).

Definition shrunkState : Game := after 100 shrunkWindow (init 800 600).

(** Scroll speed in pixels per second, by mode and score. *)
Definition scrollSpeed (mode : GameState) (score : Q) : Q :=
  match mode with LEVEL => 250 | _ => 300 end
  + match mode with
    | INFINITE => inject_Z (Qfloor (score / 100)) * 5
    | _ => 0
    end.

(** The player's shrunken hitbox against an obstacle: the strict
    axis-aligned test. *)
Definition hitbox_overlaps (p : Player.t) (o : Obstacle.t) : Prop :=
  let pX := Player.x p + Player.width p * Player.hitboxOffsetX p in
  let pY := Player.y p + Player.height p * Player.hitboxOffsetY p in
  let pW := Player.width p * Player.hitboxWidthScale p in
  let pH := Player.height p * Player.hitboxHeightScale p in
  pX < Obstacle.x o + Obstacle.width o
  /\ pX + pW > Obstacle.x o
  /\ pY < Obstacle.y o + Obstacle.height o
  /\ pY + pH > Obstacle.y o.

(** An obstacle that has left the screen by more than its width. *)
Definition scrolled_out (o : Obstacle.t) : Prop :=
  Obstacle.x o < - Obstacle.width o.

(** The player put back on the start position, at rest on the ground. *)
Definition player_at_start (st : Game) (p : Player.t) : Prop :=
  Player.x p = canvas_width st * 0.05
  /\ Player.y p = canvas_height st - Player.height (player st) - groundHeight st
  /\ Player.velocityY p = 0
  /\ Player.isGrounded p = true
  /\ Player.width p = Player.width (player st)
  /\ Player.height p = Player.height (player st).

(** The end of [updateObstacles], after a scan that hit nothing. *)
Definition afterScan (levelDone : bool) (st : Game) : Game :=
  if levelDone then
    set_currentLevel (S (currentLevel st))
      (resetPlayerAndObstacles (set_gameState LEVEL_COMPLETE st))
  else st.

(** Level 1 entered on an 800 x 600 canvas with every draw at 0.5: one
    obstacle, 886 pixels from the left edge after the first frame.  A frame
    3.2 s later brings it onto the player; a frame 4 s later takes it off
    the screen past the player. *)
Definition levelOneTrace : list Event :=
  [Frame 0; MouseDown half 300 340; Frame 16; MouseDown half 90 160;
   Frame 32].

Definition levelOneState : Game := after 100 levelOneTrace (init 800 600).

Definition crashedState : Game := gameLoop 3232 levelOneState.

Definition firstObstacle (st : Game) : Obstacle.t :=
  default (Obstacle.mk 0 0 0 0) (head (levelObstacles st)).

(** ** The generator's formulas, as the specification words them *)

Definition uniformRandom (lo hi r : Q) : Q := lo + r * (hi - lo).

Definition spec_difficulty (isInfinite : bool) (score : Q) (level : nat) : Q :=
  if isInfinite then 1 + inject_Z (Qfloor (score / 500)) * 0.2
  else 1 + (inject_Z (Z.of_nat level) - 1) * 0.15.

Definition spec_target (isInfinite : bool) (level : nat) : Q :=
  if isInfinite then 999999999 else 800 + inject_Z (Z.of_nat level) * 100.

Definition spec_gap (pw d r : Q) : Q :=
  Qmax (Qmax (pw * 1.6) 40) (420 - d * 60 + uniformRandom 0 100 r).

Definition spec_width (pw ph d r : Q) : Q :=
  Qmin (pw * 2.4) (ph * 1.05 * 0.6 + d * 8 + uniformRandom 0 18 r).

Definition spec_height (ph d r : Q) : Q :=
  if Qlt_le_dec r 0.25 then (ph * 2.0 + d * 4) + d * 6 else ph * 1.05.

(** Obstacles placed one after the other from a cursor: obstacle number [i]
    uses the draws [3i], [3i+1], [3i+2] for its gap, width and height, sits
    on the ground line, and leaves the cursor at its right edge. *)
Inductive Placed (rnd : nat -> Q) (pw ph d groundLine : Q)
    : nat -> Q -> list Obstacle.t -> Prop :=
| Placed_nil (k : nat) (cursor : Q) : Placed rnd pw ph d groundLine k cursor []
| Placed_cons (k : nat) (cursor : Q) (o : Obstacle.t) (obs : list Obstacle.t) :
    Obstacle.x o == cursor + spec_gap pw d (rnd k) ->
    Obstacle.width o == spec_width pw ph d (rnd (k + 1)%nat) ->
    Obstacle.height o == spec_height ph d (rnd (k + 2)%nat) ->
    Obstacle.y o == groundLine - Obstacle.height o ->
    Placed rnd pw ph d groundLine (k + 3)
      (Obstacle.x o + Obstacle.width o) obs ->
    Placed rnd pw ph d groundLine k cursor (o :: obs).

(** Placement goes on exactly while the cursor is short of the target: every
    obstacle but the last ends before it, the last one does not. *)
Fixpoint reaches (target : Q) (obs : list Obstacle.t) : Prop :=
  match obs with
  | [] => True
  | o :: rest =>
    match rest with
    | [] => ~ Obstacle.x o + Obstacle.width o < target
    | _ :: _ =>
      Obstacle.x o + Obstacle.width o < target /\ reaches target rest
    end
  end.

(** Fuel that is enough for the generator on a well-formed state: every
    obstacle advances the cursor by 40 pixels or more. *)
Definition enoughFuel (isInfinite : bool) (st : Game) : nat :=
  S (S (Z.to_nat (Qceiling (spec_target isInfinite (currentLevel st) / 40)))).

(** Player and canvas sizes as a resize leaves them, and draws as
    [Math.random] gives them. *)
Definition sizes_ok (st : Game) : Prop :=
  0 <= Player.width (player st)
  /\ 0 <= Player.height (player st)
  /\ 0 <= canvas_width st.

Definition draws_ok (rnd : nat -> Q) : Prop := forall k, 0 <= rnd k < 1.

(** Reading a result that is known to be there. *)
Definition defined {A : Type} (o : option A) : bool :=
  match o with Some _ => true | None => false end.

Definition nthObstacle (i : nat) (st : Game) : Obstacle.t :=
  default (Obstacle.mk 0 0 0 0) (levelObstacles st !! i).

(** Level 5 generated on the 800 x 600 canvas with every draw at 0.5: two
    obstacles. *)
Definition levelFiveStart : Game := set_currentLevel 5 (init 800 600).

Definition levelFiveGenerated : Game :=
  default levelFiveStart (generateObstacles 100 half false levelFiveStart).

(** A crash in infinite mode on the same canvas. *)
Definition crashedInfinite : Game :=
  resetGame (set_gameState INFINITE (init 800 600)).

(** Level 5 entered and cleared by one very long frame, then "Select Level"
    on the completion screen; and, from there, a click on level button 1. *)
Definition levelFiveCleared : list Event :=
  [Frame 0; MouseDown half 300 340; MouseDown half 350 160; Frame 16;
   Frame 100016; MouseDown half 500 340].

Definition selectingAgain : Game := after 100 levelFiveCleared (init 800 600).

Definition lowerLevelSelected : Game :=
  after 100 [MouseDown half 90 160] selectingAgain.

(** The states after each of a sequence of frames, and the time the frames
    span, in seconds, from the previous frame's timestamp [t0]. *)
Fixpoint frames (ts : list Q) (st : Game) : list Game :=
  match ts with
  | [] => []
  | t :: ts' => gameLoop t st :: frames ts' (gameLoop t st)
  end.

Fixpoint elapsed (ts : list Q) (t0 : Q) : Q :=
  match ts with
  | [] => 0
  | t :: ts' => (t - t0) / 1000 + elapsed ts' t
  end.

(** ** Vocabulary of the layout *)

(** The rectangle of level button [i], as the layout loop computes it. *)
Definition levelButton (W H : Q) (i : nat) : Button.t :=
  Button.mk
    (W * 0.1 + inject_Z (Z.of_nat ((i - 1) mod 10)) * (50 + 15))
    (H * 0.25 + inject_Z (Z.of_nat ((i - 1) / 10)) * (30 + 15))
    50 30 (pretty i).

(** A point inside a button, borders included. *)
Definition inside (b : Button.t) (x y : Q) : Prop :=
  Button.x b <= x <= Button.x b + Button.width b
  /\ Button.y b <= y <= Button.y b + Button.height b.

(** What only a resize writes: the canvas size, the ground height, the
    button table, and the player's size and constants. *)
Definition playerConstants (p : Player.t) :=
  (Player.width p, Player.height p, Player.gravity p, Player.jumpStrength p,
   Player.terminalVelocity p,
   (Player.hitboxOffsetX p, Player.hitboxOffsetY p,
    Player.hitboxWidthScale p, Player.hitboxHeightScale p)).

Definition geometry (st : Game) :=
  (canvas_width st, canvas_height st, groundHeight st, menuButtons st,
   playerConstants (player st)).

(** The button table is the layout of the current canvas size. *)
Definition laid_out (st : Game) : Prop :=
  menuButtons (updateMenuButtonPositions st) = menuButtons st.

(** The selection screen on the 800 x 600 canvas, straight from the menu. *)
Definition levelSelectScreen : Game := set_gameState LEVEL_SELECT (init 800 600).

(** The selection screen on a 300 x 100 canvas, where the first level
    buttons lie under Back. *)
Definition smallSelectScreen : Game := set_gameState LEVEL_SELECT (init 300 100).

(** ** Vocabulary of the state machine *)

(** The modes an event can lead to from a state. *)
Definition may_follow (e : Event) (st : Game) (b : GameState) : Prop :=
  let a := gameState st in
  match e with
  | Resize _ _ | KeyDown _ => b = a
  | Frame _ =>
    b = a
    \/ (a = LEVEL \/ a = INFINITE) /\ b = GAME_OVER
    \/ a = LEVEL /\ b = LEVEL_COMPLETE
  | MouseDown _ _ _ =>
    b = a
    \/ a = MENU /\ (b = LEVEL_SELECT \/ b = INFINITE)
    \/ a = LEVEL_SELECT /\ (b = MENU \/ b = LEVEL)
    \/ a = GAME_OVER
       /\ (b = MENU
           \/ previousGameState st = INFINITE /\ b = INFINITE
           \/ previousGameState st <> INFINITE /\ b = LEVEL)
    \/ a = LEVEL_COMPLETE /\ (b = MENU \/ b = LEVEL_SELECT)
  end.

(** The remembered mode is one a run can be resumed in. *)
Definition resumable (st : Game) : Prop :=
  previousGameState st = LEVEL \/ previousGameState st = INFINITE.

(** Frame timestamps that never run backwards, from the time [t0] of the
    previous frame on. *)
Fixpoint in_time (t0 : Q) (es : list Event) : Prop :=
  match es with
  | [] => True
  | Frame t :: es' => t0 <= t /\ in_time t es'
  | _ :: es' => in_time t0 es'
  end.

(** ** Vocabulary of the obstacle list *)

(** Left to right in list order. *)
Definition sorted_x (obs : list Obstacle.t) : Prop :=
  forall (i : nat) (a b : Obstacle.t),
    obs !! i = Some a -> obs !! S i = Some b -> Obstacle.x a <= Obstacle.x b.

(** Level 12 entered on the 800 x 600 canvas with every draw at 0.5: four
    obstacles, 787, 1184.9, 1582.8 and 1980.7 pixels from the left edge after
    the first frame.  A frame 4.5 s later takes the first past the player
    and brings the second onto the player. *)
Definition levelTwelveTrace : list Event :=
  [Frame 0; MouseDown half 300 340; MouseDown half 150 200; Frame 16].

Definition levelTwelveState : Game := after 100 levelTwelveTrace (init 800 600).

(** The first [k] obstacles moved left by [dx], the others untouched. *)
Definition moved_prefix (dx : Q) (k : nat) (obs : list Obstacle.t)
    : list Obstacle.t :=
  (scroll_by dx <$> take k obs) ++ drop k obs.

(** The sprite's own rectangle against an obstacle, by the same strict
    test as the hitbox. *)
Definition sprite_overlaps (p : Player.t) (o : Obstacle.t) : Prop :=
  Player.x p < Obstacle.x o + Obstacle.width o
  /\ Player.x p + Player.width p > Obstacle.x o
  /\ Player.y p < Obstacle.y o + Obstacle.height o
  /\ Player.y p + Player.height p > Obstacle.y o.

(** The hitbox fractions the script declares. *)
Definition script_hitbox (p : Player.t) : Prop :=
  Player.hitboxOffsetX p = 0.12 /\ Player.hitboxOffsetY p = 0.18
  /\ Player.hitboxWidthScale p = 0.76 /\ Player.hitboxHeightScale p = 0.68.

(** Every resize of a run is to a viewport with sizes that are not
    negative. *)
Definition viewports_ok (es : list Event) : Prop :=
  forall w h, Resize w h ∈ es -> 0 <= w /\ 0 <= h.

(** Each obstacle is placed at least [room] after the cursor: the first
    after [cursor], every other after the right edge of the one before. *)
Fixpoint spaced (room cursor : Q) (obs : list Obstacle.t) : Prop :=
  match obs with
  | [] => True
  | o :: rest =>
    cursor + room <= Obstacle.x o
    /\ spaced room (Obstacle.x o + Obstacle.width o) rest
  end.

(** Level 7 generated from the same state and draws as level 5. *)
Definition levelSevenGenerated : Game :=
  default levelFiveStart
    (generateObstacles 100 half false
       (set_score 0 (set_currentLevel 7 levelFiveStart))).

(** ** Vocabulary of the jump *)

(** Height gained, as a fraction of the canvas height and counted downwards,
    [k] steps after a jump: the sum of the velocities
    (-0.06 + 0.0035 i) for i = 1..k. *)
Definition jumpArc (k : nat) : Q :=
  let K := inject_Z (Z.of_nat k) in
  0.00175 * K * K - 0.05825 * K.

(** The state of a jump on a canvas of height [h]: at rest on the ground
    line at [y0], or [k] steps into a jump, [k] at most 33. *)
Definition on_jump_arc (h y0 : Q) (p : Player.t) : Prop :=
  Player.isGrounded p = true /\ Player.y p == y0
  \/ Player.isGrounded p = false
     /\ exists k : nat,
          (k <= 33)%nat
          /\ Player.velocityY p
             == (-0.06 + 0.0035 * inject_Z (Z.of_nat k)) * h
          /\ Player.y p == y0 + h * jumpArc k.

(** The constants a resize to height [h] derives. *)
Definition resized_to (h : Q) (st : Game) : Prop :=
  canvas_height st = h
  /\ groundHeight st = Qmax 18 (h * 0.06)
  /\ Player.height (player st) = h * 0.15
  /\ Player.gravity (player st) = h * 0.0035
  /\ Player.jumpStrength (player st) = - (h * 0.06)
  /\ Player.terminalVelocity (player st) = h * 2.5.

(** ** Vocabulary of the ground line *)

(** The position the ground snap assigns, and the test that triggers it,
    both as [updatePlayer] writes them. *)
Definition groundPosition (st : Game) : Q :=
  canvas_height st - groundHeight st - Player.height (player st).

Definition past_ground_line (st : Game) (p : Player.t) : Prop :=
  canvas_height st - groundHeight st < Player.y p + Player.height p.

(** ** The vertical physics in IEEE doubles

    The same assignments over binary64 numbers, to see where rounding makes
    the script differ from the exact formulas.  Only the fields the vertical
    physics reads are kept.  A decimal literal is the correctly rounded
    quotient of two integers, which is the double the literal denotes. *)
Module Double.

Definition t : Type := spec_float.

Definition prec : Z := 53.
Definition emax : Z := 1024.

Definition of_Z (n : Z) : t := binary_normalize prec emax n 0 false.
Definition lit (n d : Z) : t := SFdiv prec emax (of_Z n) (of_Z d).

Definition add : t -> t -> t := SFadd prec emax.
Definition sub : t -> t -> t := SFsub prec emax.
Definition mul : t -> t -> t := SFmul prec emax.
Definition neg : t -> t := SFopp.
Definition ltb : t -> t -> bool := SFltb.
Definition max (a b : t) : t := if ltb a b then b else a.

Record Player := mkPlayer {
  y : t;
  height : t;
  velocityY : t;
  gravity : t;
  jumpStrength : t;
  isGrounded : bool;
  terminalVelocity : t
}.

Record Game := mkGame {
  canvas_height : t;
  groundHeight : t;
  player : Player
}.

Definition globals : Game :=
  mkGame (of_Z 150) (of_Z 10)
    (mkPlayer (of_Z 0) (of_Z 0) (of_Z 0) (of_Z 1) (of_Z (-20)) true
       (of_Z 2000)).

Definition resizeCanvas (offsetHeight : Z) (st : Game) : Game :=
  let ch := of_Z offsetHeight in
  let groundHeight' := max (of_Z 18) (mul ch (lit 6 100)) in
  let height' := mul ch (lit 15 100) in
  let p := player st in
  mkGame ch groundHeight'
    (mkPlayer (sub (sub ch groundHeight') height') height' (velocityY p)
       (mul ch (lit 35 10000)) (neg (mul ch (lit 6 100))) (isGrounded p)
       (mul ch (lit 25 10))).

Definition resetPlayerAndObstacles (st : Game) : Game :=
  let p := player st in
  mkGame (canvas_height st) (groundHeight st)
    (mkPlayer (sub (sub (canvas_height st) (height p)) (groundHeight st))
       (height p) (of_Z 0) (gravity p) (jumpStrength p) true
       (terminalVelocity p)).

Definition set_y (v : t) (p : Player) : Player :=
  mkPlayer v (height p) (velocityY p) (gravity p) (jumpStrength p)
    (isGrounded p) (terminalVelocity p).

Definition set_velocityY (v : t) (p : Player) : Player :=
  mkPlayer (y p) (height p) v (gravity p) (jumpStrength p) (isGrounded p)
    (terminalVelocity p).

Definition set_isGrounded (b : bool) (p : Player) : Player :=
  mkPlayer (y p) (height p) (velocityY p) (gravity p) (jumpStrength p) b
    (terminalVelocity p).

Definition updatePlayer (st : Game) : Game :=
  let p := player st in
  let p :=
    if negb (isGrounded p) then
      let p := set_velocityY (add (velocityY p) (gravity p)) p in
      let p :=
        if ltb (terminalVelocity p) (velocityY p)
        then set_velocityY (terminalVelocity p) p else p in
      set_y (add (y p) (velocityY p)) p
    else p in
  let line := sub (canvas_height st) (groundHeight st) in
  let p :=
    if ltb line (add (y p) (height p)) then
      set_isGrounded true
        (set_velocityY (of_Z 0) (set_y (sub line (height p)) p))
    else p in
  let p :=
    if ltb (y p) (of_Z 0) then
      let p := set_y (of_Z 0) p in
      if ltb (velocityY p) (of_Z 0) then set_velocityY (of_Z 0) p else p
    else p in
  mkGame (canvas_height st) (groundHeight st) p.

Definition jump (st : Game) : Game :=
  let p := player st in
  if isGrounded p then
    mkGame (canvas_height st) (groundHeight st)
      (set_velocityY (jumpStrength p) (set_isGrounded false p))
  else st.

(** [player.y + player.height > canvas.height - groundHeight], the ground
    test, and the sprite fitting the room. *)
Definition past_ground_line (st : Game) : bool :=
  ltb (sub (canvas_height st) (groundHeight st))
    (add (y (player st)) (height (player st))).

Definition player_fits (st : Game) : bool :=
  negb (ltb (sub (canvas_height st) (groundHeight st)) (height (player st))).

End Double.

(** ** Vocabulary of the crash screen *)



(** * Properties *)

(** ** Boolean tests against their propositions *)

Lemma Qlt_bool_iff (a b : Q) : Qlt_bool a b = true <-> a < b.
Proof. unfold Qlt_bool, Qlt. apply Z.ltb_lt. Qed.

Lemma Qlt_bool_false_iff (a b : Q) : Qlt_bool a b = false <-> ~ a < b.
Proof.
  rewrite <- Qlt_bool_iff. destruct (Qlt_bool a b); split; intros; congruence.
Qed.

Lemma Qle_bool_false_iff (a b : Q) : Qle_bool a b = false <-> ~ a <= b.
Proof.
  rewrite <- Qle_bool_iff. destruct (Qle_bool a b); split; intros; congruence.
Qed.

Lemma GameState_eqb_eq (a b : GameState) : GameState_eqb a b = true <-> a = b.
Proof. destruct a, b; simpl; split; intros; congruence. Qed.

(** Closing goals on concrete numbers by evaluation. *)
Ltac qle_eval := apply Qle_bool_iff; vm_compute; reflexivity.
Ltac qlt_eval := apply Qlt_bool_iff; vm_compute; reflexivity.
Ltac qeq_eval := apply Qeq_bool_iff; vm_compute; reflexivity.
Ltac qle_absurd H := apply Qle_bool_iff in H; vm_compute in H; discriminate H.
Ltac qlt_absurd H := apply Qlt_bool_iff in H; vm_compute in H; discriminate H.

Ltac player_fields :=
  cbn [set_y set_xy set_velocityY set_isGrounded
       Player.x Player.y Player.width Player.height Player.velocityY
       Player.gravity Player.jumpStrength Player.isGrounded
       Player.terminalVelocity].

(** ** Resize *)

Lemma levelButtonsLoop_union (sx sy bw bh pad : Q) (cols n : nat) :
  forall (i : nat) (m : gmap string Button.t),
    levelButtonsLoop sx sy bw bh pad cols n i m
    = levelButtonsLoop sx sy bw bh pad cols n i ∅ ∪ m.
Proof.
  induction n as [|n IH]; intros i m; cbn [levelButtonsLoop].
  - by rewrite (left_id_L ∅ (∪)).
  - rewrite IH. symmetry. rewrite IH.
    rewrite <- (assoc_L (∪)). f_equal.
    by rewrite <- insert_union_l, (left_id_L ∅ (∪)).
Qed.

(** The layout only adds to the button table, and what it writes depends on
    the canvas size alone. *)
Lemma updateMenuButtonPositions_union (st : Game) :
  menuButtons (updateMenuButtonPositions st)
  = menuButtons (updateMenuButtonPositions (set_menuButtons ∅ st))
    ∪ menuButtons st.
Proof.
  cbv [updateMenuButtonPositions menuButtons set_menuButtons
       canvas_width canvas_height].
  destruct st; cbv beta iota.
  rewrite levelButtonsLoop_union. symmetry.
  rewrite levelButtonsLoop_union.
  rewrite <- (assoc_L (∪)). f_equal.
  rewrite <- !insert_union_l. by rewrite (left_id_L ∅ (∪)).
Qed.

Lemma updateMenuButtonPositions_frame (st : Game) :
  updateMenuButtonPositions st
  = set_menuButtons (menuButtons (updateMenuButtonPositions st)) st.
Proof. reflexivity. Qed.

Lemma updateMenuButtonPositions_twice (st : Game) :
  menuButtons (updateMenuButtonPositions
     (set_menuButtons (menuButtons (updateMenuButtonPositions st)) st))
  = menuButtons (updateMenuButtonPositions st).
Proof.
  rewrite updateMenuButtonPositions_union.
  rewrite (updateMenuButtonPositions_union st).
  cbn [menuButtons set_menuButtons].
  rewrite (assoc_L (∪)).
  apply (f_equal (fun z => z ∪ menuButtons st)).
  change (set_menuButtons ∅ (set_menuButtons _ st))
    with (set_menuButtons ∅ st).
  apply (idemp_L (∪)).
Qed.

Lemma resizeCanvas_idempotent (w h : Q) (st : Game) :
  resizeCanvas w h (resizeCanvas w h st) = resizeCanvas w h st.
Proof.
  unfold resizeCanvas.
  set (c := mkGame _ _ _ _ _ _ _ _ (menuButtons st) _ _).
  transitivity (updateMenuButtonPositions
     (set_menuButtons (menuButtons (updateMenuButtonPositions c)) c)).
  { reflexivity. }
  rewrite updateMenuButtonPositions_frame, updateMenuButtonPositions_twice.
  rewrite (updateMenuButtonPositions_frame c) at 3.
  reflexivity.
Qed.

(** What a resize derives from the viewport, whatever the state before. *)
Lemma resizeCanvas_geometry (w h : Q) (st : Game) :
  let p := player (resizeCanvas w h st) in
  groundHeight (resizeCanvas w h st) = Qmax 18 (h * 0.06)
  /\ Player.height p = h * 0.15
  /\ Player.width p = Player.height p
  /\ Player.x p = w * 0.05
  /\ Player.y p = h - Qmax 18 (h * 0.06) - h * 0.15
  /\ Player.gravity p = h * 0.0035
  /\ Player.jumpStrength p = - (h * 0.06)
  /\ Player.terminalVelocity p = h * 2.5
  /\ canvas_width (resizeCanvas w h st) = w
  /\ canvas_height (resizeCanvas w h st) = h.
Proof. repeat split. Qed.

(** C9.  Resizing twice in a row with the same viewport size gives, after
    the second call, the same player rectangle (x, y, width, height) and the
    same constants (gravity, jumpStrength, terminalVelocity, groundHeight) as
    after the first; in fact the same state altogether. *)
Theorem resize_twice_same_geometry (w h : Q) (st : Game) :
  let once := resizeCanvas w h st in
  let twice := resizeCanvas w h once in
  Player.x (player twice) = Player.x (player once)
  /\ Player.y (player twice) = Player.y (player once)
  /\ Player.width (player twice) = Player.width (player once)
  /\ Player.height (player twice) = Player.height (player once)
  /\ Player.gravity (player twice) = Player.gravity (player once)
  /\ Player.jumpStrength (player twice) = Player.jumpStrength (player once)
  /\ Player.terminalVelocity (player twice)
     = Player.terminalVelocity (player once)
  /\ groundHeight twice = groundHeight once
  /\ twice = once.
Proof.
  intros once twice. subst twice once.
  rewrite resizeCanvas_idempotent. repeat split.
Qed.

(** ** Runs *)

Lemma run_after (fuel : nat) (es : list Event) (st : Game) :
  completes fuel es st = true -> run fuel es st = Some (after fuel es st).
Proof.
  unfold completes, after. destruct (run fuel es st); [reflexivity|discriminate].
Qed.

(** ** Physics *)

Lemma integrate_height (p : Player.t) :
  Player.height (integrate p) = Player.height p.
Proof.
  unfold integrate. destruct (negb (Player.isGrounded p)); [|reflexivity].
  cbn. destruct (Qlt_bool _ _); reflexivity.
Qed.

Lemma groundCollision_height (H g : Q) (p : Player.t) :
  Player.height (groundCollision H g p) = Player.height p.
Proof. unfold groundCollision. destruct (Qlt_bool _ _); reflexivity. Qed.

Lemma ceilingClamp_height (p : Player.t) :
  Player.height (ceilingClamp p) = Player.height p.
Proof.
  unfold ceilingClamp. destruct (Qlt_bool (Player.y p) 0); [|reflexivity].
  cbn. destruct (Qlt_bool _ _); reflexivity.
Qed.

(** A step moves the player vertically only. *)
Lemma updatePlayer_keeps (st : Game) :
  Player.x (player (updatePlayer st)) = Player.x (player st)
  /\ Player.width (player (updatePlayer st)) = Player.width (player st)
  /\ Player.height (player (updatePlayer st)) = Player.height (player st).
Proof.
  unfold updatePlayer, integrate, groundCollision, ceilingClamp.
  cbn [player set_player].
  repeat match goal with
         | |- context [if ?b then _ else _] => destruct b; cbn
         end; repeat split.
Qed.

Lemma updatePlayer_fits (st : Game) :
  player_fits st -> player_fits (updatePlayer st).
Proof.
  unfold player_fits, updatePlayer. cbn [player canvas_height groundHeight set_player].
  rewrite ceilingClamp_height, groundCollision_height, integrate_height. tauto.
Qed.

Lemma jump_fits (st : Game) : player_fits st -> player_fits (jump st).
Proof.
  unfold player_fits, jump. destruct (Player.isGrounded (player st)); tauto.
Qed.

Lemma runPhysics_fits (calls : list PhysicsCall) :
  forall st, player_fits st -> player_fits (runPhysics calls st).
Proof.
  induction calls as [|c calls IH]; intros st Hfit; [exact Hfit|].
  apply IH. destruct c; [apply updatePlayer_fits | apply jump_fits]; exact Hfit.
Qed.

(** One step, by the two tests of [updatePlayer] on the player after the
    integration. *)
Lemma updatePlayer_step (s : Game) :
  player_fits s ->
  let p := integrate (player s) in
  let p' := player (updatePlayer s) in
  0 <= Player.y p'
  /\ (Player.y p' = groundPosition (updatePlayer s)
      \/ ~ past_ground_line (updatePlayer s) p')
  /\ (past_ground_line s p ->
      Player.y p' = groundPosition s
      /\ Player.velocityY p' = 0 /\ Player.isGrounded p' = true)
  /\ (~ past_ground_line s p -> Player.y p < 0 ->
      Player.y p' = 0
      /\ (Player.velocityY p < 0 -> Player.velocityY p' = 0)
      /\ (~ Player.velocityY p < 0 -> Player.velocityY p' = Player.velocityY p)
      /\ Player.isGrounded p' = Player.isGrounded p)
  /\ (~ past_ground_line s p -> ~ Player.y p < 0 -> p' = p).
Proof.
  intros Hfit p p'. subst p'.
  assert (Hh : Player.height p = Player.height (player s))
    by apply integrate_height.
  unfold player_fits in Hfit.
  unfold past_ground_line, groundPosition, updatePlayer.
  cbn [player set_player canvas_height groundHeight]. fold p.
  unfold groundCollision.
  destruct (Qlt_bool (canvas_height s - groundHeight s)
              (Player.y p + Player.height p)) eqn:E1.
  - apply Qlt_bool_iff in E1. unfold ceilingClamp. player_fields.
    assert (E2 : Qlt_bool (canvas_height s - groundHeight s - Player.height p)
                   0 = false).
    { apply Qlt_bool_false_iff. rewrite Hh. lra. }
    rewrite E2. player_fields.
    split; [rewrite Hh; lra|]. split; [left; reflexivity|].
    split; [intros _; rewrite Hh; repeat split|].
    split; intros Hn; contradiction.
  - apply Qlt_bool_false_iff in E1. unfold ceilingClamp.
    destruct (Qlt_bool (Player.y p) 0) eqn:E2.
    + apply Qlt_bool_iff in E2.
      assert (Hy : forall q, Player.y (set_y 0 q) = 0) by reflexivity.
      assert (Hv : Player.velocityY (set_y 0 p) = Player.velocityY p)
        by reflexivity.
      rewrite Hv.
      destruct (Qlt_bool (Player.velocityY p) 0) eqn:E3; player_fields.
      * apply Qlt_bool_iff in E3.
        split; [lra|]. split; [right; rewrite Hh; lra|].
        split; [intros Hn; contradiction|].
        split; [|intros _ Hn; contradiction].
        intros _ _. repeat split. intros Hn. contradiction.
      * apply Qlt_bool_false_iff in E3.
        split; [lra|]. split; [right; rewrite Hh; lra|].
        split; [intros Hn; contradiction|].
        split; [|intros _ Hn; contradiction].
        intros _ _. repeat split. intros Hn. contradiction.
    + apply Qlt_bool_false_iff in E2.
      split; [lra|]. split; [right; exact E1|].
      split; [intros Hn; contradiction|].
      split; [intros _ Hn; contradiction|].
      intros _ _. reflexivity.
Qed.

(** C3, amended.  When the sprite is no taller than the room between the
    ceiling and the ground line, then after every physics step of every
    sequence of steps and jumps, from any position, the player is not above
    the ceiling and is at or above the ground: at the position the ground
    snap assigns, or not past the ground line by the step's own test.  In
    the step the ground snap puts the player at that position, zeroes
    velocityY and sets grounded; otherwise the ceiling snap sets y to 0 and
    zeroes velocityY only if it was negative; otherwise the player is as the
    integration left it. *)
Theorem physics_keeps_player_in_room (calls : list PhysicsCall) (st : Game) :
  player_fits st ->
  let s := runPhysics calls st in
  let p := integrate (player s) in
  let st' := runPhysics (calls ++ [CallStep]) st in
  let p' := player st' in
  0 <= Player.y p'
  /\ (Player.y p' = groundPosition st' \/ ~ past_ground_line st' p')
  /\ (past_ground_line s p ->
      Player.y p' = groundPosition s
      /\ Player.velocityY p' = 0 /\ Player.isGrounded p' = true)
  /\ (~ past_ground_line s p -> Player.y p < 0 ->
      Player.y p' = 0
      /\ (Player.velocityY p < 0 -> Player.velocityY p' = 0)
      /\ (~ Player.velocityY p < 0 -> Player.velocityY p' = Player.velocityY p)
      /\ Player.isGrounded p' = Player.isGrounded p)
  /\ (~ past_ground_line s p -> ~ Player.y p < 0 -> p' = p).
Proof.
  intros Hfit s p st' p'. subst p' st'. unfold runPhysics.
  rewrite fold_left_app. cbn [fold_left physics]. fold (runPhysics calls st).
  fold s. apply updatePlayer_step. apply runPhysics_fits. exact Hfit.
Qed.

Lemma physics_keeps_player_in_room_witness :
  let s := runPhysics (replicate 33 CallStep) (jump (init 800 600)) in
  let p := integrate (player s) in
  let st' := runPhysics (replicate 33 CallStep ++ [CallStep])
               (jump (init 800 600)) in
  let p' := player st' in
  past_ground_line s p
  /\ 0 <= Player.y p'
  /\ Player.y p' = groundPosition s
  /\ Player.velocityY p' = 0 /\ Player.isGrounded p' = true.
Proof.
  intros s p st' p'.
  assert (Hfit : player_fits (jump (init 800 600)))
    by (unfold player_fits; qle_eval).
  assert (Hpast : past_ground_line s p)
    by (unfold past_ground_line; qlt_eval).
  pose proof (physics_keeps_player_in_room (replicate 33 CallStep)
                (jump (init 800 600)) Hfit) as H.
  cbv zeta in H. destruct H as (H0 & _ & Hsnap & _).
  split; [exact Hpast|]. split; [exact H0|]. exact (Hsnap Hpast).
Defined.

(** C3 as stated fails: on a canvas 10 pixels high the ground line is above
    the ceiling; the player starts on the ground line, and the step's ceiling
    clamp lifts the sprite to [y = 0], below the ground line. *)
Lemma physics_counterexample_short_canvas :
  run 100 shrunkWindow (init 800 600) = Some shrunkState
  /\ gameState shrunkState = LEVEL
  /\ on_or_above_ground shrunkState
  /\ ~ on_or_above_ground (runPhysics [CallStep] shrunkState).
Proof.
  split; [apply run_after; vm_compute; reflexivity|].
  split; [vm_compute; reflexivity|]. split.
  - unfold on_or_above_ground. qle_eval.
  - unfold on_or_above_ground. intros H. qle_absurd H.
Qed.

(** ** Where rounding shows

    The script's own binary64 values, computed. *)

(** On a canvas 768 pixels high the sprite fits the room, yet the sum
    [y + height] at the snap position rounds past the ground line: the
    ground test is true of a player at rest, after the resize and after
    every step, and the snap puts the player where it is. *)
Lemma ground_sum_rounds_past_the_line :
  let st := Double.resizeCanvas 768 Double.globals in
  Double.player_fits st = true
  /\ Double.past_ground_line st = true
  /\ Double.updatePlayer st = st.
Proof. vm_compute. repeat split. Qed.

(** On a canvas 1024 pixels high the reset and the ground snap round the
    same position apart: the first step after a reset takes the player from
    the reset's position to the snap's, one unit in the last place higher,
    and there it stays. *)
Lemma reset_and_snap_round_apart :
  let s := Double.resetPlayerAndObstacles
             (Double.resizeCanvas 1024 Double.globals) in
  let s' := Double.updatePlayer s in
  Double.ltb (Double.y (Double.player s')) (Double.y (Double.player s)) = true
  /\ Double.y (Double.player s')
     = Double.sub (Double.sub (Double.canvas_height s) (Double.groundHeight s))
         (Double.height (Double.player s))
  /\ Double.updatePlayer s' = s'.
Proof. vm_compute. repeat split. Qed.

(** On a canvas 50 pixels high the apex of a jump, 17 steps after it, rounds
    to a little above the exact apex, 0.4845 canvas heights over the ground
    position; it is below the top edge and within 0.485 canvas heights. *)
Lemma jump_apex_rounds_past_the_exact_apex :
  let st := Double.resizeCanvas 50 Double.globals in
  let y0 := Double.y (Double.player st) in
  let h := Double.canvas_height st in
  let apex :=
    Double.y (Double.player (Nat.iter 17 Double.updatePlayer (Double.jump st))) in
  Double.ltb apex (Double.sub y0 (Double.mul h (Double.lit 4845 10000))) = true
  /\ Double.ltb (Double.of_Z 0) apex = true
  /\ Double.ltb (Double.sub y0 (Double.mul h (Double.lit 485 1000))) apex
     = true.
Proof. vm_compute. repeat split. Qed.

(** ** The obstacle scan *)

Section ScanFacts.

Variables (inLevel : bool) (dx pX pY pW pH : Q).

Local Abbreviation hits := (hit pX pY pW pH).
Local Abbreviation scan := (scanLoop inLevel dx pX pY pW pH).

Lemma scanLoop_at (pre : list Obstacle.t) (o : Obstacle.t)
    (rest : list Obstacle.t) (ld : bool) :
  scan (S (length rest)) (length pre) (pre ++ o :: rest) ld
  = if hits (scroll_by dx o) then Crashed (pre ++ scroll_by dx o :: rest)
    else scan (length rest) (length (pre ++ [scroll_by dx o]))
           ((pre ++ [scroll_by dx o]) ++ rest)
           (if inLevel
               && Qlt_bool (Obstacle.x (scroll_by dx o))
                    (- Obstacle.width (scroll_by dx o))
               && bool_decide (rest = [])
            then true else ld).
Proof.
  cbn [scanLoop].
  rewrite list_lookup_middle by reflexivity.
  replace (<[length pre := scroll_by dx o]> (pre ++ o :: rest))
    with (pre ++ scroll_by dx o :: rest).
  2:{ rewrite insert_app_r_alt by lia. by rewrite Nat.sub_diag. }
  destruct (hits (scroll_by dx o)); [reflexivity|].
  rewrite <- (assoc_L (++)). cbn [app].
  rewrite (length_app pre [_]). cbn [length].
  replace (length pre + 1)%nat with (S (length pre)) by lia.
  f_equal.
  replace (length pre =? length (pre ++ scroll_by dx o :: rest) - 1)%nat
    with (bool_decide (rest = [])); [reflexivity|].
  rewrite length_app. cbn [length].
  destruct rest as [|r rest']; cbn [length].
  - rewrite bool_decide_true by reflexivity. symmetry. apply Nat.eqb_eq. lia.
  - rewrite bool_decide_false by discriminate. symmetry. apply Nat.eqb_neq. lia.
Qed.

(** No obstacle is hit: all are moved, and the flag is set by the last one. *)
Lemma scanLoop_clear (rest : list Obstacle.t) :
  forall (pre : list Obstacle.t) (ld : bool),
    Forall (fun o => hits (scroll_by dx o) = false) rest ->
    scan (length rest) (length pre) (pre ++ rest) ld
    = Scanned (pre ++ (scroll_by dx <$> rest))
        (match last rest with
         | Some l =>
           if inLevel && Qlt_bool (Obstacle.x (scroll_by dx l))
                           (- Obstacle.width (scroll_by dx l))
           then true else ld
         | None => ld
         end).
Proof.
  induction rest as [|o rest IH]; intros pre ld Hclear.
  - cbn. by rewrite (right_id_L [] (++)).
  - apply Forall_cons in Hclear as [Ho Hrest]. cbn [length].
    rewrite scanLoop_at, Ho, IH by exact Hrest.
    rewrite <- (assoc_L (++)). cbn [app fmap list_fmap]. f_equal.
    destruct rest as [|r rest'].
    + rewrite bool_decide_true by reflexivity. cbn [last].
      by rewrite andb_true_r.
    + rewrite bool_decide_false by discriminate.
      rewrite andb_false_r. by rewrite last_cons_cons.
Qed.

(** The first obstacle hit ends the scan: the ones before it and itself are
    moved, the ones after it are not. *)
Lemma scanLoop_crash (before : list Obstacle.t) :
  forall (pre : list Obstacle.t) (o : Obstacle.t) (rest : list Obstacle.t)
         (ld : bool),
    Forall (fun o => hits (scroll_by dx o) = false) before ->
    hits (scroll_by dx o) = true ->
    scan (length (before ++ o :: rest)) (length pre)
      (pre ++ before ++ o :: rest) ld
    = Crashed (pre ++ (scroll_by dx <$> before) ++ scroll_by dx o :: rest).
Proof.
  induction before as [|b before IH]; intros pre o rest ld Hclear Ho.
  - cbn [app length fmap list_fmap]. by rewrite scanLoop_at, Ho.
  - apply Forall_cons in Hclear as [Hb Hclear].
    cbn [app length]. rewrite scanLoop_at, Hb, IH by assumption.
    rewrite <- (assoc_L (++)). reflexivity.
Qed.

End ScanFacts.

(** ** The scroller *)

Lemma hit_overlaps (p : Player.t) (o : Obstacle.t) :
  hit (Player.x p + Player.width p * Player.hitboxOffsetX p)
      (Player.y p + Player.height p * Player.hitboxOffsetY p)
      (Player.width p * Player.hitboxWidthScale p)
      (Player.height p * Player.hitboxHeightScale p) o = true
  <-> hitbox_overlaps p o.
Proof.
  unfold hit, hitbox_overlaps.
  rewrite !andb_true_iff, !Qlt_bool_iff. tauto.
Qed.

Lemma hit_clear (p : Player.t) (o : Obstacle.t) :
  hit (Player.x p + Player.width p * Player.hitboxOffsetX p)
      (Player.y p + Player.height p * Player.hitboxOffsetY p)
      (Player.width p * Player.hitboxWidthScale p)
      (Player.height p * Player.hitboxHeightScale p) o = false
  <-> ~ hitbox_overlaps p o.
Proof.
  rewrite <- hit_overlaps. destruct (hit _ _ _ _ o); split; congruence.
Qed.

Lemma scroll_is_scrollSpeed (st : Game) :
  (if GameState_eqb (gameState st) LEVEL then 250 else 300)
  + (if GameState_eqb (gameState st) INFINITE
     then inject_Z (Qfloor (score st / 100)) * 5 else 0)
  = scrollSpeed (gameState st) (score st).
Proof. unfold scrollSpeed. destruct (gameState st); reflexivity. Qed.

Lemma updateObstacles_crash (delta : Q) (st : Game)
    (before : list Obstacle.t) (o : Obstacle.t) (rest : list Obstacle.t) :
  let dx := scrollSpeed (gameState st) (score st) * delta in
  levelObstacles st = before ++ o :: rest ->
  Forall (fun b => ~ hitbox_overlaps (player st) (scroll_by dx b)) before ->
  hitbox_overlaps (player st) (scroll_by dx o) ->
  updateObstacles delta st
  = resetGame
      (set_levelObstacles
         ((scroll_by dx <$> before) ++ scroll_by dx o :: rest) st).
Proof.
  intros dx Hobs Hclear Hhit. unfold updateObstacles.
  rewrite scroll_is_scrollSpeed. fold dx. rewrite Hobs.
  rewrite (scanLoop_crash _ _ _ _ _ _ before [] o rest false).
  - reflexivity.
  - eapply Forall_impl; [exact Hclear|]. intros b Hb. by apply hit_clear.
  - by apply hit_overlaps.
Qed.

Lemma updateObstacles_clear (delta : Q) (st : Game) :
  let dx := scrollSpeed (gameState st) (score st) * delta in
  Forall (fun b => ~ hitbox_overlaps (player st) (scroll_by dx b))
    (levelObstacles st) ->
  updateObstacles delta st
  = afterScan
      (match last (levelObstacles st) with
       | Some l =>
         GameState_eqb (gameState st) LEVEL
         && Qlt_bool (Obstacle.x (scroll_by dx l))
              (- Obstacle.width (scroll_by dx l))
       | None => false
       end)
      (set_levelObstacles (scroll_by dx <$> levelObstacles st) st).
Proof.
  intros dx Hclear. unfold updateObstacles.
  rewrite scroll_is_scrollSpeed. fold dx.
  rewrite (scanLoop_clear _ _ _ _ _ _ (levelObstacles st) [] false).
  - unfold afterScan. cbn [app].
    destruct (last (levelObstacles st)) as [l|]; [|reflexivity].
    destruct (_ && _); reflexivity.
  - eapply Forall_impl; [exact Hclear|]. intros b Hb. by apply hit_clear.
Qed.

(** ** The frame callback *)

Lemma gameLoop_play (t : Q) (st : Game) :
  gameState st = LEVEL \/ gameState st = INFINITE ->
  let delta := (t - lastTime st) / 1000 in
  let s := updateGame delta (set_lastTime t st) in
  gameLoop t st
  = if GameState_eqb (gameState s) LEVEL then s else updateScore delta s.
Proof.
  intros Hmode. unfold gameLoop. cbn [gameState set_lastTime].
  destruct Hmode as [-> | ->]; reflexivity.
Qed.

Lemma gameLoop_idle (t : Q) (st : Game) :
  gameState st <> LEVEL -> gameState st <> INFINITE ->
  gameLoop t st = set_lastTime t st.
Proof.
  intros H1 H2. unfold gameLoop. cbn [gameState set_lastTime].
  destruct (gameState st); congruence.
Qed.

(** C1.  On a tick in LEVEL or INFINITE, after the physics step of the same
    tick has moved the player, the scroll speed is
    (mode = LEVEL ? 250 : 300) plus floor(score/100)*5 in INFINITE only, and
    the distance is speed*dt.  Obstacles are moved left in index order and
    each is tested against the shrunken hitbox with the strict test.  At the
    first overlap the state becomes GAME_OVER, with the mode before it as
    previous mode, zero vertical velocity and the player grounded; the
    obstacles behind the one hit are not moved, and the level is not
    completed.  When nothing overlaps, every obstacle is moved, unless the
    level is completed. *)
Theorem tick_scrolls_until_first_overlap (t : Q) (st : Game) :
  gameState st = LEVEL \/ gameState st = INFINITE ->
  let delta := (t - lastTime st) / 1000 in
  let dx := scrollSpeed (gameState st) (score st) * delta in
  let p := player (updatePlayer st) in
  let st' := gameLoop t st in
  (forall before o rest,
      levelObstacles st = before ++ o :: rest ->
      Forall (fun b => ~ hitbox_overlaps p (scroll_by dx b)) before ->
      hitbox_overlaps p (scroll_by dx o) ->
      gameState st' = GAME_OVER
      /\ previousGameState st' = gameState st
      /\ Player.velocityY (player st') = 0
      /\ Player.isGrounded (player st') = true
      /\ levelObstacles st'
         = (scroll_by dx <$> before) ++ scroll_by dx o :: rest
      /\ currentLevel st' = currentLevel st)
  /\ (Forall (fun b => ~ hitbox_overlaps p (scroll_by dx b))
        (levelObstacles st) ->
      gameState st' = gameState st
      /\ levelObstacles st' = scroll_by dx <$> levelObstacles st
      \/ gameState st = LEVEL /\ gameState st' = LEVEL_COMPLETE).
Proof.
  intros Hmode delta dx p st'. subst st'. rewrite gameLoop_play by exact Hmode.
  fold delta. unfold updateGame. split.
  - intros before o rest Hobs Hclear Hhit.
    rewrite (updateObstacles_crash delta _ before o rest);
      [|exact Hobs|exact Hclear|exact Hhit].
    cbn. repeat split.
  - intros Hclear.
    rewrite (updateObstacles_clear delta (updatePlayer (set_lastTime t st)))
      by exact Hclear.
    change (gameState (updatePlayer (set_lastTime t st))) with (gameState st).
    change (score (updatePlayer (set_lastTime t st))) with (score st).
    change (levelObstacles (updatePlayer (set_lastTime t st)))
      with (levelObstacles st).
    fold dx.
    set (s1 := set_levelObstacles _ _).
    set (done := match last (levelObstacles st) with
                 | Some l => _ | None => false end).
    assert (Hdone : done = true -> gameState st = LEVEL).
    { subst done. destruct (last (levelObstacles st)); [|discriminate].
      intros [E _]%andb_true_iff. by apply GameState_eqb_eq. }
    destruct done; cbn [afterScan].
    + right. split; [by apply Hdone|reflexivity].
    + left. destruct (GameState_eqb (gameState s1) LEVEL); split; reflexivity.
Qed.

Lemma tick_scrolls_until_first_overlap_witness :
  let st' := gameLoop 3232 levelOneState in
  gameState st' = GAME_OVER
  /\ previousGameState st' = gameState levelOneState
  /\ Player.velocityY (player st') = 0
  /\ Player.isGrounded (player st') = true
  /\ levelObstacles st'
     = (scroll_by
          (scrollSpeed (gameState levelOneState) (score levelOneState)
           * ((3232 - lastTime levelOneState) / 1000))
        <$> [])
       ++ scroll_by
            (scrollSpeed (gameState levelOneState) (score levelOneState)
             * ((3232 - lastTime levelOneState) / 1000))
            (firstObstacle levelOneState)
          :: []
  /\ currentLevel st' = currentLevel levelOneState.
Proof.
  destruct (tick_scrolls_until_first_overlap 3232 levelOneState) as [Hcrash _].
  { left. vm_compute. reflexivity. }
  apply (Hcrash [] (firstObstacle levelOneState) []).
  - vm_compute. reflexivity.
  - constructor.
  - unfold hitbox_overlaps. repeat split; qlt_eval.
Defined.

Lemma scrollSpeed_level (s : Q) : scrollSpeed LEVEL s == 250.
Proof. unfold scrollSpeed. lra. Qed.

(** An obstacle that is out stays out under any scroll to the left, so the
    test after this tick's scroll also holds on the tick after the obstacle
    left the screen. *)
Lemma scrolled_out_stays (dx : Q) (o : Obstacle.t) :
  0 <= dx -> scrolled_out o -> scrolled_out (scroll_by dx o).
Proof. unfold scrolled_out, scroll_by. cbn. lra. Qed.

(** C2.  In LEVEL mode, on a tick whose scan hits nothing and moves the last
    obstacle to x < -width, the state becomes LEVEL_COMPLETE, currentLevel
    grows by exactly 1, the obstacle sequence is emptied and the player is
    back at the start, at rest.  The scan itself ran over every obstacle
    (each one is moved) and only raised the flag; the transition is applied
    to its outcome. *)
Theorem level_completes_after_full_scan (t : Q) (st : Game)
    (front : list Obstacle.t) (l : Obstacle.t) :
  gameState st = LEVEL ->
  levelObstacles st = front ++ [l] ->
  let delta := (t - lastTime st) / 1000 in
  let dx := scrollSpeed LEVEL (score st) * delta in
  let p := player (updatePlayer st) in
  Forall (fun b => ~ hitbox_overlaps p (scroll_by dx b)) (levelObstacles st) ->
  scrolled_out (scroll_by dx l) ->
  let st' := gameLoop t st in
  gameState st' = LEVEL_COMPLETE
  /\ currentLevel st' = S (currentLevel st)
  /\ levelObstacles st' = []
  /\ player_at_start st (player st')
  /\ scanLoop true dx
       (Player.x p + Player.width p * Player.hitboxOffsetX p)
       (Player.y p + Player.height p * Player.hitboxOffsetY p)
       (Player.width p * Player.hitboxWidthScale p)
       (Player.height p * Player.hitboxHeightScale p)
       (length (levelObstacles st)) 0 (levelObstacles st) false
     = Scanned (scroll_by dx <$> levelObstacles st) true.
Proof.
  intros Hmode Hobs delta dx p Hclear Hout st'. subst st'.
  assert (Hlast : last (levelObstacles st) = Some l).
  { rewrite Hobs. apply last_snoc. }
  apply Qlt_bool_iff in Hout.
  rewrite gameLoop_play by (left; exact Hmode). fold delta. unfold updateGame.
  rewrite (updateObstacles_clear delta (updatePlayer (set_lastTime t st))).
  2:{ change (gameState (updatePlayer (set_lastTime t st))) with (gameState st).
      rewrite Hmode. exact Hclear. }
  change (gameState (updatePlayer (set_lastTime t st))) with (gameState st).
  change (score (updatePlayer (set_lastTime t st))) with (score st).
  change (levelObstacles (updatePlayer (set_lastTime t st)))
    with (levelObstacles st).
  rewrite Hmode, Hlast. fold dx. rewrite Hout. cbn [GameState_eqb andb afterScan].
  split; [reflexivity|]. split; [reflexivity|]. split; [reflexivity|].
  split.
  - destruct (updatePlayer_keeps (set_lastTime t st)) as (_ & Hw & Hh).
    unfold player_at_start. cbn in Hw, Hh |- *. rewrite Hw, Hh.
    repeat split.
  - rewrite (scanLoop_clear _ _ _ _ _ _ (levelObstacles st) [] false).
    + rewrite Hlast, Hout. reflexivity.
    + eapply Forall_impl; [exact Hclear|]. intros b Hb. by apply hit_clear.
Qed.
Lemma level_completes_after_full_scan_witness :
  let st := levelOneState in
  let t := 4032 in
  let delta := (t - lastTime st) / 1000 in
  let dx := scrollSpeed LEVEL (score st) * delta in
  let p := player (updatePlayer st) in
  let st' := gameLoop t st in
  gameState st' = LEVEL_COMPLETE
  /\ currentLevel st' = S (currentLevel st)
  /\ levelObstacles st' = []
  /\ player_at_start st (player st')
  /\ scanLoop true dx
       (Player.x p + Player.width p * Player.hitboxOffsetX p)
       (Player.y p + Player.height p * Player.hitboxOffsetY p)
       (Player.width p * Player.hitboxWidthScale p)
       (Player.height p * Player.hitboxHeightScale p)
       (length (levelObstacles st)) 0 (levelObstacles st) false
     = Scanned (scroll_by dx <$> levelObstacles st) true.
Proof.
  refine (level_completes_after_full_scan 4032 levelOneState []
            (firstObstacle levelOneState) _ _ _ _).
  - vm_compute; reflexivity.
  - vm_compute; reflexivity.
  - replace (levelObstacles levelOneState)
      with [firstObstacle levelOneState] by (vm_compute; reflexivity).
    constructor; [|constructor].
    unfold hitbox_overlaps. intros (H & _). qlt_absurd H.
  - unfold scrolled_out. qlt_eval.
Defined.

(** ** The crash *)








(** ** The generator *)

Lemma uniformRandom_0 (hi r : Q) : uniformRandom 0 hi r == r * hi.
Proof. unfold uniformRandom. ring. Qed.

Lemma spec_gap_bounds (pw d r : Q) :
  40 <= spec_gap pw d r /\ 420 - d * 60 + r * 100 <= spec_gap pw d r
  /\ pw * 1.6 <= spec_gap pw d r.
Proof.
  unfold spec_gap. rewrite uniformRandom_0.
  pose proof (Q.le_max_l (Qmax (pw * 1.6) 40) (420 - d * 60 + r * 100)).
  pose proof (Q.le_max_r (Qmax (pw * 1.6) 40) (420 - d * 60 + r * 100)).
  pose proof (Q.le_max_l (pw * 1.6) 40).
  pose proof (Q.le_max_r (pw * 1.6) 40).
  repeat split; lra.
Qed.

Lemma spec_width_cases (pw ph d r : Q) :
  spec_width pw ph d r == pw * 2.4
  \/ spec_width pw ph d r == ph * 1.05 * 0.6 + d * 8 + r * 18.
Proof.
  unfold spec_width. rewrite uniformRandom_0.
  destruct (Q.min_dec (pw * 2.4) (ph * 1.05 * 0.6 + d * 8 + r * 18)) as [E|E];
    rewrite E; [left|right]; reflexivity.
Qed.

(** Gap and width together move the cursor by at least 40 pixels. *)
Lemma spec_advance (pw ph d rg rw : Q) :
  0 <= pw -> 0 <= ph -> 0 <= rg -> 0 <= rw ->
  40 <= spec_gap pw d rg + spec_width pw ph d rw.
Proof.
  intros Hpw Hph Hrg Hrw.
  destruct (spec_gap_bounds pw d rg) as (G1 & G2 & _).
  destruct (spec_width_cases pw ph d rw) as [E|E]; rewrite E; lra.
Qed.

Section GenerateFacts.

Variable rnd : nat -> Q.
Variables pw ph d maxDist canvasHeight ground : Q.

Local Abbreviation loop :=
  (generateLoop rnd d maxDist (ph * 1.05) (ph * 2.0 + d * 4) (pw * 2.4)
     (Qmax (pw * 1.6) 40) canvasHeight ground).

Lemma loop_gap (r : Q) :
  Qmax (Qmax (pw * 1.6) 40) (420 - d * 60 + r * 100) == spec_gap pw d r.
Proof. unfold spec_gap. rewrite uniformRandom_0. reflexivity. Qed.

Lemma loop_width (r : Q) :
  Qmin (pw * 2.4) (ph * 1.05 * 0.6 + d * 8 + r * 18) == spec_width pw ph d r.
Proof. unfold spec_width. rewrite uniformRandom_0. reflexivity. Qed.

Lemma loop_height (r : Q) :
  (if Qlt_bool r 0.25 then ph * 2.0 + d * 4 + d * 6 else ph * 1.05)
  = spec_height ph d r.
Proof.
  unfold spec_height.
  destruct (Qlt_bool r 0.25) eqn:E; destruct (Qlt_le_dec r 0.25) as [L|L];
    try reflexivity.
  - apply Qlt_bool_iff in E. lra.
  - apply Qlt_bool_false_iff in E. lra.
Qed.

(** What the loop appends follows the placement rule and stops at the
    target. *)
Lemma generateLoop_placed (fuel : nat) :
  forall (k : nat) (x total : Q) (acc res : list Obstacle.t),
    loop fuel k x total acc = Some res ->
    exists new,
      res = acc ++ new
      /\ Placed rnd pw ph d (canvasHeight - ground) k x new
      /\ match new with
         | [] => ~ total < maxDist
         | _ :: _ => total < maxDist
         end
      /\ reaches maxDist new.
Proof.
  induction fuel as [|fuel IH]; intros k x total acc res Hrun;
    [discriminate|].
  cbn [generateLoop] in Hrun.
  destruct (Qlt_bool total maxDist) eqn:Hlt.
  - apply Qlt_bool_iff in Hlt.
    apply IH in Hrun as (new & -> & Hplaced & Hfirst & Hreach).
    eexists (_ :: new). split; [by rewrite <- (assoc_L (++))|].
    split; [|split; [exact Hlt|]].
    + constructor; cbn [Obstacle.x Obstacle.y Obstacle.width Obstacle.height].
      * rewrite loop_gap. reflexivity.
      * apply loop_width.
      * rewrite loop_height. reflexivity.
      * rewrite loop_height. reflexivity.
      * exact Hplaced.
    + cbn [reaches Obstacle.x Obstacle.width].
      destruct new; [exact Hfirst | split; [exact Hfirst | exact Hreach]].
  - apply Qlt_bool_false_iff in Hlt. injection Hrun as <-.
    exists []. rewrite (right_id_L [] (++)).
    repeat split; [constructor | exact Hlt].
Qed.

Lemma generateLoop_more_fuel (fuel : nat) :
  forall (fuel' k : nat) (x total : Q) (acc res : list Obstacle.t),
    (fuel <= fuel')%nat ->
    loop fuel k x total acc = Some res ->
    loop fuel' k x total acc = Some res.
Proof.
  induction fuel as [|fuel IH]; intros fuel' k x total acc res Hle Hrun;
    [discriminate|].
  destruct fuel' as [|fuel']; [lia|].
  cbn [generateLoop] in Hrun |- *.
  destruct (Qlt_bool total maxDist); [|exact Hrun].
  apply IH; [lia | exact Hrun].
Qed.

Hypothesis pw_nonneg : 0 <= pw.
Hypothesis ph_nonneg : 0 <= ph.
Hypothesis rnd_nonneg : forall k, 0 <= rnd k.

Lemma loop_advance (k : nat) (x : Q) :
  x + 40
  <= x + Qmax (Qmax (pw * 1.6) 40) (420 - d * 60 + rnd k * 100)
     + Qmin (pw * 2.4) (ph * 1.05 * 0.6 + d * 8 + rnd (k + 1) * 18).
Proof.
  rewrite loop_gap, loop_width.
  pose proof (spec_advance pw ph d (rnd k) (rnd (k + 1)) pw_nonneg ph_nonneg
                (rnd_nonneg k) (rnd_nonneg (k + 1)%nat)).
  lra.
Qed.

(** Once the cursor is the running total, [n] more rounds of 40 pixels
    bring it to the target. *)
Lemma generateLoop_total (n : nat) :
  forall (k : nat) (x : Q) (acc : list Obstacle.t),
    maxDist - x <= 40 * inject_Z (Z.of_nat n) ->
    exists res, loop (S n) k x x acc = Some res.
Proof.
  induction n as [|n IH]; intros k x acc Hfar; cbn [generateLoop].
  - destruct (Qlt_bool x maxDist) eqn:Hlt; [|eauto].
    apply Qlt_bool_iff in Hlt. change (inject_Z (Z.of_nat 0)) with 0 in Hfar.
    lra.
  - destruct (Qlt_bool x maxDist) eqn:Hlt; [|eauto].
    apply IH. pose proof (loop_advance k x) as Hadv.
    rewrite Nat2Z.inj_succ, <- Z.add_1_r, inject_Z_plus in Hfar.
    change (inject_Z 1) with 1 in Hfar. lra.
Qed.

Lemma generateLoop_total_start (n : nat) (x total : Q) :
  0 <= x ->
  maxDist <= 40 * inject_Z (Z.of_nat n) ->
  exists res, loop (S (S n)) 0 x total [] = Some res.
Proof.
  intros Hx Hfar. cbn [generateLoop].
  destruct (Qlt_bool total maxDist) eqn:Hlt; [|eauto].
  apply generateLoop_total. pose proof (loop_advance 0 x) as Hadv.
  cbn [Nat.add] in Hadv |- *. lra.
Qed.

End GenerateFacts.

Lemma generateObstacles_placed (fuel : nat) (rnd : nat -> Q)
    (isInfinite : bool) (st st' : Game) :
  generateObstacles fuel rnd isInfinite st = Some st' ->
  let d := spec_difficulty isInfinite (score st) (currentLevel st) in
  let target := spec_target isInfinite (currentLevel st) in
  st' = set_levelObstacles (levelObstacles st') st
  /\ Placed rnd (Player.width (player st)) (Player.height (player st)) d
       (canvas_height st - groundHeight st) 0 (canvas_width st * 0.6)
       (levelObstacles st')
  /\ reaches target (levelObstacles st')
  /\ (levelObstacles st' = [] <-> ~ 0 < target).
Proof.
  intros Hgen d target. unfold generateObstacles in Hgen.
  fold (spec_difficulty isInfinite (score st) (currentLevel st)) in Hgen.
  fold (spec_target isInfinite (currentLevel st)) in Hgen.
  fold d target in Hgen.
  destruct (generateLoop _ _ _ _ _ _ _ _ _ _ _ _ _ _) as [obs|] eqn:Hloop;
    [|discriminate].
  injection Hgen as <-. cbn [levelObstacles set_levelObstacles].
  apply generateLoop_placed in Hloop as (new & -> & Hplaced & Hfirst & Hreach).
  cbn [app]. split; [reflexivity|]. split; [exact Hplaced|].
  split; [exact Hreach|].
  destruct new; split; intros H; try congruence; contradiction.
Qed.

Lemma generateObstacles_more_fuel (fuel fuel' : nat) (rnd : nat -> Q)
    (isInfinite : bool) (st st' : Game) :
  (fuel <= fuel')%nat ->
  generateObstacles fuel rnd isInfinite st = Some st' ->
  generateObstacles fuel' rnd isInfinite st = Some st'.
Proof.
  intros Hle Hgen. unfold generateObstacles in Hgen |- *.
  destruct (generateLoop _ _ _ _ _ _ _ _ _ fuel _ _ _ _) as [obs|] eqn:Hloop;
    [|discriminate].
  by rewrite (generateLoop_more_fuel _ _ _ _ _ _ _ fuel fuel' _ _ _ _ _ Hle Hloop).
Qed.

Lemma ceiling_fuel (q : Q) :
  q <= 40 * inject_Z (Z.of_nat (Z.to_nat (Qceiling (q / 40)))).
Proof.
  pose proof (Qle_ceiling (q / 40)) as Hc.
  assert (Hz : inject_Z (Qceiling (q / 40))
               <= inject_Z (Z.of_nat (Z.to_nat (Qceiling (q / 40))))).
  { rewrite <- Zle_Qle. lia. }
  assert (Hq : q == 40 * (q / 40)) by (field).
  lra.
Qed.

Lemma generateObstacles_total (rnd : nat -> Q) (isInfinite : bool) (st : Game) :
  sizes_ok st -> (forall k, 0 <= rnd k) ->
  exists st',
    generateObstacles (enoughFuel isInfinite st) rnd isInfinite st = Some st'.
Proof.
  intros (Hpw & Hph & Hcw) Hrnd. unfold generateObstacles, enoughFuel.
  fold (spec_difficulty isInfinite (score st) (currentLevel st)).
  fold (spec_target isInfinite (currentLevel st)).
  set (target := spec_target _ _).
  destruct (generateLoop_total_start rnd (Player.width (player st))
              (Player.height (player st))
              (spec_difficulty isInfinite (score st) (currentLevel st))
              target (canvas_height st) (groundHeight st) Hpw Hph Hrnd
              (Z.to_nat (Qceiling (target / 40)))
              (canvas_width st * 0.6) 0) as [obs Hobs].
  - lra.
  - apply ceiling_fuel.
  - rewrite Hobs. eauto.
Qed.

(** Neighbours in a placed sequence: the right one starts a gap after the
    left one's right edge. *)
Lemma placed_adjacent (rnd : nat -> Q) (pw ph d g : Q)
    (k : nat) (c : Q) (obs : list Obstacle.t) :
  Placed rnd pw ph d g k c obs ->
  forall (i : nat) (a b : Obstacle.t),
    obs !! i = Some a -> obs !! S i = Some b ->
    Obstacle.x b
    == Obstacle.x a + Obstacle.width a + spec_gap pw d (rnd (k + 3 * S i)%nat)
    /\ Obstacle.width a == spec_width pw ph d (rnd (k + 3 * i + 1)%nat).
Proof.
  induction 1 as [|k c o obs Hx Hw Hh Hy Hrest IH]; intros i a b Ha Hb;
    [discriminate|].
  destruct i as [|i].
  - injection Ha as <-. cbn in Hb.
    inversion Hrest as [|k' c' o' obs' Hx' _ _ _ _]; subst; [discriminate|].
    injection Hb as <-.
    replace (k + 3 * 1)%nat with (k + 3)%nat by lia.
    replace (k + 3 * 0 + 1)%nat with (k + 1)%nat by lia.
    split; [exact Hx' | exact Hw].
  - cbn in Ha, Hb. destruct (IH i a b Ha Hb) as [E1 E2].
    replace (k + 3 * S (S i))%nat with (k + 3 + 3 * S i)%nat by lia.
    replace (k + 3 * S i + 1)%nat with (k + 3 + 3 * i + 1)%nat by lia.
    split; assumption.
Qed.

Lemma defined_default {A : Type} (o : option A) (dflt : A) :
  defined o = true -> o = Some (default dflt o).
Proof. destruct o; [reflexivity|discriminate]. Qed.

Lemma draws_ok_half : draws_ok half.
Proof. intros k. split; [qle_eval | qlt_eval]. Qed.

Lemma sizes_ok_init : sizes_ok (init 800 600).
Proof. repeat split; qle_eval. Qed.

(** C4.  Whatever the generator returns is placed by the formulas: the
    difficulty is 1 + floor(score/500)*0.2 in infinite mode and
    1 + (currentLevel-1)*0.15 in level mode, the target length in level mode
    is 800 + currentLevel*100, the cursor starts at viewportWidth*0.6, and
    each obstacle has gap = max(max(player.width*1.6, 40),
    420 - difficulty*60 + uniformRandom(0,100)), width =
    min(player.width*2.4, player.height*1.05*0.6 + difficulty*8 +
    uniformRandom(0,18)), height = (player.height*2.0 + difficulty*4) +
    difficulty*6 when its draw is below 0.25 and player.height*1.05
    otherwise, and y = groundLine - height; placement stops exactly when the
    cursor reaches the target.  On non-negative sizes and draws the generator
    does return, with the fuel of [enoughFuel] or more. *)
Theorem generator_places_by_the_formulas (rnd : nat -> Q) (isInfinite : bool)
    (st : Game) :
  let d := spec_difficulty isInfinite (score st) (currentLevel st) in
  let target := spec_target isInfinite (currentLevel st) in
  (forall fuel st',
      generateObstacles fuel rnd isInfinite st = Some st' ->
      st' = set_levelObstacles (levelObstacles st') st
      /\ Placed rnd (Player.width (player st)) (Player.height (player st)) d
           (canvas_height st - groundHeight st) 0 (canvas_width st * 0.6)
           (levelObstacles st')
      /\ reaches target (levelObstacles st')
      /\ (levelObstacles st' = [] <-> ~ 0 < target))
  /\ (sizes_ok st -> draws_ok rnd ->
      exists st', forall fuel,
        (enoughFuel isInfinite st <= fuel)%nat ->
        generateObstacles fuel rnd isInfinite st = Some st').
Proof.
  intros d target. split.
  - intros fuel st' Hgen. by apply (generateObstacles_placed fuel).
  - intros Hsizes Hdraws.
    destruct (generateObstacles_total rnd isInfinite st Hsizes) as [st' Hgen].
    { intros k. apply Hdraws. }
    exists st'. intros fuel Hle.
    by apply (generateObstacles_more_fuel (enoughFuel isInfinite st)).
Qed.

Lemma sizes_ok_levelFive : sizes_ok levelFiveStart.
Proof. repeat split; qle_eval. Qed.

Lemma generator_places_by_the_formulas_witness :
  Placed half (Player.width (player levelFiveStart))
    (Player.height (player levelFiveStart))
    (spec_difficulty false (score levelFiveStart) (currentLevel levelFiveStart))
    (canvas_height levelFiveStart - groundHeight levelFiveStart) 0
    (canvas_width levelFiveStart * 0.6) (levelObstacles levelFiveGenerated)
  /\ exists st', forall fuel,
       (enoughFuel false levelFiveStart <= fuel)%nat ->
       generateObstacles fuel half false levelFiveStart = Some st'.
Proof.
  assert (Hgen : generateObstacles 100 half false levelFiveStart
                 = Some levelFiveGenerated)
    by (apply defined_default; vm_compute; reflexivity).
  pose proof (generator_places_by_the_formulas half false levelFiveStart) as H.
  cbv zeta in H. destruct H as [Hplaced Htotal]. split.
  - exact (proj1 (proj2 (Hplaced 100%nat levelFiveGenerated Hgen))).
  - exact (Htotal sizes_ok_levelFive draws_ok_half).
Defined.

(** C5.  In every sequence the generator produces, whatever the draws in
    [0, 1), obstacles[i+1].x >= obstacles[i].x for all neighbours: the new
    obstacle's x is the previous right edge plus a positive gap.  The player's
    width and height are sizes, not negative. *)
Theorem generated_x_never_decreases (fuel : nat) (rnd : nat -> Q)
    (isInfinite : bool) (st st' : Game) :
  0 <= Player.width (player st) -> 0 <= Player.height (player st) ->
  draws_ok rnd ->
  generateObstacles fuel rnd isInfinite st = Some st' ->
  forall (i : nat) (a b : Obstacle.t),
    levelObstacles st' !! i = Some a ->
    levelObstacles st' !! S i = Some b ->
    Obstacle.x a <= Obstacle.x b
    /\ exists gap : Q,
         0 < gap /\ Obstacle.x b == Obstacle.x a + Obstacle.width a + gap.
Proof.
  intros Hpw Hph Hdraws Hgen i a b Ha Hb.
  apply generateObstacles_placed in Hgen as (_ & Hplaced & _).
  destruct (placed_adjacent _ _ _ _ _ _ _ _ Hplaced i a b Ha Hb) as [Hx Hw].
  set (d := spec_difficulty _ _ _) in *.
  pose proof (spec_advance (Player.width (player st))
                (Player.height (player st)) d
                (rnd (0 + 3 * S i)%nat) (rnd (0 + 3 * i + 1)%nat) Hpw Hph
                (proj1 (Hdraws _)) (proj1 (Hdraws _))) as Hadv.
  destruct (spec_gap_bounds (Player.width (player st)) d
              (rnd (0 + 3 * S i)%nat)) as (Hgap & _).
  split; [lra|]. eexists. split; [|exact Hx]. lra.
Qed.

Lemma generated_x_never_decreases_witness :
  let a := nthObstacle 0 levelFiveGenerated in
  let b := nthObstacle 1 levelFiveGenerated in
  Obstacle.x a <= Obstacle.x b
  /\ exists gap : Q,
       0 < gap /\ Obstacle.x b == Obstacle.x a + Obstacle.width a + gap.
Proof.
  refine (generated_x_never_decreases 100 half false levelFiveStart
            levelFiveGenerated _ _ draws_ok_half _ 0
            (nthObstacle 0 levelFiveGenerated)
            (nthObstacle 1 levelFiveGenerated) _ _).
  - qle_eval.
  - qle_eval.
  - apply defined_default. vm_compute. reflexivity.
  - apply defined_default. vm_compute. reflexivity.
  - apply defined_default. vm_compute. reflexivity.
Defined.

(** ** Retry *)

Lemma resetPlayerAndObstacles_at_start (st : Game) :
  player_at_start st (player (resetPlayerAndObstacles st)).
Proof. repeat split. Qed.

(** Generation in a state right after the reset, with enough fuel. *)
Lemma generate_after_reset (rnd : nat -> Q) (isInfinite : bool) (st : Game) :
  sizes_ok st -> draws_ok rnd ->
  let s := resetPlayerAndObstacles st in
  exists st',
    (forall fuel, (enoughFuel isInfinite st <= fuel)%nat ->
                  generateObstacles fuel rnd isInfinite s = Some st')
    /\ st' = set_levelObstacles (levelObstacles st') s
    /\ Placed rnd (Player.width (player st)) (Player.height (player st))
         (spec_difficulty isInfinite (score st) (currentLevel st))
         (canvas_height st - groundHeight st) 0 (canvas_width st * 0.6)
         (levelObstacles st')
    /\ reaches (spec_target isInfinite (currentLevel st)) (levelObstacles st').
Proof.
  intros Hsizes Hdraws s.
  destruct (generateObstacles_total rnd isInfinite s) as [st' Hgen].
  { exact Hsizes. }
  { intros k. apply Hdraws. }
  exists st'. split.
  - intros fuel Hle.
    by apply (generateObstacles_more_fuel (enoughFuel isInfinite s)).
  - apply generateObstacles_placed in Hgen as (Hframe & Hplaced & Hreach & _).
    split; [exact Hframe|]. split; [exact Hplaced | exact Hreach].
Qed.

(** The loop condition holds at the first test, in both modes: the generator
    never returns an empty list. *)
Lemma spec_target_pos (isInfinite : bool) (level : nat) :
  0 < spec_target isInfinite level.
Proof.
  unfold spec_target. destruct isInfinite; [reflexivity|].
  assert (0 <= inject_Z (Z.of_nat level)).
  { change 0 with (inject_Z 0). rewrite <- Zle_Qle. lia. }
  lra.
Qed.

Lemma generateObstacles_nonempty (fuel : nat) (rnd : nat -> Q)
    (isInfinite : bool) (st st' : Game) :
  generateObstacles fuel rnd isInfinite st = Some st' ->
  levelObstacles st' <> [].
Proof.
  intros Hgen E.
  destruct (generateObstacles_placed _ _ _ _ _ Hgen) as (_ & _ & _ & Hempty).
  apply Hempty in E. apply E, spec_target_pos.
Qed.

(** C6.  In GAME_OVER a click on Retry resets the player and starts the run
    again in the previous mode, with newly generated obstacles, at least one
    of them.  After a level run the obstacles are generated for the same
    level index, which stays as it was, and the mode becomes LEVEL.  After
    an infinite run the score is 0 before the obstacles are generated
    (difficulty is computed from score 0), and the mode becomes INFINITE. *)
Theorem retry_restarts_the_previous_run (rnd : nat -> Q) (x y : Q) (st : Game) :
  gameState st = GAME_OVER ->
  isButtonClicked (menuButtons st !! "gameOverMenu") x y = false ->
  isButtonClicked (menuButtons st !! "gameOverRetry") x y = true ->
  sizes_ok st -> draws_ok rnd ->
  (previousGameState st = LEVEL ->
   exists st',
     (forall fuel, (enoughFuel false st <= fuel)%nat ->
                   handleMouseDown fuel rnd x y st = Some st')
     /\ gameState st' = LEVEL
     /\ currentLevel st' = currentLevel st
     /\ score st' = score st
     /\ player_at_start st (player st')
     /\ Placed rnd (Player.width (player st)) (Player.height (player st))
          (spec_difficulty false (score st) (currentLevel st))
          (canvas_height st - groundHeight st) 0 (canvas_width st * 0.6)
          (levelObstacles st')
     /\ reaches (spec_target false (currentLevel st)) (levelObstacles st')
     /\ levelObstacles st' <> [])
  /\ (previousGameState st = INFINITE ->
      exists st',
        (forall fuel, (enoughFuel true st <= fuel)%nat ->
                      handleMouseDown fuel rnd x y st = Some st')
        /\ gameState st' = INFINITE
        /\ currentLevel st' = currentLevel st
        /\ score st' = 0
        /\ player_at_start st (player st')
        /\ Placed rnd (Player.width (player st)) (Player.height (player st))
             (spec_difficulty true 0 (currentLevel st))
             (canvas_height st - groundHeight st) 0 (canvas_width st * 0.6)
             (levelObstacles st')
        /\ reaches (spec_target true (currentLevel st)) (levelObstacles st')
        /\ levelObstacles st' <> []).
Proof.
  intros Hmode Hmenu Hretry Hsizes Hdraws. split; intros Hprev.
  - destruct (generate_after_reset rnd false st Hsizes Hdraws)
      as (st1 & Hgen & Hframe & Hplaced & Hreach).
    assert (Hne : levelObstacles st1 <> [])
      by exact (generateObstacles_nonempty _ _ _ _ _ (Hgen _ (le_n _))).
    exists (set_gameState LEVEL st1). split.
    + intros fuel Hle. unfold handleMouseDown.
      rewrite Hmode, Hmenu, Hretry.
      change (previousGameState (resetPlayerAndObstacles st))
        with (previousGameState st).
      rewrite Hprev. cbn [GameState_eqb]. by rewrite (Hgen fuel Hle).
    + rewrite Hframe. repeat split; try reflexivity; assumption.
  - assert (Hsizes0 : sizes_ok (set_score 0 st)) by exact Hsizes.
    destruct (generate_after_reset rnd true (set_score 0 st) Hsizes0 Hdraws)
      as (st1 & Hgen & Hframe & Hplaced & Hreach).
    assert (Hne : levelObstacles st1 <> [])
      by exact (generateObstacles_nonempty _ _ _ _ _ (Hgen _ (le_n _))).
    exists (set_gameState INFINITE st1). split.
    + intros fuel Hle. unfold handleMouseDown.
      rewrite Hmode, Hmenu, Hretry.
      change (previousGameState (resetPlayerAndObstacles st))
        with (previousGameState st).
      rewrite Hprev. cbn [GameState_eqb].
      change (set_score 0 (resetPlayerAndObstacles st))
        with (resetPlayerAndObstacles (set_score 0 st)).
      by rewrite (Hgen fuel Hle).
    + rewrite Hframe. repeat split; try reflexivity; assumption.
Qed.

Lemma sizes_ok_crashedState : sizes_ok crashedState.
Proof. repeat split; qle_eval. Qed.

Lemma sizes_ok_crashedInfinite : sizes_ok crashedInfinite.
Proof. repeat split; qle_eval. Qed.

Lemma retry_restarts_the_previous_run_witness :
  (exists st',
      (forall fuel, (enoughFuel false crashedState <= fuel)%nat ->
                    handleMouseDown fuel half 500 340 crashedState = Some st')
      /\ gameState st' = LEVEL
      /\ currentLevel st' = currentLevel crashedState
      /\ levelObstacles st' <> [])
  /\ (exists st',
         (forall fuel, (enoughFuel true crashedInfinite <= fuel)%nat ->
                       handleMouseDown fuel half 500 340 crashedInfinite
                       = Some st')
         /\ gameState st' = INFINITE
         /\ score st' = 0
         /\ levelObstacles st' <> []).
Proof.
  assert (L1 : gameState crashedState = GAME_OVER) by (vm_compute; reflexivity).
  assert (L2 : isButtonClicked (menuButtons crashedState !! "gameOverMenu")
                 500 340 = false) by (vm_compute; reflexivity).
  assert (L3 : isButtonClicked (menuButtons crashedState !! "gameOverRetry")
                 500 340 = true) by (vm_compute; reflexivity).
  assert (L4 : previousGameState crashedState = LEVEL)
    by (vm_compute; reflexivity).
  assert (I1 : gameState crashedInfinite = GAME_OVER)
    by (vm_compute; reflexivity).
  assert (I2 : isButtonClicked (menuButtons crashedInfinite !! "gameOverMenu")
                 500 340 = false) by (vm_compute; reflexivity).
  assert (I3 : isButtonClicked (menuButtons crashedInfinite !! "gameOverRetry")
                 500 340 = true) by (vm_compute; reflexivity).
  assert (I4 : previousGameState crashedInfinite = INFINITE)
    by (vm_compute; reflexivity).
  split.
  - destruct (proj1 (retry_restarts_the_previous_run half 500 340 crashedState
                       L1 L2 L3 sizes_ok_crashedState draws_ok_half) L4)
      as (st' & Hrun & Hmode & Hlevel & _ & _ & _ & _ & Hne).
    exists st'. split; [exact Hrun|]. split; [exact Hmode|].
    split; [exact Hlevel | exact Hne].
  - destruct (proj2 (retry_restarts_the_previous_run half 500 340
                       crashedInfinite I1 I2 I3 sizes_ok_crashedInfinite
                       draws_ok_half) I4)
      as (st' & Hrun & Hmode & _ & Hscore & _ & _ & _ & Hne).
    exists st'. split; [exact Hrun|]. split; [exact Hmode|].
    split; [exact Hscore | exact Hne].
Defined.

(** The specification's example: a crash on level 7, then Retry. *)
Example retry_on_level_seven :
  let st := set_currentLevel 7 crashedState in
  (fun s => (gameState s, currentLevel s, length (levelObstacles s)))
    <$> handleMouseDown 100 half 500 340 st
  = Some (LEVEL, 7%nat, 3%nat).
Proof. vm_compute. reflexivity. Qed.

(** ** The level index *)

Lemma scanLoop_flag (inLevel : bool) (dx pX pY pW pH : Q) (n : nat) :
  forall (i : nat) (obs obs' : list Obstacle.t) (ld : bool),
    scanLoop inLevel dx pX pY pW pH n i obs ld = Scanned obs' true ->
    ld = true \/ inLevel = true.
Proof.
  induction n as [|n IH]; intros i obs obs' ld Hscan; cbn [scanLoop] in Hscan.
  - injection Hscan as _ ->. by left.
  - destruct (obs !! i) as [o|]; [|injection Hscan as _ ->; by left].
    destruct (hit _ _ _ _ _); [discriminate|].
    apply IH in Hscan as [Hflag | Hin]; [|by right].
    destruct inLevel; [by right|]. cbn [andb] in Hflag. by left.
Qed.

(** The three ways [updateObstacles] can end. *)
Lemma updateObstacles_cases (delta : Q) (st : Game) :
  let st' := updateObstacles delta st in
  score st' = score st
  /\ (gameState st' = GAME_OVER /\ currentLevel st' = currentLevel st
      \/ gameState st' = gameState st /\ currentLevel st' = currentLevel st
      \/ gameState st = LEVEL /\ gameState st' = LEVEL_COMPLETE
         /\ currentLevel st' = S (currentLevel st)).
Proof.
  unfold updateObstacles.
  destruct (scanLoop _ _ _ _ _ _ _ _ _ _) as [obs|obs [|]] eqn:Hscan.
  - split; [reflexivity|]. left. split; reflexivity.
  - split; [reflexivity|]. right. right.
    apply scanLoop_flag in Hscan as [Hflag | Hin]; [discriminate|].
    apply GameState_eqb_eq in Hin. repeat split. exact Hin.
  - split; [reflexivity|]. right. left. split; reflexivity.
Qed.

Lemma updateObstacles_lastTime (delta : Q) (st : Game) :
  lastTime (updateObstacles delta st) = lastTime st.
Proof.
  unfold updateObstacles.
  destruct (scanLoop _ _ _ _ _ _ _ _ _ _) as [obs|obs [|]]; reflexivity.
Qed.

Lemma scored_or_not (b : bool) (delta : Q) (s : Game) :
  gameState (if b then s else updateScore delta s) = gameState s
  /\ currentLevel (if b then s else updateScore delta s) = currentLevel s.
Proof. destruct b; split; reflexivity. Qed.

Lemma gameLoop_level (t : Q) (st : Game) :
  let st' := gameLoop t st in
  currentLevel st' = currentLevel st
  \/ gameState st = LEVEL /\ gameState st' = LEVEL_COMPLETE
     /\ currentLevel st' = S (currentLevel st).
Proof.
  cbv zeta. unfold gameLoop. cbn [gameState set_lastTime].
  assert (Hplay :
    let s := updateGame ((t - lastTime st) / 1000) (set_lastTime t st) in
    let st' := if GameState_eqb (gameState s) LEVEL then s
               else updateScore ((t - lastTime st) / 1000) s in
    currentLevel st' = currentLevel st
    \/ gameState st = LEVEL /\ gameState st' = LEVEL_COMPLETE
       /\ currentLevel st' = S (currentLevel st)).
  { cbv zeta. unfold updateGame.
    destruct (updateObstacles_cases ((t - lastTime st) / 1000)
                (updatePlayer (set_lastTime t st)))
      as (_ & [[Hg Hl] | [[Hg Hl] | (Hs & Hg & Hl)]]);
      cbv zeta in Hg, Hl;
      set (s := updateObstacles _ _) in *.
    - left. rewrite Hg. exact Hl.
    - left. destruct (GameState_eqb (gameState s) LEVEL); exact Hl.
    - right. rewrite Hg. cbn [GameState_eqb updateScore set_score gameState
                              currentLevel].
      split; [exact Hs|]. split; [exact Hg | exact Hl]. }
  destruct (gameState st); try (by left); exact Hplay.
Qed.

Lemma generateObstacles_frame (fuel : nat) (rnd : nat -> Q) (isInfinite : bool)
    (st st' : Game) :
  generateObstacles fuel rnd isInfinite st = Some st' ->
  gameState st' = gameState st /\ currentLevel st' = currentLevel st
  /\ score st' = score st /\ player st' = player st.
Proof.
  intros Hgen. apply generateObstacles_placed in Hgen as (-> & _).
  repeat split.
Qed.

Lemma levelSelectLoop_level (fuel : nat) (rnd : nat -> Q) (x y : Q)
    (st : Game) (n : nat) :
  forall (i : nat) (st' : Game),
    levelSelectLoop fuel rnd x y n i st = Some st' ->
    st' = st
    \/ (i <= currentLevel st' < i + n)%nat
       /\ gameState st' = LEVEL
       /\ isButtonClicked
            (menuButtons st !! ("level_" +:+ pretty (currentLevel st'))) x y
          = true.
Proof.
  induction n as [|n IH]; intros i st' Hloop; cbn [levelSelectLoop] in Hloop.
  - injection Hloop as <-. by left.
  - destruct (isButtonClicked _ x y) eqn:Hclick.
    + destruct (generateObstacles _ _ _ _) as [s|] eqn:Hgen; [|discriminate].
      injection Hloop as <-.
      apply generateObstacles_frame in Hgen as (_ & Hl & _).
      right. cbn [currentLevel set_gameState gameState]. rewrite Hl.
      cbn. split; [lia|]. split; [reflexivity | exact Hclick].
    + apply IH in Hloop as [-> | (Hrange & Hrest)]; [by left|].
      right. split; [lia | exact Hrest].
Qed.

Lemma handleMouseDown_level (fuel : nat) (rnd : nat -> Q) (x y : Q)
    (st st' : Game) :
  handleMouseDown fuel rnd x y st = Some st' ->
  currentLevel st' = currentLevel st
  \/ gameState st = LEVEL_SELECT /\ gameState st' = LEVEL
     /\ (1 <= currentLevel st' <= 50)%nat
     /\ isButtonClicked
          (menuButtons st !! ("level_" +:+ pretty (currentLevel st'))) x y
        = true.
Proof.
  unfold handleMouseDown. intros Hclick.
  destruct (gameState st) eqn:Hmode;
    repeat match type of Hclick with
           | (if ?b then _ else _) = _ => destruct b
           | match generateObstacles ?f ?r ?i ?s with _ => _ end = _ =>
             let Hgen := fresh "Hgen" in
             destruct (generateObstacles f r i s) eqn:Hgen;
             [apply generateObstacles_frame in Hgen as (_ & Hgen & _)
             |discriminate]
           end;
    try (injection Hclick as <-; left;
         first [reflexivity | exact Hgen]).
  apply levelSelectLoop_level in Hclick as [-> | (Hrange & Hrest)];
    [by left|].
  right. split; [reflexivity|]. destruct Hrest as [Hg Hb].
  split; [exact Hg|]. split; [lia | exact Hb].
Qed.

Lemma handleMouseDown_mode (fuel : nat) (rnd : nat -> Q) (x y : Q)
    (st st' : Game) :
  handleMouseDown fuel rnd x y st = Some st' ->
  gameState st = LEVEL -> st' = st.
Proof.
  unfold handleMouseDown. intros Hclick Hmode. rewrite Hmode in Hclick.
  by injection Hclick.
Qed.

(** C7, amended.  An operation changes the level index in two cases only:
    a frame that completes the level in LEVEL mode advances it by exactly 1,
    and a click on level button N in LEVEL_SELECT sets it to N (1..50),
    lower or higher than before.  Frames, keys and resizes never lower it,
    and whenever LEVEL turns into LEVEL_COMPLETE it has advanced by exactly
    1. *)
Theorem level_index_moves_by_completion_or_selection (fuel : nat) (e : Event)
    (st st' : Game) :
  step fuel e st = Some st' ->
  (currentLevel st' = currentLevel st
   \/ (exists t, e = Frame t)
      /\ gameState st = LEVEL /\ gameState st' = LEVEL_COMPLETE
      /\ currentLevel st' = S (currentLevel st)
   \/ (exists rnd x y,
         e = MouseDown rnd x y
         /\ isButtonClicked
              (menuButtons st !! ("level_" +:+ pretty (currentLevel st'))) x y
            = true)
      /\ gameState st = LEVEL_SELECT /\ gameState st' = LEVEL
      /\ (1 <= currentLevel st' <= 50)%nat)
  /\ (gameState st = LEVEL -> gameState st' = LEVEL_COMPLETE ->
      currentLevel st' = S (currentLevel st)).
Proof.
  intros Hstep. destruct e as [w h | t | rnd x y | code]; cbn [step] in Hstep.
  - injection Hstep as <-. split; [by left|]. intros Hmode Hdone.
    change (gameState (resizeCanvas w h st)) with (gameState st) in Hdone.
    congruence.
  - injection Hstep as <-.
    destruct (gameLoop_level t st) as [Hsame | (Hmode & Hdone & Hup)].
    + split; [by left|]. intros Hmode Hdone.
      rewrite gameLoop_play in Hdone |- * by (by left).
      unfold updateGame in Hdone |- *. cbv zeta in Hdone |- *.
      rewrite (proj1 (scored_or_not _ _ _)) in Hdone. rewrite (proj2 (scored_or_not _ _ _)).
      destruct (updateObstacles_cases ((t - lastTime st) / 1000)
                  (updatePlayer (set_lastTime t st)))
        as (_ & [[Hg Hl] | [[Hg Hl] | (Hs & Hg & Hl)]]);
        cbv zeta in Hg, Hl; set (s := updateObstacles _ _) in *.
      * rewrite Hg in Hdone. discriminate Hdone.
      * change (gameState (updatePlayer (set_lastTime t st)))
          with (gameState st) in Hg.
        rewrite Hg, Hmode in Hdone. discriminate Hdone.
      * exact Hl.
    + split; [|intros _ _; exact Hup].
      right. left. split; [by exists t|]. by repeat split.
  - split.
    + apply handleMouseDown_level in Hstep as [Hsame | (Hm & Hg & Hr & Hb)];
        [by left|].
      right. right. split; [by exists rnd, x, y|].
      repeat split; try assumption; lia.
    + intros Hmode Hdone.
      rewrite (handleMouseDown_mode _ _ _ _ _ _ Hstep Hmode) in Hdone.
      congruence.
  - injection Hstep as <-.
    assert (Hkey : currentLevel (handleKeyInput code st) = currentLevel st
                   /\ gameState (handleKeyInput code st) = gameState st).
    { unfold handleKeyInput, jump.
      destruct (_ && _); [|by split].
      destruct (Player.isGrounded (player st)); by split. }
    destruct Hkey as [Hl Hg]. split; [by left|]. intros Hmode Hdone.
    congruence.
Qed.

Lemma level_index_moves_by_completion_or_selection_witness :
  currentLevel (gameLoop 4032 levelOneState) = S (currentLevel levelOneState).
Proof.
  assert (H1 : gameState levelOneState = LEVEL) by (vm_compute; reflexivity).
  assert (H2 : gameState (gameLoop 4032 levelOneState) = LEVEL_COMPLETE)
    by (vm_compute; reflexivity).
  exact (proj2 (level_index_moves_by_completion_or_selection 100
                  (Frame 4032) levelOneState (gameLoop 4032 levelOneState)
                  eq_refl) H1 H2).
Defined.

(** C7 as stated fails: after level 5 is cleared the index is 6, and on the
    selection screen a click on button 1 sets it to 1: the index goes down,
    and changes without a level completion. *)
Lemma level_index_counterexample_select_lower :
  run 100 levelFiveCleared (init 800 600) = Some selectingAgain
  /\ gameState selectingAgain = LEVEL_SELECT
  /\ currentLevel selectingAgain = 6%nat
  /\ step 100 (MouseDown half 90 160) selectingAgain = Some lowerLevelSelected
  /\ currentLevel lowerLevelSelected = 1%nat
  /\ (currentLevel lowerLevelSelected < currentLevel selectingAgain)%nat.
Proof.
  split; [apply run_after; vm_compute; reflexivity|].
  split; [vm_compute; reflexivity|].
  split; [vm_compute; reflexivity|].
  split.
  - transitivity (run 100 [MouseDown half 90 160] selectingAgain).
    + cbn [run]. by destruct (step _ _ _).
    + apply run_after. vm_compute. reflexivity.
  - split; [vm_compute; reflexivity|].
    apply Nat.ltb_lt. vm_compute. reflexivity.
Qed.

(** ** The score *)

Lemma updateGame_score (delta : Q) (st : Game) :
  score (updateGame delta st) = score st.
Proof.
  unfold updateGame.
  destruct (updateObstacles_cases delta (updatePlayer st)) as [Hs _].
  exact Hs.
Qed.

(** Outside LEVEL and INFINITE a frame leaves the score alone; so do keys,
    and clicks never raise it (they keep it or set it to 0). *)
Lemma gameLoop_idle_score (t : Q) (st : Game) :
  gameState st <> LEVEL -> gameState st <> INFINITE ->
  score (gameLoop t st) = score st.
Proof. intros H1 H2. by rewrite gameLoop_idle. Qed.

Lemma handleKeyInput_score (code : string) (st : Game) :
  score (handleKeyInput code st) = score st.
Proof.
  unfold handleKeyInput, jump. destruct (_ && _); [|reflexivity].
  by destruct (Player.isGrounded (player st)).
Qed.

(** A frame in INFINITE adds 250*dt. *)
Lemma gameLoop_infinite_score (t : Q) (st : Game) :
  gameState st = INFINITE ->
  score (gameLoop t st) = score st + 250 * ((t - lastTime st) / 1000).
Proof.
  intros Hmode. rewrite gameLoop_play by (by right). cbv zeta.
  set (delta := (t - lastTime st) / 1000).
  assert (Hnot : GameState_eqb (gameState (updateGame delta (set_lastTime t st)))
                   LEVEL = false).
  { unfold updateGame.
    destruct (updateObstacles_cases delta (updatePlayer (set_lastTime t st)))
      as (_ & [[Hg _] | [[Hg _] | (Hs & _)]]); cbv zeta in *.
    - by rewrite Hg.
    - rewrite Hg.
      change (gameState (updatePlayer (set_lastTime t st)))
        with (gameState st).
      by rewrite Hmode.
    - change (gameState (updatePlayer (set_lastTime t st)))
        with (gameState st) in Hs.
      congruence. }
  rewrite Hnot. unfold updateScore. cbn [score set_score].
  by rewrite updateGame_score.
Qed.

(** A frame in LEVEL that stays in LEVEL leaves the score alone; one that
    ends the level, by a crash or by completion, adds 250*dt. *)
Lemma gameLoop_level_score (t : Q) (st : Game) :
  gameState st = LEVEL ->
  (gameState (gameLoop t st) = LEVEL -> score (gameLoop t st) = score st)
  /\ (gameState (gameLoop t st) <> LEVEL ->
      score (gameLoop t st) = score st + 250 * ((t - lastTime st) / 1000)).
Proof.
  intros Hmode. rewrite gameLoop_play by (by left). cbv zeta.
  set (delta := (t - lastTime st) / 1000).
  set (s := updateGame delta (set_lastTime t st)).
  assert (Hs : score s = score st) by (unfold s; by rewrite updateGame_score).
  destruct (GameState_eqb (gameState s) LEVEL) eqn:E.
  - apply GameState_eqb_eq in E. split; [by intros _|]. intros Hne. congruence.
  - split.
    + intros Hl. change (gameState (updateScore delta s)) with (gameState s) in Hl.
      apply GameState_eqb_eq in Hl. congruence.
    + intros _. unfold updateScore. cbn [score set_score]. by rewrite Hs.
Qed.

(** Frames that stay in INFINITE add 250 per second: over frames spanning
    exactly 2 seconds, exactly 500. *)
Lemma infinite_run_score (ts : list Q) :
  forall st : Game,
    gameState st = INFINITE ->
    Forall (fun s => gameState s = INFINITE) (frames ts st) ->
    score (default st (last (frames ts st)))
    == score st + 250 * elapsed ts (lastTime st).
Proof.
  induction ts as [|t ts IH]; intros st Hmode Hrun; cbn [frames elapsed].
  - cbn. ring.
  - cbn [frames] in Hrun. apply Forall_cons in Hrun as [Hfirst Hrest].
    specialize (IH (gameLoop t st) Hfirst Hrest).
    assert (Hlast : default st (last (gameLoop t st :: frames ts (gameLoop t st)))
                    = default (gameLoop t st) (last (frames ts (gameLoop t st)))).
    { destruct (frames ts (gameLoop t st)) as [|s l] eqn:E; [reflexivity|].
      rewrite last_cons_cons. destruct (last (s :: l)) eqn:E'; [reflexivity|].
      by apply last_None in E'. }
    rewrite Hlast, IH, gameLoop_infinite_score by exact Hmode.
    assert (Ht : lastTime (gameLoop t st) = t).
    { rewrite gameLoop_play by (by right). cbv zeta.
      destruct (GameState_eqb _ _); cbn [updateScore set_score lastTime];
        unfold updateGame; by rewrite updateObstacles_lastTime. }
    rewrite Ht. ring.
Qed.

Lemma infinite_two_seconds (ts : list Q) (st : Game) :
  gameState st = INFINITE ->
  Forall (fun s => gameState s = INFINITE) (frames ts st) ->
  elapsed ts (lastTime st) == 2 ->
  score (default st (last (frames ts st))) == score st + 500.
Proof.
  intros Hmode Hrun Htime.
  rewrite infinite_run_score, Htime by assumption. ring.
Qed.

(** C8.  The claim: the score grows only in INFINITE, by 250*dt per tick
    (500 over ticks spanning 2 s), and never in any other state.  The code
    does add 250*dt on every INFINITE tick ([infinite_run_score]), but it
    also adds it on the tick that ends a level run.  Level 1 is entered with
    score 0; the frame 3.2 s later crashes into the obstacle, and the score
    is 800 in GAME_OVER; the frame 4 s later instead completes the level,
    and the score is 1000 in LEVEL_COMPLETE. *)
Theorem score_grows_on_the_tick_that_ends_a_level :
  run 100 levelOneTrace (init 800 600) = Some levelOneState
  /\ gameState levelOneState = LEVEL
  /\ score levelOneState == 0
  /\ gameState (gameLoop 3232 levelOneState) = GAME_OVER
  /\ previousGameState (gameLoop 3232 levelOneState) = LEVEL
  /\ score (gameLoop 3232 levelOneState) == 800
  /\ gameState (gameLoop 4032 levelOneState) = LEVEL_COMPLETE
  /\ score (gameLoop 4032 levelOneState) == 1000.
Proof.
  split; [apply run_after; vm_compute; reflexivity|].
  split; [vm_compute; reflexivity|].
  split; [qeq_eval|].
  split; [vm_compute; reflexivity|].
  split; [vm_compute; reflexivity|].
  split; [qeq_eval|].
  split; [vm_compute; reflexivity|].
  qeq_eval.
Qed.

(** ** Sizes along a run *)

(** Only a resize changes the sizes the generator reads. *)
Lemma step_keeps_sizes (fuel : nat) (e : Event) (st st' : Game) :
  step fuel e st = Some st' ->
  (exists w h, e = Resize w h)
  \/ Player.width (player st') = Player.width (player st)
     /\ Player.height (player st') = Player.height (player st)
     /\ canvas_width st' = canvas_width st.
Proof.
  intros Hstep. destruct e as [w h | t | rnd x y | code]; cbn [step] in Hstep.
  - left. by exists w, h.
  - right. injection Hstep as <-. unfold gameLoop.
    cbn [gameState set_lastTime].
    assert (Hplay : forall delta,
      let s := updateGame delta (set_lastTime t st) in
      Player.width (player s) = Player.width (player st)
      /\ Player.height (player s) = Player.height (player st)
      /\ canvas_width s = canvas_width st).
    { intros delta. cbv zeta. unfold updateGame, updateObstacles.
      destruct (updatePlayer_keeps (set_lastTime t st)) as (_ & Hw & Hh).
      destruct (scanLoop _ _ _ _ _ _ _ _ _ _) as [obs|obs [|]];
        cbn in Hw, Hh |- *; rewrite ?Hw, ?Hh; repeat split. }
    destruct (gameState st); try (repeat split; fail);
      (destruct (GameState_eqb _ _); apply Hplay).
  - right.
    assert (Hloop : forall n i s,
      levelSelectLoop fuel rnd x y n i st = Some s ->
      player s = player st /\ canvas_width s = canvas_width st
      \/ Player.width (player s) = Player.width (player st)
         /\ Player.height (player s) = Player.height (player st)
         /\ canvas_width s = canvas_width st).
    { induction n as [|n IH]; intros i s Hs; cbn [levelSelectLoop] in Hs.
      - injection Hs as <-. left. by split.
      - destruct (isButtonClicked _ x y); [|exact (IH (S i) s Hs)].
        destruct (generateObstacles _ _ _ _) as [g|] eqn:Hgen; [|discriminate].
        injection Hs as <-.
        apply generateObstacles_placed in Hgen as (-> & _).
        right. repeat split. }
    unfold handleMouseDown in Hstep.
    destruct (gameState st) eqn:Hmode;
      repeat match type of Hstep with
             | (if ?b then _ else _) = _ => destruct b
             | match generateObstacles ?f ?r ?i ?s with _ => _ end = _ =>
               let Hgen := fresh "Hgen" in
               destruct (generateObstacles f r i s) eqn:Hgen;
               [apply generateObstacles_placed in Hgen as (Hgen & _)
               |discriminate]
             end;
      try (injection Hstep as <-; try rewrite Hgen; repeat split; fail).
    apply Hloop in Hstep as [[-> ->] | H]; [repeat split | exact H].
  - right. injection Hstep as <-. unfold handleKeyInput, jump.
    destruct (_ && _); [|repeat split].
    destruct (Player.isGrounded (player st)); repeat split.
Qed.

Lemma sizes_ok_resize (w h : Q) (st : Game) :
  0 <= w -> 0 <= h -> sizes_ok (resizeCanvas w h st).
Proof.
  intros Hw Hh. unfold sizes_ok.
  destruct (resizeCanvas_geometry w h st)
    as (_ & Hph & Hpw & _ & _ & _ & _ & _ & Hcw & _).
  cbv zeta in Hph, Hpw. rewrite Hpw, Hph, Hcw. repeat split; lra.
Qed.

(** From start-up on, with viewport sizes that are not negative, the sizes
    stay non-negative. *)
Lemma sizes_ok_step (fuel : nat) (e : Event) (st st' : Game) :
  (forall w h, e = Resize w h -> 0 <= w /\ 0 <= h) ->
  sizes_ok st -> step fuel e st = Some st' -> sizes_ok st'.
Proof.
  intros Hview Hok Hstep.
  destruct (step_keeps_sizes fuel e st st' Hstep) as [(w & h & ->) | (Hw & Hh & Hc)].
  - cbn [step] in Hstep. injection Hstep as <-.
    destruct (Hview w h eq_refl). by apply sizes_ok_resize.
  - unfold sizes_ok. by rewrite Hw, Hh, Hc.
Qed.

(** ** The button table *)

Lemma isButtonClicked_inside (b : Button.t) (x y : Q) :
  isButtonClicked (Some b) x y = true <-> inside b x y.
Proof.
  unfold isButtonClicked, inside.
  rewrite !andb_true_iff, !Qle_bool_iff. tauto.
Qed.

Lemma level_key_other (k : string) (i : nat) :
  (forall s, k <> "level_" +:+ s) -> "level_" +:+ pretty i <> k.
Proof. intros Hk E. by apply (Hk (pretty i)). Qed.

Lemma level_key_inj (i j : nat) :
  "level_" +:+ pretty i = "level_" +:+ pretty j -> i = j.
Proof.
  intros E. cbn in E. injection E as E. by apply (inj pretty).
Qed.

(** The loop writes the keys [level_i] .. [level_(i+n-1)] and no other. *)
Lemma levelButtonsLoop_lookup_other (sx sy bw bh pad : Q) (cols n : nat)
    (k : string) :
  forall (i : nat) (m : gmap string Button.t),
    (forall j, (i <= j < i + n)%nat -> "level_" +:+ pretty j <> k) ->
    levelButtonsLoop sx sy bw bh pad cols n i m !! k = m !! k.
Proof.
  induction n as [|n IH]; intros i m Hk; cbn [levelButtonsLoop]; [reflexivity|].
  rewrite IH by (intros j Hj; apply Hk; lia).
  apply lookup_insert_ne. apply Hk. lia.
Qed.

Lemma levelButtonsLoop_lookup (sx sy bw bh pad : Q) (cols n : nat) :
  forall (i j : nat) (m : gmap string Button.t),
    (i <= j < i + n)%nat ->
    levelButtonsLoop sx sy bw bh pad cols n i m !! ("level_" +:+ pretty j)
    = Some (Button.mk
              (sx + inject_Z (Z.of_nat ((j - 1) mod cols)) * (bw + pad))
              (sy + inject_Z (Z.of_nat ((j - 1) / cols)) * (bh + pad))
              bw bh (pretty j)).
Proof.
  induction n as [|n IH]; intros i j m Hj; [lia|]. cbn [levelButtonsLoop].
  destruct (decide (j = i)) as [->|Hne].
  - rewrite levelButtonsLoop_lookup_other.
    + apply lookup_insert_eq.
    + intros j Hj' E. apply level_key_inj in E. lia.
  - apply IH. lia.
Qed.

(** The table after a layout: the seven named buttons and the fifty level
    buttons, whatever was in it before. *)
Lemma layout_named_buttons (st : Game) :
  let m := menuButtons (updateMenuButtonPositions st) in
  let w := canvas_width st in
  let h := canvas_height st in
  m !! "levels" = Some (Button.mk (w/2 - 150) (h/2 + 30) 140 40 "Levels")
  /\ m !! "infinite" = Some (Button.mk (w/2 + 10) (h/2 + 30) 140 40 "Infinite")
  /\ m !! "back" = Some (Button.mk 20 20 100 30 "Back")
  /\ m !! "gameOverMenu"
     = Some (Button.mk (w/2 - 200 - 20/2) (h/2 + 20) 200 50 "Return to Menu")
  /\ m !! "gameOverRetry"
     = Some (Button.mk (w/2 + 20/2) (h/2 + 20) 200 50 "Retry Level")
  /\ m !! "levelCompleteMenu"
     = Some (Button.mk (w/2 - 200 - 20/2) (h/2 + 20) 200 50 "Return to Menu")
  /\ m !! "levelCompleteLevels"
     = Some (Button.mk (w/2 + 20/2) (h/2 + 20) 200 50 "Select Level").
Proof.
  cbv zeta. unfold updateMenuButtonPositions.
  cbn [menuButtons set_menuButtons].
  repeat split;
    (rewrite levelButtonsLoop_lookup_other
       by (intros j _ E; cbn in E; discriminate E));
    repeat first [ apply lookup_insert_eq
                 | rewrite lookup_insert_ne by discriminate ].
Qed.

Lemma layout_level_button (st : Game) (i : nat) :
  (1 <= i <= 50)%nat ->
  menuButtons (updateMenuButtonPositions st) !! ("level_" +:+ pretty i)
  = Some (levelButton (canvas_width st) (canvas_height st) i).
Proof.
  intros Hi. unfold updateMenuButtonPositions.
  cbn [menuButtons set_menuButtons].
  rewrite levelButtonsLoop_lookup by lia. reflexivity.
Qed.

Lemma laid_out_resize (w h : Q) (st : Game) : laid_out (resizeCanvas w h st).
Proof.
  unfold laid_out, resizeCanvas.
  set (c := mkGame _ _ _ _ _ _ _ _ (menuButtons st) _ _).
  rewrite (updateMenuButtonPositions_frame c) at 1.
  apply updateMenuButtonPositions_twice.
Qed.

(** ** What only a resize changes *)

Lemma updatePlayer_constants (st : Game) :
  playerConstants (player (updatePlayer st)) = playerConstants (player st).
Proof.
  unfold updatePlayer, integrate, groundCollision, ceilingClamp.
  cbn [player set_player].
  repeat match goal with
         | |- context [if ?b then _ else _] => destruct b; cbn
         end; reflexivity.
Qed.

Lemma generateObstacles_geometry (fuel : nat) (rnd : nat -> Q)
    (isInfinite : bool) (st st' : Game) :
  generateObstacles fuel rnd isInfinite st = Some st' ->
  geometry st' = geometry st.
Proof.
  intros Hgen. apply generateObstacles_placed in Hgen as (-> & _).
  reflexivity.
Qed.

Lemma updateGame_geometry (delta : Q) (st : Game) :
  geometry (updateGame delta st) = geometry st.
Proof.
  unfold updateGame, updateObstacles, geometry.
  pose proof (updatePlayer_constants st) as Hc.
  destruct (scanLoop _ _ _ _ _ _ _ _ _ _) as [obs|obs [|]];
    cbn in Hc |- *; rewrite <- Hc; reflexivity.
Qed.

Lemma gameLoop_geometry (t : Q) (st : Game) :
  geometry (gameLoop t st) = geometry st.
Proof.
  unfold gameLoop. cbn [gameState set_lastTime].
  change (geometry st) with (geometry (set_lastTime t st)).
  destruct (gameState st); try reflexivity;
    (destruct (GameState_eqb _ _);
     [apply updateGame_geometry
     |change (geometry (updateScore ?d ?s)) with (geometry s);
      apply updateGame_geometry]).
Qed.

Lemma levelSelectLoop_geometry (fuel : nat) (rnd : nat -> Q) (x y : Q)
    (st : Game) (n : nat) :
  forall (i : nat) (s : Game),
    levelSelectLoop fuel rnd x y n i st = Some s -> geometry s = geometry st.
Proof.
  induction n as [|n IH]; intros i s Hs; cbn [levelSelectLoop] in Hs.
  - by injection Hs as <-.
  - destruct (isButtonClicked _ x y); [|exact (IH (S i) s Hs)].
    destruct (generateObstacles _ _ _ _) as [g|] eqn:Hgen; [|discriminate].
    injection Hs as <-. apply generateObstacles_geometry in Hgen.
    change (geometry (set_gameState LEVEL g)) with (geometry g).
    by rewrite Hgen.
Qed.

Lemma handleMouseDown_geometry (fuel : nat) (rnd : nat -> Q) (x y : Q)
    (st st' : Game) :
  handleMouseDown fuel rnd x y st = Some st' -> geometry st' = geometry st.
Proof.
  intros Hclick.
  pose proof (levelSelectLoop_geometry fuel rnd x y st 50 1 st') as Hloop.
  unfold handleMouseDown in Hclick.
  destruct (gameState st);
    repeat match type of Hclick with
           | (if ?b then _ else _) = _ => destruct b
           | match generateObstacles ?f ?r ?i ?s with _ => _ end = _ =>
             let Hgen := fresh "Hgen" in
             destruct (generateObstacles f r i s) eqn:Hgen;
             [apply generateObstacles_geometry in Hgen|discriminate]
           end;
    try (injection Hclick as <-;
         first [reflexivity
               | match goal with
                 | |- geometry (set_gameState ?m ?g) = _ =>
                   change (geometry (set_gameState m g)) with (geometry g)
                 end; by rewrite Hgen]).
  by apply Hloop.
Qed.

Lemma handleKeyInput_geometry (code : string) (st : Game) :
  geometry (handleKeyInput code st) = geometry st.
Proof.
  unfold handleKeyInput, jump. destruct (_ && _); [|reflexivity].
  by destruct (Player.isGrounded (player st)).
Qed.

(** ** Buttons of one screen *)

Lemma nat_lt_Q (a b : nat) :
  (a < b)%nat -> inject_Z (Z.of_nat a) + 1 <= inject_Z (Z.of_nat b).
Proof.
  intros Hab. change 1 with (inject_Z 1). rewrite <- inject_Z_plus.
  rewrite <- Zle_Qle. lia.
Qed.

Lemma levelButtons_disjoint (W H : Q) (i j : nat) (x y : Q) :
  i <> j -> (1 <= i)%nat -> (1 <= j)%nat ->
  inside (levelButton W H i) x y -> ~ inside (levelButton W H j) x y.
Proof.
  intros Hne Hi Hj [Hxi Hyi] [Hxj Hyj].
  unfold levelButton in *; cbn [Button.x Button.y Button.width Button.height] in *.
  assert (Hcase : ((i - 1) mod 10 < (j - 1) mod 10
                   \/ (j - 1) mod 10 < (i - 1) mod 10
                   \/ (i - 1) / 10 < (j - 1) / 10
                   \/ (j - 1) / 10 < (i - 1) / 10)%nat).
  { pose proof (Nat.div_mod_eq (i - 1) 10). pose proof (Nat.div_mod_eq (j - 1) 10).
    lia. }
  destruct Hcase as [Hc | [Hc | [Hc | Hc]]]; apply nat_lt_Q in Hc; lra.
Qed.

Lemma laid_out_level_button (st : Game) (i : nat) :
  laid_out st -> (1 <= i <= 50)%nat ->
  menuButtons st !! ("level_" +:+ pretty i)
  = Some (levelButton (canvas_width st) (canvas_height st) i).
Proof. intros Hl Hi. rewrite <- Hl. by apply layout_level_button. Qed.

(** X1.  In a laid-out table two buttons of one screen share a point only
    if they are Back and a level button on a small canvas.  Never: Levels and
    Infinite on the menu, Return to Menu and Retry on the crash screen,
    Return to Menu and Select Level on the completion screen, any two of the
    fifty level buttons, and, on a canvas more than 200 pixels high or more
    than 1200 pixels wide, Back and a level button.  Where Back and a level
    button do share a point, the order of the handler's tests decides: Back
    is tested first and the click leads to the menu. *)
Theorem buttons_overlap_only_under_back (st : Game) (x y : Q) :
  laid_out st ->
  let hit name := isButtonClicked (menuButtons st !! name) x y = true in
  ~ (hit "levels" /\ hit "infinite")
  /\ ~ (hit "gameOverMenu" /\ hit "gameOverRetry")
  /\ ~ (hit "levelCompleteMenu" /\ hit "levelCompleteLevels")
  /\ (forall i j : nat,
        (1 <= i <= 50)%nat -> (1 <= j <= 50)%nat -> i <> j ->
        ~ (hit ("level_" +:+ pretty i) /\ hit ("level_" +:+ pretty j)))
  /\ (200 < canvas_height st \/ 1200 < canvas_width st ->
      forall i : nat,
        (1 <= i <= 50)%nat -> ~ (hit "back" /\ hit ("level_" +:+ pretty i)))
  /\ (forall fuel rnd,
        gameState st = LEVEL_SELECT -> hit "back" ->
        handleMouseDown fuel rnd x y st = Some (set_gameState MENU st)).
Proof.
  intros Hl. cbv zeta.
  destruct (layout_named_buttons st)
    as (B1 & B2 & B3 & B4 & B5 & B6 & B7).
  cbv zeta in B1, B2, B3, B4, B5, B6, B7.
  rewrite Hl in B1, B2, B3, B4, B5, B6, B7.
  rewrite B1, B2, B3, B4, B5, B6, B7.
  split; [|split; [|split; [|split; [|split]]]].
  - rewrite !isButtonClicked_inside. unfold inside.
    cbn [Button.x Button.y Button.width Button.height].
    assert (Hc : 20 / 2 == 10) by reflexivity. set (c := 20 / 2) in *. lra.
  - rewrite !isButtonClicked_inside. unfold inside.
    cbn [Button.x Button.y Button.width Button.height].
    assert (Hc : 20 / 2 == 10) by reflexivity. set (c := 20 / 2) in *. lra.
  - rewrite !isButtonClicked_inside. unfold inside.
    cbn [Button.x Button.y Button.width Button.height].
    assert (Hc : 20 / 2 == 10) by reflexivity. set (c := 20 / 2) in *. lra.
  - intros i j Hi Hj Hne.
    rewrite (laid_out_level_button st i Hl Hi), (laid_out_level_button st j Hl Hj).
    rewrite !isButtonClicked_inside.
    intros [Hin Hjn].
    exact (levelButtons_disjoint _ _ i j x y Hne (proj1 Hi) (proj1 Hj) Hin Hjn).
  - intros Hbig i Hi. rewrite (laid_out_level_button st i Hl Hi).
    rewrite !isButtonClicked_inside. unfold inside, levelButton.
    cbn [Button.x Button.y Button.width Button.height].
    assert (Hcol : 0 <= inject_Z (Z.of_nat ((i - 1) mod 10))).
    { change 0 with (inject_Z 0). rewrite <- Zle_Qle. lia. }
    assert (Hrow : 0 <= inject_Z (Z.of_nat ((i - 1) / 10))).
    { change 0 with (inject_Z 0). rewrite <- Zle_Qle. lia. }
    set (col := inject_Z (Z.of_nat ((i - 1) mod 10))) in *.
    set (row := inject_Z (Z.of_nat ((i - 1) / 10))) in *.
    intros [[Hbx Hby] [Hlx Hly]]. destruct Hbig; nra.
  - intros fuel rnd Hmode Hback. unfold handleMouseDown.
    rewrite Hmode. cbv iota. rewrite B3, Hback. reflexivity.
Qed.

Lemma buttons_overlap_only_under_back_witness :
  (isButtonClicked (menuButtons smallSelectScreen !! "back") 40 30 = true
   /\ isButtonClicked
        (menuButtons smallSelectScreen !! ("level_" +:+ pretty 1%nat)) 40 30
      = true)
  /\ handleMouseDown 0 half 40 30 smallSelectScreen
     = Some (set_gameState MENU smallSelectScreen)
  /\ ~ (isButtonClicked
          (menuButtons smallSelectScreen !! ("level_" +:+ pretty 1%nat)) 40 30
        = true
        /\ isButtonClicked
             (menuButtons smallSelectScreen !! ("level_" +:+ pretty 2%nat))
             40 30
           = true).
Proof.
  assert (Hl : laid_out smallSelectScreen)
    by exact (laid_out_resize 300 100 globals).
  assert (Hb : isButtonClicked (menuButtons smallSelectScreen !! "back") 40 30
               = true) by (vm_compute; reflexivity).
  assert (H1 : isButtonClicked
                 (menuButtons smallSelectScreen !! ("level_" +:+ pretty 1%nat))
                 40 30 = true) by (vm_compute; reflexivity).
  assert (Hm : gameState smallSelectScreen = LEVEL_SELECT) by reflexivity.
  pose proof (buttons_overlap_only_under_back smallSelectScreen 40 30 Hl) as H.
  cbv zeta in H. destruct H as (_ & _ & _ & Hlev & _ & Hback).
  split; [split; assumption|].
  split; [exact (Hback 0%nat half Hm Hb)|].
  assert (I1 : (1 <= 1 <= 50)%nat) by lia.
  assert (I2 : (1 <= 2 <= 50)%nat) by lia.
  assert (I3 : 1%nat <> 2%nat) by lia.
  exact (Hlev 1%nat 2%nat I1 I2 I3).
Defined.

Lemma layout_depends (a b : Game) :
  canvas_width a = canvas_width b -> canvas_height a = canvas_height b ->
  menuButtons a = menuButtons b ->
  menuButtons (updateMenuButtonPositions a)
  = menuButtons (updateMenuButtonPositions b).
Proof.
  intros Hw Hh Hm. unfold updateMenuButtonPositions.
  cbn [menuButtons set_menuButtons]. by rewrite Hw, Hh, Hm.
Qed.

Lemma step_geometry (fuel : nat) (e : Event) (st st' : Game) :
  step fuel e st = Some st' ->
  (exists w h, e = Resize w h) \/ geometry st' = geometry st.
Proof.
  intros Hstep. destruct e as [w h | t | rnd x y | code]; cbn [step] in Hstep.
  - left. by exists w, h.
  - right. injection Hstep as <-. apply gameLoop_geometry.
  - right. by apply (handleMouseDown_geometry fuel rnd x y).
  - right. injection Hstep as <-. apply handleKeyInput_geometry.
Qed.

(** X2.  Only a resize writes the canvas size, the ground height, the button
    table and the player's size, physics constants and hitbox fractions: a
    frame, a click or a key leaves all of them as they are.  And the button
    table, once laid out for the canvas, stays laid out under every
    operation. *)
Theorem only_resize_changes_the_geometry (fuel : nat) (e : Event)
    (st st' : Game) :
  step fuel e st = Some st' ->
  ((forall w h, e <> Resize w h) -> geometry st' = geometry st)
  /\ (laid_out st -> laid_out st').
Proof.
  intros Hstep.
  destruct (step_geometry fuel e st st' Hstep) as [(w & h & ->) | Hgeo].
  - split; [intros Hno; by destruct (Hno w h)|]. intros _.
    cbn [step] in Hstep. injection Hstep as <-. apply laid_out_resize.
  - split; [by intros _|]. intros Hl. unfold laid_out.
    unfold geometry in Hgeo. injection Hgeo as Hw Hh _ Hm _.
    rewrite (layout_depends st' st Hw Hh Hm), Hm. exact Hl.
Qed.

Lemma only_resize_changes_the_geometry_witness :
  geometry (gameLoop 16 (init 800 600)) = geometry (init 800 600)
  /\ laid_out (gameLoop 16 (init 800 600)).
Proof.
  assert (Hno : forall w h : Q, Frame 16 <> Resize w h) by discriminate.
  pose proof (only_resize_changes_the_geometry 100 (Frame 16) (init 800 600)
                (gameLoop 16 (init 800 600)) eq_refl) as H.
  exact (conj (proj1 H Hno) (proj2 H (laid_out_resize 800 600 globals))).
Defined.

(** ** Clicks *)

Lemma levelSelectLoop_miss (fuel : nat) (rnd : nat -> Q) (x y : Q)
    (st : Game) (n : nat) :
  forall i : nat,
    (forall j, (i <= j < i + n)%nat ->
               isButtonClicked (menuButtons st !! ("level_" +:+ pretty j)) x y
               = false) ->
    levelSelectLoop fuel rnd x y n i st = Some st.
Proof.
  induction n as [|n IH]; intros i Hmiss; cbn [levelSelectLoop];
    [reflexivity|].
  rewrite Hmiss by lia. apply IH. intros j Hj. apply Hmiss. lia.
Qed.

Lemma levelSelectLoop_hit (fuel : nat) (rnd : nat -> Q) (x y : Q)
    (st : Game) (n : nat) :
  forall i k : nat,
    (i <= k < i + n)%nat ->
    (forall j, (i <= j < k)%nat ->
               isButtonClicked (menuButtons st !! ("level_" +:+ pretty j)) x y
               = false) ->
    isButtonClicked (menuButtons st !! ("level_" +:+ pretty k)) x y = true ->
    levelSelectLoop fuel rnd x y n i st
    = match generateObstacles fuel rnd false
              (resetPlayerAndObstacles (set_currentLevel k st)) with
      | Some s => Some (set_gameState LEVEL s)
      | None => None
      end.
Proof.
  induction n as [|n IH]; intros i k Hk Hmiss Hhit; [lia|].
  cbn [levelSelectLoop]. destruct (decide (k = i)) as [->|Hne].
  - by rewrite Hhit.
  - rewrite Hmiss by lia. apply IH; [lia| |exact Hhit].
    intros j Hj. apply Hmiss. lia.
Qed.

(** X3.  A click that lies in no button of the table is ignored in every
    state: the state stays as it is.  So is every click while the table is
    still empty, before the first layout, and every click during play. *)
Theorem click_outside_buttons_is_ignored (fuel : nat) (rnd : nat -> Q)
    (x y : Q) (st : Game) :
  ((forall name, isButtonClicked (menuButtons st !! name) x y = false) ->
   handleMouseDown fuel rnd x y st = Some st)
  /\ (menuButtons st = ∅ -> handleMouseDown fuel rnd x y st = Some st)
  /\ (gameState st = LEVEL \/ gameState st = INFINITE ->
      handleMouseDown fuel rnd x y st = Some st).
Proof.
  assert (Hmiss : (forall name,
                      isButtonClicked (menuButtons st !! name) x y = false) ->
                  handleMouseDown fuel rnd x y st = Some st).
  { intros Hno. unfold handleMouseDown.
    destruct (gameState st); rewrite ?Hno; try reflexivity.
    apply levelSelectLoop_miss. intros j _. apply Hno. }
  split; [exact Hmiss|]. split.
  - intros Hempty. apply Hmiss. intros name. by rewrite Hempty, lookup_empty.
  - intros [Hmode | Hmode]; unfold handleMouseDown; by rewrite Hmode.
Qed.

Lemma click_outside_buttons_is_ignored_witness :
  handleMouseDown 0 half 5 5 globals = Some globals
  /\ handleMouseDown 0 half 300 340 levelOneState = Some levelOneState.
Proof.
  pose proof (click_outside_buttons_is_ignored 0 half 5 5 globals) as H1.
  pose proof (click_outside_buttons_is_ignored 0 half 300 340 levelOneState)
    as H2.
  assert (Hmode : gameState levelOneState = LEVEL \/
                  gameState levelOneState = INFINITE)
    by (left; vm_compute; reflexivity).
  exact (conj (proj1 (proj2 H1) eq_refl) (proj2 (proj2 H2) Hmode)).
Defined.

(** X4.  On the selection screen a click inside level button [i] (and not
    on Back, which is tested first) starts that level: the mode becomes
    LEVEL, the level index becomes [i] whatever it was before, lower or
    higher, the player is at the start, and the obstacles are generated with
    level [i]'s difficulty and length, at least one of them.  The score is
    not touched. *)
Theorem level_button_starts_that_level (rnd : nat -> Q) (x y : Q) (st : Game)
    (i : nat) :
  gameState st = LEVEL_SELECT ->
  laid_out st ->
  (1 <= i <= 50)%nat ->
  isButtonClicked (menuButtons st !! "back") x y = false ->
  inside (levelButton (canvas_width st) (canvas_height st) i) x y ->
  sizes_ok st -> draws_ok rnd ->
  exists st',
    (forall fuel, (enoughFuel false (set_currentLevel i st) <= fuel)%nat ->
                  handleMouseDown fuel rnd x y st = Some st')
    /\ gameState st' = LEVEL
    /\ currentLevel st' = i
    /\ score st' = score st
    /\ player_at_start st (player st')
    /\ Placed rnd (Player.width (player st)) (Player.height (player st))
         (spec_difficulty false (score st) i)
         (canvas_height st - groundHeight st) 0 (canvas_width st * 0.6)
         (levelObstacles st')
    /\ reaches (spec_target false i) (levelObstacles st')
    /\ levelObstacles st' <> [].
Proof.
  intros Hmode Hl Hi Hback Hin Hsizes Hdraws.
  assert (Hsizes' : sizes_ok (set_currentLevel i st)) by exact Hsizes.
  destruct (generate_after_reset rnd false (set_currentLevel i st) Hsizes'
              Hdraws) as (st1 & Hgen & Hframe & Hplaced & Hreach).
  cbv zeta in Hgen.
  assert (Hne : levelObstacles st1 <> []).
  { destruct (generateObstacles_placed _ _ _ _ _
                (Hgen _ (le_n _))) as (_ & _ & _ & Hempty).
    intros E. apply Hempty in E. apply E.
    unfold spec_target.
    assert (0 <= inject_Z (Z.of_nat (currentLevel
              (resetPlayerAndObstacles (set_currentLevel i st))))).
    { change 0 with (inject_Z 0). rewrite <- Zle_Qle. lia. }
    lra. }
  exists (set_gameState LEVEL st1). split.
  - intros fuel Hle. unfold handleMouseDown. rewrite Hmode, Hback.
    rewrite (levelSelectLoop_hit fuel rnd x y st 50 1 i).
    + by rewrite (Hgen fuel Hle).
    + lia.
    + intros j Hj.
      rewrite laid_out_level_button by (exact Hl || lia).
      apply not_true_is_false. rewrite isButtonClicked_inside.
      apply (levelButtons_disjoint _ _ i j x y); [lia|lia|lia|exact Hin].
    + rewrite laid_out_level_button by assumption.
      by apply isButtonClicked_inside.
  - rewrite Hframe in Hne |- *.
    repeat split; try reflexivity; assumption.
Qed.

Lemma level_button_starts_that_level_witness :
  exists st',
    (forall fuel,
        (enoughFuel false (set_currentLevel 12 levelSelectScreen) <= fuel)%nat ->
        handleMouseDown fuel half 150 200 levelSelectScreen = Some st')
    /\ gameState st' = LEVEL
    /\ currentLevel st' = 12%nat.
Proof.
  assert (H1 : gameState levelSelectScreen = LEVEL_SELECT) by reflexivity.
  assert (H2 : laid_out levelSelectScreen) by exact (laid_out_resize 800 600 globals).
  assert (H3 : (1 <= 12 <= 50)%nat) by lia.
  assert (H4 : isButtonClicked (menuButtons levelSelectScreen !! "back")
                 150 200 = false) by (vm_compute; reflexivity).
  assert (H5 : inside (levelButton (canvas_width levelSelectScreen)
                         (canvas_height levelSelectScreen) 12) 150 200).
  { apply isButtonClicked_inside. vm_compute. reflexivity. }
  assert (H6 : sizes_ok levelSelectScreen) by exact sizes_ok_init.
  destruct (level_button_starts_that_level half 150 200 levelSelectScreen 12
              H1 H2 H3 H4 H5 H6 draws_ok_half)
    as (st' & Hrun & Hmode & Hlevel & _).
  exists st'. split; [exact Hrun|]. split; [exact Hmode | exact Hlevel].
Defined.

(** X5.  On the menu a click on Infinite (and not on Levels) starts an
    infinite run from nothing: the score is 0 whatever it was, so the
    difficulty the obstacles are generated with is 1, the player is at the
    start, and the level index is left alone. *)
Theorem infinite_button_starts_from_zero (rnd : nat -> Q) (x y : Q)
    (st : Game) :
  gameState st = MENU ->
  isButtonClicked (menuButtons st !! "levels") x y = false ->
  isButtonClicked (menuButtons st !! "infinite") x y = true ->
  sizes_ok st -> draws_ok rnd ->
  exists st',
    (forall fuel, (enoughFuel true st <= fuel)%nat ->
                  handleMouseDown fuel rnd x y st = Some st')
    /\ gameState st' = INFINITE
    /\ score st' = 0
    /\ currentLevel st' = currentLevel st
    /\ player_at_start st (player st')
    /\ spec_difficulty true (score st') (currentLevel st') == 1
    /\ Placed rnd (Player.width (player st)) (Player.height (player st))
         (spec_difficulty true 0 (currentLevel st))
         (canvas_height st - groundHeight st) 0 (canvas_width st * 0.6)
         (levelObstacles st')
    /\ levelObstacles st' <> [].
Proof.
  intros Hmode Hlevels Hinf Hsizes Hdraws.
  assert (Hsizes0 : sizes_ok (set_score 0 st)) by exact Hsizes.
  destruct (generate_after_reset rnd true (set_score 0 st) Hsizes0 Hdraws)
    as (st1 & Hgen & Hframe & Hplaced & Hreach).
  cbv zeta in Hgen.
  assert (Hne : levelObstacles st1 <> []).
  { destruct (generateObstacles_placed _ _ _ _ _
                (Hgen _ (le_n _))) as (_ & _ & _ & Hempty).
    intros E. apply Hempty in E. apply E. unfold spec_target. lra. }
  exists (set_gameState INFINITE st1). split.
  - intros fuel Hle. unfold handleMouseDown. rewrite Hmode, Hlevels, Hinf.
    by rewrite (Hgen fuel Hle).
  - rewrite Hframe in Hne |- *.
    repeat split; try reflexivity; assumption.
Qed.

Lemma infinite_button_starts_from_zero_witness :
  exists st',
    (forall fuel, (enoughFuel true (init 800 600) <= fuel)%nat ->
                  handleMouseDown fuel half 500 340 (init 800 600) = Some st')
    /\ gameState st' = INFINITE
    /\ score st' = 0.
Proof.
  assert (H1 : gameState (init 800 600) = MENU) by reflexivity.
  assert (H2 : isButtonClicked (menuButtons (init 800 600) !! "levels")
                 500 340 = false) by (vm_compute; reflexivity).
  assert (H3 : isButtonClicked (menuButtons (init 800 600) !! "infinite")
                 500 340 = true) by (vm_compute; reflexivity).
  destruct (infinite_button_starts_from_zero half 500 340 (init 800 600)
              H1 H2 H3 sizes_ok_init draws_ok_half)
    as (st' & Hrun & Hmode & Hscore & _).
  exists st'. split; [exact Hrun|]. split; [exact Hmode | exact Hscore].
Defined.

(** ** Modes *)

Lemma updateObstacles_modes (delta : Q) (st : Game) :
  let st' := updateObstacles delta st in
  gameState st' = GAME_OVER /\ previousGameState st' = gameState st
  \/ gameState st' = gameState st
     /\ previousGameState st' = previousGameState st
  \/ gameState st = LEVEL /\ gameState st' = LEVEL_COMPLETE
     /\ previousGameState st' = previousGameState st.
Proof.
  unfold updateObstacles.
  destruct (scanLoop _ _ _ _ _ _ _ _ _ _) as [obs|obs [|]] eqn:Hscan.
  - left. split; reflexivity.
  - right. right.
    apply scanLoop_flag in Hscan as [Hflag | Hin]; [discriminate|].
    apply GameState_eqb_eq in Hin. repeat split. exact Hin.
  - right. left. split; reflexivity.
Qed.

Lemma gameLoop_modes (t : Q) (st : Game) :
  let st' := gameLoop t st in
  gameState st' = gameState st
  /\ previousGameState st' = previousGameState st
  \/ (gameState st = LEVEL \/ gameState st = INFINITE)
     /\ gameState st' = GAME_OVER /\ previousGameState st' = gameState st
  \/ gameState st = LEVEL /\ gameState st' = LEVEL_COMPLETE
     /\ previousGameState st' = previousGameState st.
Proof.
  cbv zeta.
  assert (Hidle : gameState st <> LEVEL -> gameState st <> INFINITE ->
                  gameState (gameLoop t st) = gameState st
                  /\ previousGameState (gameLoop t st) = previousGameState st).
  { intros H1 H2. rewrite gameLoop_idle by assumption. by split. }
  assert (Hplay : gameState st = LEVEL \/ gameState st = INFINITE ->
    gameState (gameLoop t st) = gameState st
    /\ previousGameState (gameLoop t st) = previousGameState st
    \/ (gameState st = LEVEL \/ gameState st = INFINITE)
       /\ gameState (gameLoop t st) = GAME_OVER
       /\ previousGameState (gameLoop t st) = gameState st
    \/ gameState st = LEVEL /\ gameState (gameLoop t st) = LEVEL_COMPLETE
       /\ previousGameState (gameLoop t st) = previousGameState st).
  { intros Hmode. rewrite gameLoop_play by exact Hmode. cbv zeta.
    unfold updateGame.
    set (s := updateObstacles _ _).
    assert (Hs : forall b : bool,
               gameState (if b then s
                          else updateScore ((t - lastTime st) / 1000) s)
               = gameState s
               /\ previousGameState
                    (if b then s
                     else updateScore ((t - lastTime st) / 1000) s)
                  = previousGameState s) by (by intros []).
    destruct (Hs (GameState_eqb (gameState s) LEVEL)) as [-> ->].
    destruct (updateObstacles_modes ((t - lastTime st) / 1000)
                (updatePlayer (set_lastTime t st)))
      as [[Hg Hp] | [[Hg Hp] | (Hl & Hg & Hp)]]; cbv zeta in Hg, Hp;
      fold s in Hg, Hp.
    - right. left. split; [exact Hmode|]. split; [exact Hg | exact Hp].
    - left. split; [exact Hg | exact Hp].
    - right. right. split; [exact Hl|]. split; [exact Hg | exact Hp]. }
  destruct (gameState st) eqn:E;
    first [ left; apply Hidle; discriminate
          | apply Hplay; by (left + right) ].
Qed.

Lemma generateObstacles_modes (fuel : nat) (rnd : nat -> Q)
    (isInfinite : bool) (st st' : Game) :
  generateObstacles fuel rnd isInfinite st = Some st' ->
  gameState st' = gameState st
  /\ previousGameState st' = previousGameState st
  /\ lastTime st' = lastTime st
  /\ score st' = score st.
Proof.
  intros Hgen. apply generateObstacles_placed in Hgen as (-> & _).
  repeat split.
Qed.

Lemma levelSelectLoop_modes (fuel : nat) (rnd : nat -> Q) (x y : Q)
    (st : Game) (n : nat) :
  forall (i : nat) (s : Game),
    levelSelectLoop fuel rnd x y n i st = Some s ->
    (s = st \/ gameState s = LEVEL)
    /\ previousGameState s = previousGameState st
    /\ lastTime s = lastTime st
    /\ score s = score st.
Proof.
  induction n as [|n IH]; intros i s Hs; cbn [levelSelectLoop] in Hs.
  - injection Hs as <-. split; [by left|]. repeat split.
  - destruct (isButtonClicked _ x y); [|exact (IH (S i) s Hs)].
    destruct (generateObstacles _ _ _ _) as [g|] eqn:Hgen; [|discriminate].
    injection Hs as <-.
    apply generateObstacles_modes in Hgen as (_ & Hp & Ht & Hsc).
    split; [by right|]. cbn [previousGameState lastTime score set_gameState].
    rewrite Hp, Ht, Hsc. repeat split.
Qed.

(** What a click does to the mode, the remembered mode, the frame time and
    the score. *)
Lemma handleMouseDown_modes (fuel : nat) (rnd : nat -> Q) (x y : Q)
    (st st' : Game) :
  handleMouseDown fuel rnd x y st = Some st' ->
  may_follow (MouseDown rnd x y) st (gameState st')
  /\ previousGameState st' = previousGameState st
  /\ lastTime st' = lastTime st
  /\ (score st' = score st \/ score st' = 0).
Proof.
  intros Hclick.
  pose proof (levelSelectLoop_modes fuel rnd x y st 50 1 st') as Hloop.
  unfold may_follow. cbv zeta. unfold handleMouseDown in Hclick.
  destruct (gameState st) eqn:Hmode.
  - destruct (isButtonClicked _ x y).
    { injection Hclick as <-. split; [right; left; split; [reflexivity|by left]|].
      split; [reflexivity|]. split; [reflexivity|by left]. }
    destruct (isButtonClicked _ x y).
    + destruct (generateObstacles _ _ _ _) as [g|] eqn:Hgen; [|discriminate].
      injection Hclick as <-.
      apply generateObstacles_modes in Hgen as (_ & Hp & Ht & Hsc).
      split; [right; left; split; [reflexivity|by right]|].
      cbn [previousGameState lastTime score set_gameState].
      rewrite Hp, Ht, Hsc. split; [reflexivity|]. split; [reflexivity|by right].
    + injection Hclick as <-. rewrite Hmode. split; [by left|].
      split; [reflexivity|]. split; [reflexivity|by left].
  - destruct (isButtonClicked _ x y).
    { injection Hclick as <-.
      split; [right; right; left; split; [reflexivity|by left]|].
      split; [reflexivity|]. split; [reflexivity|by left]. }
    destruct (Hloop Hclick) as ([-> | Hg] & Hp & Ht & Hsc).
    + rewrite Hmode. split; [by left|]. split; [reflexivity|].
      split; [reflexivity|by left].
    + split; [right; right; left; split; [reflexivity|by right]|].
      split; [exact Hp|]. split; [exact Ht|by left].
  - injection Hclick as <-. rewrite Hmode. split; [by left|].
    split; [reflexivity|]. split; [reflexivity|by left].
  - injection Hclick as <-. rewrite Hmode. split; [by left|].
    split; [reflexivity|]. split; [reflexivity|by left].
  - destruct (isButtonClicked _ x y).
    { injection Hclick as <-.
      split; [right; right; right; left; split; [reflexivity|by left]|].
      split; [reflexivity|]. split; [reflexivity|by right]. }
    destruct (isButtonClicked _ x y).
    + change (previousGameState (resetPlayerAndObstacles st))
        with (previousGameState st) in Hclick.
      destruct (GameState_eqb (previousGameState st) INFINITE) eqn:Hprev;
        (destruct (generateObstacles _ _ _ _) as [g|] eqn:Hgen; [|discriminate]);
        injection Hclick as <-;
        apply generateObstacles_modes in Hgen as (_ & Hp & Ht & Hsc);
        cbn [previousGameState lastTime score set_gameState];
        rewrite Hp, Ht, Hsc.
      * apply GameState_eqb_eq in Hprev.
        split; [right; right; right; left; split; [reflexivity|]|].
        { right. left. by split. }
        split; [reflexivity|]. split; [reflexivity|by right].
      * assert (Hne : previousGameState st <> INFINITE).
        { intros E. apply GameState_eqb_eq in E. congruence. }
        split; [right; right; right; left; split; [reflexivity|]|].
        { right. right. by split. }
        split; [reflexivity|]. split; [reflexivity|by left].
    + injection Hclick as <-. rewrite Hmode. split; [by left|].
      split; [reflexivity|]. split; [reflexivity|by left].
  - destruct (isButtonClicked _ x y).
    { injection Hclick as <-.
      split; [right; right; right; right; split; [reflexivity|by left]|].
      split; [reflexivity|]. split; [reflexivity|by right]. }
    destruct (isButtonClicked _ x y); injection Hclick as <-.
    + split; [right; right; right; right; split; [reflexivity|by right]|].
      split; [reflexivity|]. split; [reflexivity|by left].
    + rewrite Hmode. split; [by left|].
      split; [reflexivity|]. split; [reflexivity|by left].
Qed.

Lemma handleKeyInput_modes (code : string) (st : Game) :
  gameState (handleKeyInput code st) = gameState st
  /\ previousGameState (handleKeyInput code st) = previousGameState st
  /\ lastTime (handleKeyInput code st) = lastTime st.
Proof.
  unfold handleKeyInput, jump. destruct (_ && _); [|by repeat split].
  destruct (Player.isGrounded (player st)); by repeat split.
Qed.

(** X6.  The mode graph.  A resize or a key never changes the mode.  A frame
    changes it only from LEVEL or INFINITE to GAME_OVER, or from LEVEL to
    LEVEL_COMPLETE.  A click changes it only from MENU to LEVEL_SELECT or
    INFINITE, from LEVEL_SELECT to MENU or LEVEL, from GAME_OVER to MENU or
    to the remembered mode (INFINITE if that is what is remembered, LEVEL
    otherwise), and from LEVEL_COMPLETE to MENU or LEVEL_SELECT.  So a run is
    never left by a click or a key, an infinite run is never completed, and
    no state leads to GAME_OVER or LEVEL_COMPLETE but a run. *)
Theorem modes_follow_the_graph (fuel : nat) (e : Event) (st st' : Game) :
  step fuel e st = Some st' ->
  may_follow e st (gameState st').
Proof.
  intros Hstep. destruct e as [w h | t | rnd x y | code]; cbn [step] in Hstep.
  - injection Hstep as <-. reflexivity.
  - injection Hstep as <-. unfold may_follow. cbv zeta.
    destruct (gameLoop_modes t st)
      as [[Hg _] | [(Hm & Hg & _) | (Hm & Hg & _)]]; cbv zeta in Hg.
    + by left.
    + right. left. by split.
    + right. right. by split.
  - by apply (handleMouseDown_modes fuel rnd x y st st').
  - injection Hstep as <-. unfold may_follow.
    by destruct (handleKeyInput_modes code st) as (-> & _).
Qed.

Lemma modes_follow_the_graph_witness :
  may_follow (Frame 3232) levelOneState (gameState (gameLoop 3232 levelOneState)).
Proof.
  exact (modes_follow_the_graph 100 (Frame 3232) levelOneState
           (gameLoop 3232 levelOneState) eq_refl).
Defined.

(** X7.  The remembered mode [previousGameState] is written by a crash only,
    and then it is the mode of the run that crashed.  Hence it is LEVEL or
    INFINITE at all times, and Retry always resumes a run. *)
Theorem remembered_mode_is_a_run_mode (fuel : nat) (e : Event)
    (st st' : Game) :
  step fuel e st = Some st' ->
  (previousGameState st' = previousGameState st
   \/ (exists t, e = Frame t)
      /\ (gameState st = LEVEL \/ gameState st = INFINITE)
      /\ gameState st' = GAME_OVER
      /\ previousGameState st' = gameState st)
  /\ (resumable st -> resumable st').
Proof.
  intros Hstep.
  assert (Hchange :
    previousGameState st' = previousGameState st
    \/ (exists t, e = Frame t)
       /\ (gameState st = LEVEL \/ gameState st = INFINITE)
       /\ gameState st' = GAME_OVER
       /\ previousGameState st' = gameState st).
  { destruct e as [w h | t | rnd x y | code]; cbn [step] in Hstep.
    - injection Hstep as <-. by left.
    - injection Hstep as <-.
      destruct (gameLoop_modes t st)
        as [[_ Hp] | [(Hm & Hg & Hp) | (_ & _ & Hp)]]; cbv zeta in *.
      + by left.
      + right. split; [by exists t|]. by repeat split.
      + by left.
    - left. by apply (handleMouseDown_modes fuel rnd x y st st').
    - injection Hstep as <-. left.
      by destruct (handleKeyInput_modes code st) as (_ & -> & _). }
  split; [exact Hchange|]. unfold resumable. intros Hres.
  destruct Hchange as [-> | (_ & Hm & _ & ->)]; [exact Hres | exact Hm].
Qed.

Lemma remembered_mode_is_a_run_mode_witness :
  resumable (gameLoop 3232 levelOneState).
Proof.
  assert (Hres : resumable levelOneState) by (right; vm_compute; reflexivity).
  exact (proj2 (remembered_mode_is_a_run_mode 100 (Frame 3232) levelOneState
                  (gameLoop 3232 levelOneState) eq_refl) Hres).
Defined.

(** ** Time and score *)

Lemma gameLoop_lastTime (t : Q) (st : Game) : lastTime (gameLoop t st) = t.
Proof.
  unfold gameLoop. cbn [gameState set_lastTime].
  destruct (gameState st); try reflexivity;
    (destruct (GameState_eqb _ _); cbn [updateScore set_score lastTime];
     unfold updateGame; by rewrite updateObstacles_lastTime).
Qed.

Lemma gameLoop_score (t : Q) (st : Game) :
  score (gameLoop t st) = score st
  \/ score (gameLoop t st) = score st + 250 * ((t - lastTime st) / 1000).
Proof.
  unfold gameLoop. cbn [gameState set_lastTime].
  destruct (gameState st); try (by left);
    (destruct (GameState_eqb _ _); [left|right];
     cbn [updateScore set_score score]; by rewrite updateGame_score).
Qed.

Lemma step_time_and_score (fuel : nat) (e : Event) (st st' : Game) :
  step fuel e st = Some st' ->
  in_time (lastTime st) [e] -> 0 <= score st ->
  0 <= score st'
  /\ lastTime st' = match e with Frame t => t | _ => lastTime st end.
Proof.
  intros Hstep Htime Hscore.
  destruct e as [w h | t | rnd x y | code]; cbn [step] in Hstep.
  - injection Hstep as <-. by split.
  - injection Hstep as <-. split; [|apply gameLoop_lastTime].
    destruct Htime as [Ht _].
    destruct (gameLoop_score t st) as [-> | ->]; [exact Hscore|].
    assert (0 <= (t - lastTime st) / 1000).
    { apply Qle_shift_div_l; [reflexivity|]. lra. }
    lra.
  - apply handleMouseDown_modes in Hstep as (_ & _ & Ht & [-> | ->]);
      (split; [lra || exact Hscore | exact Ht]).
  - injection Hstep as <-. rewrite handleKeyInput_score.
    split; [exact Hscore|].
    by destruct (handleKeyInput_modes code st) as (_ & _ & ->).
Qed.

(** X8.  When the frame timestamps never run backwards, the score is never
    negative: from a state with a score of 0 or more, every run of events
    ends with a score of 0 or more. *)
Theorem score_is_never_negative (fuel : nat) (es : list Event) :
  forall st st' : Game,
    run fuel es st = Some st' ->
    in_time (lastTime st) es -> 0 <= score st -> 0 <= score st'.
Proof.
  induction es as [|e es IH]; intros st st' Hrun Htime Hscore;
    cbn [run] in Hrun.
  - by injection Hrun as <-.
  - destruct (step fuel e st) as [s|] eqn:Hstep; [|discriminate].
    assert (Hone : in_time (lastTime st) [e])
      by (destruct e; cbn [in_time] in Htime |- *; tauto).
    destruct (step_time_and_score fuel e st s Hstep Hone Hscore) as [Hs Ht].
    apply (IH s st' Hrun); [|exact Hs].
    rewrite Ht. destruct e; cbn [in_time] in Htime; tauto.
Qed.

Lemma score_is_never_negative_witness :
  0 <= score (gameLoop 3232 levelOneState).
Proof.
  assert (Hscore : 0 <= score levelOneState) by qle_eval.
  assert (Htime : in_time (lastTime levelOneState) [Frame 3232]).
  { split; [qle_eval | exact I]. }
  exact (score_is_never_negative 100 [Frame 3232] levelOneState
           (gameLoop 3232 levelOneState) eq_refl Htime Hscore).
Defined.

(** ** The obstacle list along a run *)

Lemma first_hit_or_none {A : Type} (P : A -> bool) (l : list A) :
  Forall (fun a => P a = false) l
  \/ exists before a rest,
       l = before ++ a :: rest
       /\ Forall (fun a => P a = false) before /\ P a = true.
Proof.
  induction l as [|a l IH]; [left; constructor|].
  destruct (P a) eqn:Ha.
  - right. exists [], a, l. split; [reflexivity|]. split; [constructor|exact Ha].
  - destruct IH as [Hall | (before & b & rest & -> & Hb & Hhit)].
    + left. by constructor.
    + right. exists (a :: before), b, rest.
      split; [reflexivity|]. split; [by constructor|exact Hhit].
Qed.

(** Every end of [updateObstacles]: a crash after moving the obstacles up to
    the one hit, or a full scan. *)
Lemma updateObstacles_outcome (delta : Q) (st : Game) :
  let dx := scrollSpeed (gameState st) (score st) * delta in
  (exists k, (k <= length (levelObstacles st))%nat
             /\ updateObstacles delta st
                = resetGame
                    (set_levelObstacles
                       (moved_prefix dx k (levelObstacles st)) st))
  \/ exists done,
       updateObstacles delta st
       = afterScan done
           (set_levelObstacles
              (moved_prefix dx (length (levelObstacles st))
                 (levelObstacles st)) st).
Proof.
  intros dx.
  set (p := player st).
  destruct (first_hit_or_none
              (hit (Player.x p + Player.width p * Player.hitboxOffsetX p)
                   (Player.y p + Player.height p * Player.hitboxOffsetY p)
                   (Player.width p * Player.hitboxWidthScale p)
                   (Player.height p * Player.hitboxHeightScale p)
               ∘ scroll_by dx) (levelObstacles st))
    as [Hclear | (before & o & rest & Hobs & Hclear & Hhit)].
  - right. eexists. rewrite updateObstacles_clear.
    + unfold moved_prefix. rewrite firstn_all, drop_all, app_nil_r.
      reflexivity.
    + eapply Forall_impl; [exact Hclear|]. intros b Hb. by apply hit_clear.
  - left. exists (S (length before)). split.
    + rewrite Hobs, length_app. cbn [length]. lia.
    + rewrite (updateObstacles_crash delta st before o rest Hobs).
      * fold dx. unfold moved_prefix. rewrite Hobs.
        replace (S (length before)) with (length (before ++ [o]))
          by (rewrite length_app; cbn; lia).
        rewrite (assoc_L (++) before [o] rest : before ++ o :: rest = (before ++ [o]) ++ rest).
        rewrite take_app_length, drop_app_length, fmap_app.
        by rewrite <- (assoc_L (++)).
      * eapply Forall_impl; [exact Hclear|]. intros b Hb. by apply hit_clear.
      * by apply hit_overlaps.
Qed.

Lemma moved_prefix_lookup (dx : Q) (k : nat) (obs : list Obstacle.t) (i : nat) :
  moved_prefix dx k obs !! i
  = (if decide (i < k)%nat then scroll_by dx else id) <$> obs !! i.
Proof.
  unfold moved_prefix.
  destruct (decide (i < k)%nat) as [Hlt|Hge].
  - destruct (decide (i < length obs)%nat) as [Hin|Hout].
    + rewrite lookup_app_l by (rewrite length_fmap, length_take; lia).
      rewrite list_lookup_fmap, lookup_take_lt by lia. reflexivity.
    + rewrite (lookup_ge_None_2 obs i) by lia.
      apply lookup_ge_None_2.
      rewrite length_app, length_fmap, length_take, length_drop. lia.
  - destruct (decide (k <= length obs)%nat) as [Hk|Hk].
    + rewrite lookup_app_r by (rewrite length_fmap, length_take; lia).
      rewrite length_fmap, length_take, lookup_drop.
      replace (k + (i - k `min` length obs))%nat with i by lia.
      by destruct (obs !! i).
    + rewrite (lookup_ge_None_2 obs i) by lia.
      apply lookup_ge_None_2.
      rewrite length_app, length_fmap, length_take, length_drop. lia.
Qed.

Lemma moved_prefix_sorted (dx : Q) (k : nat) (obs : list Obstacle.t) :
  0 <= dx -> sorted_x obs -> sorted_x (moved_prefix dx k obs).
Proof.
  intros Hdx Hsorted i a' b' Ha Hb.
  rewrite moved_prefix_lookup in Ha, Hb.
  destruct (obs !! i) as [a|] eqn:Ea; [|discriminate].
  destruct (obs !! S i) as [b|] eqn:Eb; [|discriminate].
  pose proof (Hsorted i a b Ea Eb) as Hab.
  cbn in Ha, Hb. injection Ha as <-. injection Hb as <-.
  destruct (decide (i < k)%nat), (decide (S i < k)%nat); try lia;
    unfold scroll_by, id; cbn [Obstacle.x]; lra.
Qed.

Lemma scrollSpeed_nonneg (mode : GameState) (s : Q) :
  0 <= s -> 250 <= scrollSpeed mode s.
Proof.
  intros Hs. unfold scrollSpeed.
  assert (Hf : 0 <= inject_Z (Qfloor (s / 100))).
  { change 0 with (inject_Z 0). rewrite <- Zle_Qle.
    change 0%Z with (Qfloor 0). apply Qfloor_resp_le.
    apply Qle_shift_div_l; [reflexivity|]. lra. }
  destruct mode; lra.
Qed.

(** X9.  A frame during a run moves the first [k] obstacles left by the
    same distance speed*dt, for some [k], and touches nothing else in the
    list: the moved ones keep y, width and height, the others are as they
    were, none is added, dropped or reordered, unless the level completes and
    the list is emptied.  When the mode stays as it was, [k] is the whole
    list.  With a score of 0 or more and a timestamp not before the previous
    one, a list that is ordered left to right stays ordered. *)
Theorem frame_moves_a_prefix_left (t : Q) (st : Game) :
  gameState st = LEVEL \/ gameState st = INFINITE ->
  let dx := scrollSpeed (gameState st) (score st) * ((t - lastTime st) / 1000) in
  let st' := gameLoop t st in
  (gameState st' = LEVEL_COMPLETE /\ levelObstacles st' = []
   \/ exists k,
        (k <= length (levelObstacles st))%nat
        /\ length (levelObstacles st') = length (levelObstacles st)
        /\ (forall i o,
              (i < k)%nat -> levelObstacles st !! i = Some o ->
              levelObstacles st' !! i
              = Some (Obstacle.mk (Obstacle.x o - dx) (Obstacle.y o)
                        (Obstacle.width o) (Obstacle.height o)))
        /\ (forall i,
              (k <= i)%nat ->
              levelObstacles st' !! i = levelObstacles st !! i)
        /\ (gameState st' = gameState st ->
            k = length (levelObstacles st)))
  /\ (0 <= score st -> lastTime st <= t ->
      sorted_x (levelObstacles st) -> sorted_x (levelObstacles st')).
Proof.
  intros Hmode dx st'.
  assert (Hshape :
    gameState st' = LEVEL_COMPLETE /\ levelObstacles st' = []
    \/ exists k, (k <= length (levelObstacles st))%nat
                 /\ levelObstacles st' = moved_prefix dx k (levelObstacles st)
                 /\ (gameState st' = gameState st ->
                     k = length (levelObstacles st))).
  { subst st'. rewrite gameLoop_play by exact Hmode. cbv zeta.
    unfold updateGame.
    set (s := updatePlayer (set_lastTime t st)).
    assert (Hobs : forall (b : bool) (u : Game),
               levelObstacles (if b then u
                               else updateScore ((t - lastTime st) / 1000) u)
               = levelObstacles u
               /\ gameState (if b then u
                             else updateScore ((t - lastTime st) / 1000) u)
                  = gameState u) by (by intros []).
    destruct (Hobs (GameState_eqb
                      (gameState (updateObstacles ((t - lastTime st) / 1000) s))
                      LEVEL)
                (updateObstacles ((t - lastTime st) / 1000) s)) as [-> ->].
    destruct (updateObstacles_outcome ((t - lastTime st) / 1000) s)
      as [(k & Hk & ->) | ([|] & ->)].
    - right. exists k. split; [exact Hk|]. split; [reflexivity|].
      cbn [gameState resetGame set_gameState]. intros Hover.
      destruct Hmode as [H | H]; rewrite H in Hover; discriminate Hover.
    - left. split; reflexivity.
    - right. exists (length (levelObstacles st)). split; [lia|].
      split; reflexivity. }
  split.
  - destruct Hshape as [Hdone | (k & Hk & Hobs & Hall)]; [left; exact Hdone|].
    right. exists k. split; [exact Hk|]. rewrite Hobs.
    split; [|split; [|split; [|exact Hall]]].
    + unfold moved_prefix.
      rewrite length_app, length_fmap, length_take, length_drop. lia.
    + intros i o Hi Ho. rewrite moved_prefix_lookup, Ho.
      destruct (decide (i < k)%nat); [reflexivity | lia].
    + intros i Hi. rewrite moved_prefix_lookup.
      destruct (decide (i < k)%nat); [lia|].
      by destruct (levelObstacles st !! i).
  - intros Hscore Htime Hsorted.
    destruct Hshape as [[_ ->] | (k & _ & -> & _)].
    + intros i a b Ha. discriminate Ha.
    + apply moved_prefix_sorted; [|exact Hsorted].
      subst dx.
      pose proof (scrollSpeed_nonneg (gameState st) (score st) Hscore).
      assert (0 <= (t - lastTime st) / 1000).
      { apply Qle_shift_div_l; [reflexivity|]. lra. }
      nra.
Qed.

Lemma sorted_x_levelTwelve : sorted_x (levelObstacles levelTwelveState).
Proof.
  intros i a b Ha Hb.
  assert (Hlen : length (levelObstacles levelTwelveState) = 4%nat)
    by (vm_compute; reflexivity).
  assert (Hi : (S i < 4)%nat).
  { rewrite <- Hlen. apply lookup_lt_is_Some. by exists b. }
  assert (Hall : forall j : nat,
             (j < 3)%nat ->
             Qle_bool (Obstacle.x (nthObstacle j levelTwelveState))
               (Obstacle.x (nthObstacle (S j) levelTwelveState)) = true).
  { intros j Hj.
    destruct j as [|[|[|j]]]; [vm_compute; reflexivity .. | lia]. }
  assert (Hj : (i < 3)%nat) by lia.
  specialize (Hall i Hj). apply Qle_bool_iff in Hall.
  unfold nthObstacle in Hall. by rewrite Ha, Hb in Hall.
Qed.

Lemma frame_moves_a_prefix_left_witness :
  let st := levelTwelveState in
  let st' := gameLoop 4516 st in
  length (levelObstacles st) = 4%nat
  /\ gameState st' = GAME_OVER
  /\ Obstacle.x (nthObstacle 1 st') == Obstacle.x (nthObstacle 1 st) - 1125
  /\ nthObstacle 2 st' = nthObstacle 2 st
  /\ sorted_x (levelObstacles st')
  /\ exists k,
       (k <= length (levelObstacles st))%nat
       /\ length (levelObstacles st') = length (levelObstacles st)
       /\ (forall i,
             (k <= i)%nat ->
             levelObstacles st' !! i = levelObstacles st !! i).
Proof.
  intros st st'.
  assert (Hmode : gameState st = LEVEL \/ gameState st = INFINITE)
    by (left; vm_compute; reflexivity).
  assert (Hscore : 0 <= score st) by qle_eval.
  assert (Htime : lastTime st <= 4516) by qle_eval.
  assert (Hover : gameState st' = GAME_OVER) by (vm_compute; reflexivity).
  pose proof (frame_moves_a_prefix_left 4516 st Hmode) as H.
  cbv zeta in H. destruct H as [Hshape Hsorted].
  split; [vm_compute; reflexivity|]. split; [exact Hover|].
  split; [qeq_eval|]. split; [vm_compute; reflexivity|].
  split; [exact (Hsorted Hscore Htime sorted_x_levelTwelve)|].
  destruct Hshape as [[Hdone _] | (k & Hk & Hlen & _ & Hsuf & _)].
  - fold st' in Hdone. rewrite Hover in Hdone. discriminate Hdone.
  - exists k. split; [exact Hk|]. split; [exact Hlen | exact Hsuf].
Defined.

(** ** Bounds on what the generator places *)

Lemma placed_bounds (rnd : nat -> Q) (pw ph d g : Q) (k : nat) (c : Q)
    (obs : list Obstacle.t) :
  Placed rnd pw ph d g k c obs ->
  Forall (fun o =>
            Obstacle.y o == g - Obstacle.height o
            /\ Obstacle.width o <= pw * 2.4
            /\ (Obstacle.height o == ph * 1.05
                \/ Obstacle.height o == ph * 2.0 + d * 4 + d * 6)) obs
  /\ spaced (Qmax (pw * 1.6) 40) c obs.
Proof.
  induction 1 as [|k c o obs Hx Hw Hh Hy Hrest [IH1 IH2]].
  - split; [constructor | exact I].
  - split.
    + constructor; [|exact IH1].
      split; [exact Hy|]. split.
      * rewrite Hw. unfold spec_width. apply Q.le_min_l.
      * rewrite Hh. unfold spec_height.
        destruct (Qlt_le_dec (rnd (k + 2)%nat) 0.25);
          [right; reflexivity | left; reflexivity].
    + cbn [spaced]. split; [|exact IH2].
      rewrite Hx. unfold spec_gap.
      pose proof (Q.le_max_l (Qmax (pw * 1.6) 40)
                    (420 - d * 60 + uniformRandom 0 100 (rnd k))).
      lra.
Qed.

(** X10.  Whatever the draws, every obstacle the generator returns has its
    top at the ground line minus its height, is at most 2.4 player widths
    wide, and has one of two heights, 1.05 player heights or
    (2 player heights + 4*difficulty) + 6*difficulty; and each is placed at
    least max(1.6 player widths, 40) pixels after the cursor: the first
    after canvas.width*0.6, every other after the right edge of the one
    before, in the sums the generator forms. *)
Theorem generated_obstacles_are_bounded (fuel : nat) (rnd : nat -> Q)
    (isInfinite : bool) (st st' : Game) :
  generateObstacles fuel rnd isInfinite st = Some st' ->
  let pw := Player.width (player st) in
  let ph := Player.height (player st) in
  let d := spec_difficulty isInfinite (score st) (currentLevel st) in
  Forall (fun o =>
            Obstacle.y o
            == canvas_height st - groundHeight st - Obstacle.height o
            /\ Obstacle.width o <= pw * 2.4
            /\ (Obstacle.height o == ph * 1.05
                \/ Obstacle.height o == ph * 2.0 + d * 4 + d * 6))
    (levelObstacles st')
  /\ spaced (Qmax (pw * 1.6) 40) (canvas_width st * 0.6) (levelObstacles st').
Proof.
  intros Hgen pw ph d.
  apply generateObstacles_placed in Hgen as (_ & Hplaced & _).
  exact (placed_bounds _ _ _ _ _ _ _ _ Hplaced).
Qed.

Lemma generated_obstacles_are_bounded_witness :
  spaced (Qmax (Player.width (player levelFiveStart) * 1.6) 40)
    (canvas_width levelFiveStart * 0.6) (levelObstacles levelFiveGenerated).
Proof.
  assert (Hgen : generateObstacles 100 half false levelFiveStart
                 = Some levelFiveGenerated)
    by (apply defined_default; vm_compute; reflexivity).
  exact (proj2 (generated_obstacles_are_bounded 100 half false levelFiveStart
                  levelFiveGenerated Hgen)).
Defined.

(** ** Difficulty *)

Lemma spec_difficulty_level_mono (s s' : Q) (l l' : nat) :
  (l <= l')%nat -> spec_difficulty false s l <= spec_difficulty false s' l'.
Proof.
  intros Hl. unfold spec_difficulty.
  assert (inject_Z (Z.of_nat l) <= inject_Z (Z.of_nat l'))
    by (rewrite <- Zle_Qle; lia).
  lra.
Qed.

Lemma spec_difficulty_score_mono (s s' : Q) (l l' : nat) :
  s <= s' -> spec_difficulty true s l <= spec_difficulty true s' l'.
Proof.
  intros Hs. unfold spec_difficulty.
  assert (inject_Z (Qfloor (s / 500)) <= inject_Z (Qfloor (s' / 500))).
  { rewrite <- Zle_Qle. apply Qfloor_resp_le.
    apply Qmult_le_compat_r; [exact Hs | discriminate]. }
  lra.
Qed.

Lemma spec_formulas_mono (pw ph d d' rg rw rh : Q) :
  d <= d' ->
  spec_gap pw d' rg <= spec_gap pw d rg
  /\ spec_width pw ph d rw <= spec_width pw ph d' rw
  /\ spec_height ph d rh <= spec_height ph d' rh.
Proof.
  intros Hd. unfold spec_gap, spec_width, spec_height. repeat split.
  - apply Q.max_le_compat_l. lra.
  - apply Q.min_le_compat_l. lra.
  - destruct (Qlt_le_dec rh 0.25); lra.
Qed.

Lemma placed_first (rnd : nat -> Q) (pw ph d g : Q) (k : nat) (c : Q)
    (obs : list Obstacle.t) (a : Obstacle.t) :
  Placed rnd pw ph d g k c obs -> obs !! 0%nat = Some a ->
  Obstacle.x a == c + spec_gap pw d (rnd k)
  /\ Obstacle.width a == spec_width pw ph d (rnd (k + 1)%nat)
  /\ Obstacle.height a == spec_height ph d (rnd (k + 2)%nat).
Proof.
  intros [|k' c' o rest Hx Hw Hh _ _] Ha; [discriminate Ha|].
  injection Ha as <-. by repeat split.
Qed.

(** X11.  Raising the level (level mode) or the score (infinite mode) never
    lowers the difficulty, and with the same draws the harder run's first
    obstacle is no farther away, no narrower and no lower. *)
Theorem harder_runs_start_closer (f1 f2 : nat) (rnd : nat -> Q)
    (isInfinite : bool) (st s1 s2 : Game) (l' : nat) (s' : Q)
    (a1 a2 : Obstacle.t) :
  (currentLevel st <= l')%nat -> score st <= s' ->
  generateObstacles f1 rnd isInfinite st = Some s1 ->
  generateObstacles f2 rnd isInfinite (set_score s' (set_currentLevel l' st))
  = Some s2 ->
  levelObstacles s1 !! 0%nat = Some a1 ->
  levelObstacles s2 !! 0%nat = Some a2 ->
  spec_difficulty isInfinite (score st) (currentLevel st)
  <= spec_difficulty isInfinite s' l'
  /\ Obstacle.x a2 <= Obstacle.x a1
  /\ Obstacle.width a1 <= Obstacle.width a2
  /\ Obstacle.height a1 <= Obstacle.height a2.
Proof.
  intros Hl Hs Hg1 Hg2 Ha1 Ha2.
  assert (Hd : spec_difficulty isInfinite (score st) (currentLevel st)
               <= spec_difficulty isInfinite s' l').
  { destruct isInfinite;
      [by apply spec_difficulty_score_mono
      |by apply spec_difficulty_level_mono]. }
  split; [exact Hd|].
  apply generateObstacles_placed in Hg1 as (_ & P1 & _).
  apply generateObstacles_placed in Hg2 as (_ & P2 & _).
  cbn [score currentLevel player canvas_height canvas_width groundHeight
       set_score set_currentLevel] in P2.
  destruct (placed_first _ _ _ _ _ _ _ _ a1 P1 Ha1) as (Hx1 & Hw1 & Hh1).
  destruct (placed_first _ _ _ _ _ _ _ _ a2 P2 Ha2) as (Hx2 & Hw2 & Hh2).
  destruct (spec_formulas_mono (Player.width (player st))
              (Player.height (player st)) _ _ (rnd 0%nat) (rnd (0 + 1)%nat)
              (rnd (0 + 2)%nat) Hd) as (Mg & Mw & Mh).
  rewrite Hx1, Hx2, Hw1, Hw2, Hh1, Hh2. repeat split; [lra | exact Mw | exact Mh].
Qed.

Lemma harder_runs_start_closer_witness :
  let a1 := nthObstacle 0 levelFiveGenerated in
  let a2 := nthObstacle 0 levelSevenGenerated in
  spec_difficulty false (score levelFiveStart) (currentLevel levelFiveStart)
  <= spec_difficulty false 0 7
  /\ Obstacle.x a2 <= Obstacle.x a1
  /\ Obstacle.width a1 <= Obstacle.width a2
  /\ Obstacle.height a1 <= Obstacle.height a2.
Proof.
  assert (H1 : (currentLevel levelFiveStart <= 7)%nat)
    by (apply Nat.leb_le; vm_compute; reflexivity).
  assert (H2 : score levelFiveStart <= 0) by qle_eval.
  assert (H3 : generateObstacles 100 half false levelFiveStart
               = Some levelFiveGenerated)
    by (apply defined_default; vm_compute; reflexivity).
  assert (H4 : generateObstacles 100 half false
                 (set_score 0 (set_currentLevel 7 levelFiveStart))
               = Some levelSevenGenerated)
    by (apply defined_default; vm_compute; reflexivity).
  assert (H5 : levelObstacles levelFiveGenerated !! 0%nat
               = Some (nthObstacle 0 levelFiveGenerated))
    by (apply defined_default; vm_compute; reflexivity).
  assert (H6 : levelObstacles levelSevenGenerated !! 0%nat
               = Some (nthObstacle 0 levelSevenGenerated))
    by (apply defined_default; vm_compute; reflexivity).
  exact (harder_runs_start_closer 100 100 half false levelFiveStart
           levelFiveGenerated levelSevenGenerated 7 0
           (nthObstacle 0 levelFiveGenerated)
           (nthObstacle 0 levelSevenGenerated) H1 H2 H3 H4 H5 H6).
Defined.

(** ** The hitbox *)

Lemma hitbox_within_sprite (p : Player.t) (o : Obstacle.t) :
  script_hitbox p -> 0 <= Player.width p -> 0 <= Player.height p ->
  hitbox_overlaps p o -> sprite_overlaps p o.
Proof.
  intros (Hx & Hy & Hw & Hh) Hpw Hph.
  unfold hitbox_overlaps, sprite_overlaps. rewrite Hx, Hy, Hw, Hh.
  cbv zeta. intros (H1 & H2 & H3 & H4). repeat split; lra.
Qed.

Lemma step_hitbox (fuel : nat) (e : Event) (st st' : Game) :
  step fuel e st = Some st' ->
  script_hitbox (player st) -> script_hitbox (player st').
Proof.
  intros Hstep Hbox.
  destruct (step_geometry fuel e st st' Hstep) as [(w & h & ->) | Hgeo].
  - cbn [step] in Hstep. injection Hstep as <-. exact Hbox.
  - unfold geometry, playerConstants in Hgeo.
    injection Hgeo as _ _ _ _ _ _ _ _ _ H1 H2 H3 H4.
    unfold script_hitbox. by rewrite H1, H2, H3, H4.
Qed.

Lemma run_keeps_hitbox_and_sizes (fuel : nat) (es : list Event) :
  forall st st' : Game,
    run fuel es st = Some st' -> viewports_ok es ->
    script_hitbox (player st) -> sizes_ok st ->
    script_hitbox (player st') /\ sizes_ok st'.
Proof.
  induction es as [|e es IH]; intros st st' Hrun Hview Hbox Hsizes;
    cbn [run] in Hrun.
  - injection Hrun as <-. by split.
  - destruct (step fuel e st) as [s|] eqn:Hstep; [|discriminate].
    apply (IH s st' Hrun).
    + intros w h Hin. apply Hview. by right.
    + by apply (step_hitbox fuel e st s).
    + apply (sizes_ok_step fuel e st s); [|exact Hsizes|exact Hstep].
      intros w h ->. apply Hview. by left.
Qed.

(** X12.  In every state a run of events reaches from start-up (viewport
    sizes not negative), the hitbox lies inside the sprite: whenever the
    hitbox overlaps an obstacle, so does the sprite's own rectangle.  No
    crash happens without the sprite touching the obstacle. *)
Theorem no_crash_without_contact (fuel : nat) (es : list Event) (w h : Q)
    (st : Game) (o : Obstacle.t) :
  0 <= w -> 0 <= h -> viewports_ok es ->
  run fuel es (init w h) = Some st ->
  hitbox_overlaps (player st) o -> sprite_overlaps (player st) o.
Proof.
  intros Hw Hh Hview Hrun.
  destruct (run_keeps_hitbox_and_sizes fuel es (init w h) st Hrun Hview)
    as [Hbox (Hpw & Hph & _)].
  - repeat split.
  - by apply sizes_ok_resize.
  - by apply hitbox_within_sprite.
Qed.

Lemma viewports_ok_levelOneTrace : viewports_ok levelOneTrace.
Proof.
  intros w h Hin. exfalso. unfold levelOneTrace in Hin.
  repeat (apply elem_of_cons in Hin as [Hin|Hin]; [discriminate Hin|]).
  by apply elem_of_nil in Hin.
Qed.

Lemma no_crash_without_contact_witness :
  sprite_overlaps (player levelOneState)
    (scroll_by 800 (firstObstacle levelOneState)).
Proof.
  assert (H1 : (0 : Q) <= 800) by qle_eval.
  assert (H2 : (0 : Q) <= 600) by qle_eval.
  assert (H3 : run 100 levelOneTrace (init 800 600) = Some levelOneState)
    by (apply run_after; vm_compute; reflexivity).
  assert (H4 : hitbox_overlaps (player levelOneState)
                 (scroll_by 800 (firstObstacle levelOneState)))
    by (unfold hitbox_overlaps; repeat split; qlt_eval).
  exact (no_crash_without_contact 100 levelOneTrace 800 600 levelOneState
           (scroll_by 800 (firstObstacle levelOneState)) H1 H2
           viewports_ok_levelOneTrace H3 H4).
Defined.

(** ** More physics *)

Lemma integrate_velocity (p : Player.t) :
  Player.isGrounded p = false ->
  Player.velocityY (integrate p) <= Player.terminalVelocity p
  /\ Player.terminalVelocity (integrate p) = Player.terminalVelocity p.
Proof.
  intros Hair. unfold integrate. rewrite Hair. cbn [negb].
  cbn [set_velocityY Player.terminalVelocity Player.velocityY].
  destruct (Qlt_bool (Player.terminalVelocity p)
              (Player.velocityY p + Player.gravity p)) eqn:E; cbn.
  - split; [lra | reflexivity].
  - apply Qlt_bool_false_iff in E. split; [lra | reflexivity].
Qed.

Lemma updatePlayer_velocity (st : Game) :
  let p := player st in
  let q := player (updatePlayer st) in
  0 <= Player.terminalVelocity p ->
  Player.velocityY p <= Player.terminalVelocity p ->
  Player.velocityY q <= Player.terminalVelocity q
  /\ Player.terminalVelocity q = Player.terminalVelocity p
  /\ Player.jumpStrength q = Player.jumpStrength p.
Proof.
  cbv zeta. intros Htv Hv.
  pose proof (updatePlayer_constants st) as Hc.
  assert (Ht : Player.terminalVelocity (player (updatePlayer st))
               = Player.terminalVelocity (player st))
    by exact (f_equal (fun c => snd (fst c)) Hc).
  assert (Hj : Player.jumpStrength (player (updatePlayer st))
               = Player.jumpStrength (player st))
    by exact (f_equal (fun c => snd (fst (fst c))) Hc).
  rewrite Ht, Hj. split; [|by split].
  unfold updatePlayer. cbn [player set_player].
  assert (Hi : Player.velocityY (integrate (player st))
               <= Player.terminalVelocity (player st)).
  { destruct (Player.isGrounded (player st)) eqn:Eg.
    - unfold integrate. rewrite Eg. exact Hv.
    - by apply integrate_velocity. }
  set (p1 := integrate (player st)) in *.
  assert (Hg : Player.velocityY
                 (groundCollision (canvas_height st) (groundHeight st) p1)
               <= Player.terminalVelocity (player st)).
  { unfold groundCollision. destruct (Qlt_bool _ _); [exact Htv | exact Hi]. }
  set (p2 := groundCollision _ _ p1) in *.
  unfold ceilingClamp. destruct (Qlt_bool (Player.y p2) 0); [|exact Hg].
  cbn. destruct (Qlt_bool (Player.velocityY p2) 0); [exact Htv | exact Hg].
Qed.

(** X13.  The falling speed never exceeds the terminal velocity: when the
    terminal velocity is not negative and the jump impulse is not above it,
    a vertical velocity at or below the terminal velocity stays at or below
    it through every sequence of physics steps and jumps. *)
Theorem velocity_stays_below_terminal (calls : list PhysicsCall) :
  forall st : Game,
    0 <= Player.terminalVelocity (player st) ->
    Player.jumpStrength (player st) <= Player.terminalVelocity (player st) ->
    Player.velocityY (player st) <= Player.terminalVelocity (player st) ->
    let st' := runPhysics calls st in
    Player.velocityY (player st') <= Player.terminalVelocity (player st').
Proof.
  induction calls as [|c calls IH]; intros st Htv Hj Hv; [exact Hv|].
  cbv zeta. unfold runPhysics. cbn [fold_left].
  fold (runPhysics calls (physics c st)). apply IH; destruct c; cbn [physics].
  - by destruct (updatePlayer_velocity st Htv Hv) as (_ & -> & _).
  - unfold jump. by destruct (Player.isGrounded (player st)).
  - destruct (updatePlayer_velocity st Htv Hv) as (_ & -> & ->). exact Hj.
  - unfold jump. by destruct (Player.isGrounded (player st)).
  - by destruct (updatePlayer_velocity st Htv Hv) as (H & _).
  - unfold jump. by destruct (Player.isGrounded (player st)).
Qed.

Lemma velocity_stays_below_terminal_witness :
  let st' := runPhysics [CallJump; CallStep; CallStep] (init 800 600) in
  Player.velocityY (player st') <= Player.terminalVelocity (player st').
Proof.
  assert (H1 : 0 <= Player.terminalVelocity (player (init 800 600)))
    by qle_eval.
  assert (H2 : Player.jumpStrength (player (init 800 600))
               <= Player.terminalVelocity (player (init 800 600)))
    by qle_eval.
  assert (H3 : Player.velocityY (player (init 800 600))
               <= Player.terminalVelocity (player (init 800 600)))
    by qle_eval.
  exact (velocity_stays_below_terminal [CallJump; CallStep; CallStep]
           (init 800 600) H1 H2 H3).
Defined.

(** A player at rest inside the room is a fixed point of the step. *)
Lemma updatePlayer_rest (st : Game) :
  Player.isGrounded (player st) = true ->
  on_or_above_ground st -> below_ceiling st ->
  player (updatePlayer st) = player st.
Proof.
  unfold on_or_above_ground, below_ceiling, updatePlayer.
  intros Hg Hlow Hhigh. cbn [player set_player].
  unfold integrate. rewrite Hg. cbn [negb].
  unfold groundCollision.
  assert (E1 : Qlt_bool (canvas_height st - groundHeight st)
                 (Player.y (player st) + Player.height (player st)) = false)
    by (apply Qlt_bool_false_iff; lra).
  rewrite E1. unfold ceilingClamp.
  assert (E2 : Qlt_bool (Player.y (player st)) 0 = false)
    by (apply Qlt_bool_false_iff; lra).
  by rewrite E2.
Qed.

(** X14.  A run starts at rest: after the reset that starts or restarts a
    run, and provided the sprite fits the room, any number of physics steps
    leaves the player grounded with velocity 0 where it was horizontally,
    and at the ground position, as the reset computes it
    (height - player height - ground height) or as the ground snap computes
    it (height - ground height - player height), the same number but for
    rounding, until a jump. *)
Theorem player_rests_until_a_jump (n : nat) (st : Game) :
  player_fits st ->
  let s := resetPlayerAndObstacles st in
  let p := player (runPhysics (replicate n CallStep) s) in
  Player.isGrounded p = true
  /\ Player.velocityY p = 0
  /\ Player.x p = canvas_width st * 0.05
  /\ (Player.y p = canvas_height st - Player.height (player st) - groundHeight st
      \/ Player.y p = groundPosition st).
Proof.
  intros Hfit s p.
  assert (Hrest : forall u : Game,
             player u = player s -> canvas_height u = canvas_height s ->
             groundHeight u = groundHeight s ->
             player (updatePlayer u) = player s).
  { intros u Hp Hc Hgh. rewrite <- Hp. apply updatePlayer_rest.
    - by rewrite Hp.
    - unfold on_or_above_ground. rewrite Hp, Hc, Hgh.
      unfold player_fits in Hfit. cbn. lra.
    - unfold below_ceiling. rewrite Hp.
      unfold player_fits in Hfit. cbn. lra. }
  assert (Hall : forall (m : nat) (u : Game),
             player u = player s -> canvas_height u = canvas_height s ->
             groundHeight u = groundHeight s ->
             player (runPhysics (replicate m CallStep) u) = player s).
  { induction m as [|m IH]; intros u Hp Hc Hgh; [exact Hp|].
    cbn [replicate]. unfold runPhysics. cbn [fold_left physics].
    apply IH; [by apply Hrest | exact Hc | exact Hgh]. }
  assert (Hp : p = player s) by (by apply Hall).
  rewrite Hp. repeat split. left. reflexivity.
Qed.

Lemma player_rests_until_a_jump_witness :
  let p := player (runPhysics (replicate 3 CallStep)
                     (resetPlayerAndObstacles (init 800 600))) in
  Player.isGrounded p = true
  /\ Player.velocityY p = 0
  /\ Player.x p = canvas_width (init 800 600) * 0.05
  /\ (Player.y p
      = canvas_height (init 800 600) - Player.height (player (init 800 600))
        - groundHeight (init 800 600)
      \/ Player.y p = groundPosition (init 800 600)).
Proof.
  assert (Hfit : player_fits (init 800 600))
    by (unfold player_fits; qle_eval).
  exact (player_rests_until_a_jump 3 (init 800 600) Hfit).
Defined.

(** ** Keys *)

Lemma handleKeyInput_airborne (code : string) (st : Game) :
  Player.isGrounded (player st) = false -> handleKeyInput code st = st.
Proof.
  intros Hair. unfold handleKeyInput, jump. rewrite Hair.
  by destruct (_ && _).
Qed.

Lemma handleKeyInput_cases (code : string) (st : Game) :
  handleKeyInput code st = st
  \/ (gameState st = LEVEL \/ gameState st = INFINITE)
     /\ (code = "Space" \/ code = "ArrowUp")
     /\ Player.isGrounded (player st) = true
     /\ handleKeyInput code st
        = set_player
            (set_velocityY (Player.jumpStrength (player st))
               (set_isGrounded false (player st))) st.
Proof.
  unfold handleKeyInput.
  destruct (GameState_eqb (gameState st) LEVEL
            || GameState_eqb (gameState st) INFINITE) eqn:Emode;
    [|by left].
  destruct (String.eqb code "Space" || String.eqb code "ArrowUp") eqn:Ekey;
    [|by left].
  cbn [andb]. unfold jump.
  destruct (Player.isGrounded (player st)) eqn:Eg; [|by left].
  right. split.
  { apply orb_true_iff in Emode as [E|E]; apply GameState_eqb_eq in E; tauto. }
  split.
  { apply orb_true_iff in Ekey as [E|E]; apply String.eqb_eq in E; tauto. }
  split; reflexivity.
Qed.

(** X15.  A key press changes the state only when the mode is LEVEL or
    INFINITE, the key is Space or ArrowUp and the player is grounded; it
    then sets the vertical velocity to the jump impulse and clears the
    grounded flag, nothing else.  After it no key press has any effect: there
    is no second jump in the air. *)
Theorem keys_jump_only_from_the_ground (code : string) (st : Game) :
  handleKeyInput code st <> st ->
  (gameState st = LEVEL \/ gameState st = INFINITE)
  /\ (code = "Space" \/ code = "ArrowUp")
  /\ Player.isGrounded (player st) = true
  /\ handleKeyInput code st
     = set_player
         (set_velocityY (Player.jumpStrength (player st))
            (set_isGrounded false (player st))) st
  /\ forall code', handleKeyInput code' (handleKeyInput code st)
                   = handleKeyInput code st.
Proof.
  intros Hchg.
  destruct (handleKeyInput_cases code st)
    as [Hsame | (Hmode & Hkey & Hg & Hjump)]; [contradiction|].
  split; [exact Hmode|]. split; [exact Hkey|]. split; [exact Hg|].
  split; [exact Hjump|]. intros code'. rewrite Hjump.
  by apply handleKeyInput_airborne.
Qed.

Lemma keys_jump_only_from_the_ground_witness :
  Player.isGrounded (player levelOneState) = true
  /\ forall code', handleKeyInput code' (handleKeyInput "Space" levelOneState)
                   = handleKeyInput "Space" levelOneState.
Proof.
  assert (Hchg : handleKeyInput "Space" levelOneState <> levelOneState).
  { intros E.
    apply (f_equal (fun s => Player.isGrounded (player s))) in E.
    vm_compute in E. discriminate E. }
  pose proof (keys_jump_only_from_the_ground "Space" levelOneState Hchg) as H.
  exact (conj (proj1 (proj2 (proj2 H))) (proj2 (proj2 (proj2 (proj2 H))))).
Defined.

(** ** The room after a resize *)

(** X16.  A resize puts the player at the position the ground snap assigns.
    On a viewport at least 22 pixels high the sprite then fits the room
    between ceiling and ground line and the player is not above the
    ceiling; on a viewport at most 21 pixels high the sprite does not fit
    and the player is above the ceiling.  (The exact threshold, 18/0.85, lies
    between the two.) *)
Theorem resize_room_fits_from_22_pixels (w h : Q) (st : Game) :
  let st' := resizeCanvas w h st in
  Player.y (player st') = groundPosition st'
  /\ (22 <= h -> player_fits st' /\ below_ceiling st')
  /\ (h <= 21 -> ~ player_fits st' /\ ~ below_ceiling st').
Proof.
  intros st'. split; [reflexivity|].
  destruct (resizeCanvas_geometry w h st)
    as (Hg & Hph & _ & _ & Hy & _ & _ & _ & _ & Hch).
  cbv zeta in Hph, Hy. fold st' in Hg, Hph, Hy, Hch.
  unfold player_fits, below_ceiling. rewrite Hy, Hph, Hg, Hch.
  destruct (Q.max_spec 18 (h * 0.06)) as [[Hlt ->] | [Hle ->]];
    (split; intros Hh; [split; lra | split; intros Hn; lra]).
Qed.

Lemma resize_room_fits_from_22_pixels_witness :
  (player_fits (resizeCanvas 800 600 globals)
   /\ below_ceiling (resizeCanvas 800 600 globals))
  /\ ~ player_fits (resizeCanvas 100 10 globals).
Proof.
  assert (H1 : (22 : Q) <= 600) by qle_eval.
  assert (H2 : (10 : Q) <= 21) by qle_eval.
  split.
  - exact (proj1 (proj2 (resize_room_fits_from_22_pixels 800 600 globals)) H1).
  - exact (proj1 (proj2 (proj2 (resize_room_fits_from_22_pixels 100 10
                                  globals)) H2)).
Defined.

(** ** A run without obstacles *)

Lemma gameLoop_no_obstacles (t : Q) (st : Game) :
  gameState st = LEVEL \/ gameState st = INFINITE ->
  levelObstacles st = [] ->
  gameState (gameLoop t st) = gameState st
  /\ levelObstacles (gameLoop t st) = [].
Proof.
  intros Hmode Hobs. rewrite gameLoop_play by exact Hmode. cbv zeta.
  unfold updateGame.
  rewrite updateObstacles_clear.
  - change (levelObstacles (updatePlayer (set_lastTime t st)))
      with (levelObstacles st).
    rewrite Hobs. cbn [last afterScan fmap list_fmap].
    destruct (GameState_eqb _ _); split; reflexivity.
  - change (levelObstacles (updatePlayer (set_lastTime t st)))
      with (levelObstacles st).
    rewrite Hobs. constructor.
Qed.

(** X17.  A run with an empty obstacle list never ends: every frame leaves
    the mode and the empty list as they are, so a level without obstacles
    would never be completed.  (The generator never returns an empty list
    for a run.) *)
Theorem run_without_obstacles_never_ends (ts : list Q) :
  forall st : Game,
    gameState st = LEVEL \/ gameState st = INFINITE ->
    levelObstacles st = [] ->
    Forall (fun s => gameState s = gameState st /\ levelObstacles s = [])
      (frames ts st).
Proof.
  induction ts as [|t ts IH]; intros st Hmode Hobs; cbn [frames];
    [constructor|].
  destruct (gameLoop_no_obstacles t st Hmode Hobs) as [Hg Ho].
  constructor; [by split|].
  rewrite <- Hg. apply IH; [by rewrite Hg | exact Ho].
Qed.

Lemma run_without_obstacles_never_ends_witness :
  Forall (fun s => gameState s = LEVEL /\ levelObstacles s = [])
    (frames [16; 32] (set_gameState LEVEL (init 800 600))).
Proof.
  assert (Hmode : gameState (set_gameState LEVEL (init 800 600)) = LEVEL \/
                  gameState (set_gameState LEVEL (init 800 600)) = INFINITE)
    by (left; reflexivity).
  exact (run_without_obstacles_never_ends [16; 32]
           (set_gameState LEVEL (init 800 600)) Hmode eq_refl).
Defined.

(** ** The jump *)

Lemma jumpArc_bounds (k : nat) :
  (k <= 33)%nat -> -0.4845 <= jumpArc k <= 0.
Proof.
  intros Hk. unfold jumpArc. cbv zeta.
  set (K := inject_Z (Z.of_nat k)).
  assert (H0 : 0 <= K) by (subst K; change 0 with (inject_Z 0);
                           rewrite <- Zle_Qle; lia).
  assert (H33 : K <= 33) by (subst K; change 33 with (inject_Z 33);
                             rewrite <- Zle_Qle; lia).
  assert (Hint : K <= 16 \/ 17 <= K).
  { subst K. destruct (decide (k <= 16)%nat); [left|right].
    - change 16 with (inject_Z 16). rewrite <- Zle_Qle. lia.
    - change 17 with (inject_Z 17). rewrite <- Zle_Qle. lia. }
  split; [destruct Hint; nra | nra].
Qed.

Lemma jumpArc_step (k : nat) :
  jumpArc (S k)
  == jumpArc k + (-0.06 + 0.0035 * inject_Z (Z.of_nat (S k))).
Proof.
  unfold jumpArc. cbv zeta.
  rewrite Nat2Z.inj_succ, <- Z.add_1_r, inject_Z_plus.
  change (inject_Z 1) with 1. ring.
Qed.

Lemma jumpArc_34 : jumpArc 34 == 0.0425.
Proof. reflexivity. Qed.

Lemma resized_to_resize (w h : Q) (st : Game) :
  resized_to h (resizeCanvas w h st).
Proof. repeat split. Qed.

Lemma resized_to_physics (h : Q) (c : PhysicsCall) (st : Game) :
  resized_to h st -> resized_to h (physics c st).
Proof.
  intros (H1 & H2 & H3 & H4 & H5 & H6). destruct c; cbn [physics].
  - pose proof (updatePlayer_constants st) as Hc.
    unfold resized_to.
    rewrite <- H3, <- H4, <- H5, <- H6.
    split; [exact H1|]. split; [exact H2|].
    split; [exact (f_equal (fun c => snd (fst (fst (fst (fst c))))) Hc)|].
    split; [exact (f_equal (fun c => snd (fst (fst (fst c)))) Hc)|].
    split; [exact (f_equal (fun c => snd (fst (fst c))) Hc)|].
    exact (f_equal (fun c => snd (fst c)) Hc).
  - unfold jump. destruct (Player.isGrounded (player st)); by repeat split.
Qed.

Lemma ground_line_room (h : Q) :
  50 <= h -> 0 <= h - Qmax 18 (h * 0.06) - h * 0.15 - h * 0.4845.
Proof.
  intros Hh.
  destruct (Q.max_spec 18 (h * 0.06)) as [[_ ->] | [_ ->]]; lra.
Qed.

Lemma on_jump_arc_step (h : Q) (st : Game) :
  50 <= h -> resized_to h st ->
  let y0 := h - Qmax 18 (h * 0.06) - h * 0.15 in
  on_jump_arc h y0 (player st) ->
  on_jump_arc h y0 (player (updatePlayer st)).
Proof.
  intros Hh (Hc & Hg & Hph & Hgr & _ & Htv) y0 Harc.
  pose proof (ground_line_room h Hh) as Hroom. fold y0 in Hroom.
  unfold updatePlayer. cbn [player set_player]. rewrite Hc, Hg.
  destruct Harc as [[Hgd Hy] | (Hair & k & Hk & Hv & Hy)].
  - (* at rest *)
    unfold integrate. rewrite Hgd. cbn [negb].
    unfold groundCollision. rewrite Hph.
    assert (E1 : Qlt_bool (h - Qmax 18 (h * 0.06))
                   (Player.y (player st) + h * 0.15) = false).
    { apply Qlt_bool_false_iff. rewrite Hy. subst y0. lra. }
    rewrite E1. unfold ceilingClamp.
    assert (E2 : Qlt_bool (Player.y (player st)) 0 = false).
    { apply Qlt_bool_false_iff. rewrite Hy. lra. }
    rewrite E2. left. by split.
  - (* k steps into the jump *)
    destruct (jumpArc_bounds k Hk) as [Hlo Hhi].
    pose proof (jumpArc_step k) as Hstep.
    set (K := inject_Z (Z.of_nat k)) in *.
    assert (HK : inject_Z (Z.of_nat (S k)) == K + 1).
    { subst K. rewrite Nat2Z.inj_succ, <- Z.add_1_r, inject_Z_plus.
      reflexivity. }
    assert (HK0 : 0 <= K <= 33).
    { subst K. split.
      - change 0 with (inject_Z 0). rewrite <- Zle_Qle. lia.
      - change 33 with (inject_Z 33). rewrite <- Zle_Qle. lia. }
    unfold integrate. rewrite Hair. cbn [negb].
    player_fields. rewrite Htv, Hgr.
    assert (Hv1 : Player.velocityY (player st) + h * 0.0035
                  == (-0.06 + 0.0035 * (K + 1)) * h)
      by (rewrite Hv; ring).
    assert (E0 : Qlt_bool (h * 2.5)
                   (Player.velocityY (player st) + h * 0.0035) = false).
    { apply Qlt_bool_false_iff. rewrite Hv1. nra. }
    rewrite E0. player_fields.
    set (v1 := Player.velocityY (player st) + h * 0.0035) in *.
    assert (Hy1 : Player.y (player st) + v1 == y0 + h * jumpArc (S k)).
    { rewrite Hy, Hv1, Hstep, HK. ring. }
    unfold groundCollision. player_fields. rewrite Hph.
    destruct (Qlt_bool (h - Qmax 18 (h * 0.06))
                (Player.y (player st) + v1 + h * 0.15)) eqn:Eland.
    + (* landing *)
      unfold ceilingClamp. player_fields.
      assert (E2 : Qlt_bool (h - Qmax 18 (h * 0.06) - h * 0.15) 0 = false).
      { apply Qlt_bool_false_iff. fold y0. lra. }
      rewrite E2. left. split; reflexivity.
    + (* still in the air *)
      apply Qlt_bool_false_iff in Eland.
      assert (Hnot34 : (S k <= 33)%nat).
      { destruct (decide (k = 33%nat)) as [->|Hne]; [|lia].
        exfalso. apply Eland. rewrite Hy1, jumpArc_34. subst y0. nra. }
      destruct (jumpArc_bounds (S k) Hnot34) as [Hlo1 Hhi1].
      unfold ceilingClamp. player_fields.
      assert (E2 : Qlt_bool (Player.y (player st) + v1) 0 = false).
      { apply Qlt_bool_false_iff. rewrite Hy1. nra. }
      rewrite E2. right. split; [exact Hair|].
      exists (S k). split; [exact Hnot34|].
      player_fields. split; [|exact Hy1].
      subst v1. rewrite Hv1, HK. reflexivity.
Qed.

Lemma on_jump_arc_jump (h y0 : Q) (st : Game) :
  resized_to h st ->
  on_jump_arc h y0 (player st) -> on_jump_arc h y0 (player (jump st)).
Proof.
  intros (_ & _ & _ & _ & Hj & _) Harc. unfold jump.
  destruct (Player.isGrounded (player st)) eqn:Eg; [|exact Harc].
  destruct Harc as [[_ Hy] | (Hair & _)]; [|congruence].
  right. cbn [player set_player]. player_fields. split; [reflexivity|].
  exists 0%nat. split; [lia|]. rewrite Hj, Hy.
  split; [change (inject_Z (Z.of_nat 0)) with 0; ring|].
  unfold jumpArc. change (inject_Z (Z.of_nat 0)) with 0. ring.
Qed.

Lemma on_jump_arc_run (h : Q) (calls : list PhysicsCall) :
  50 <= h ->
  forall st : Game,
    resized_to h st ->
    on_jump_arc h (h - Qmax 18 (h * 0.06) - h * 0.15) (player st) ->
    on_jump_arc h (h - Qmax 18 (h * 0.06) - h * 0.15)
      (player (runPhysics calls st)).
Proof.
  intros Hh. induction calls as [|c calls IH]; intros st Hres Harc;
    [exact Harc|].
  unfold runPhysics. cbn [fold_left]. fold (runPhysics calls (physics c st)).
  apply IH; [by apply resized_to_physics|].
  destruct c; cbn [physics].
  - by apply on_jump_arc_step.
  - by apply on_jump_arc_jump.
Qed.

Lemma ground_line_room_strict (h : Q) :
  50 <= h -> 0.25 <= h - Qmax 18 (h * 0.06) - h * 0.15 - h * 0.4845.
Proof.
  intros Hh.
  destruct (Q.max_spec 18 (h * 0.06)) as [[_ ->] | [_ ->]]; lra.
Qed.

(** X18.  "No off-screen jump": on a canvas at least 50 pixels high, from
    the grounded player a resize leaves, no sequence of jumps and physics
    steps takes the player to the top edge of the canvas, or higher than
    0.485 canvas heights above the ground position, or below the ground
    position.  (The exact apex is 0.4845 canvas heights up, a quarter of a
    pixel below the top edge on a canvas 50 pixels high.)  The ceiling clamp
    is never needed. *)
Theorem jump_stays_on_screen (w h : Q) (st0 : Game)
    (calls : list PhysicsCall) :
  50 <= h ->
  Player.isGrounded (player st0) = true ->
  let st := resizeCanvas w h st0 in
  let y0 := Player.y (player st) in
  let st' := runPhysics calls st in
  0 < Player.y (player st')
  /\ y0 - h * 0.485 <= Player.y (player st') <= y0.
Proof.
  intros Hh Hg st y0 st'.
  pose proof (ground_line_room_strict h Hh) as Hroom.
  assert (Hy0 : y0 = h - Qmax 18 (h * 0.06) - h * 0.15) by reflexivity.
  rewrite Hy0.
  assert (Harc : on_jump_arc h (h - Qmax 18 (h * 0.06) - h * 0.15)
                   (player st)).
  { left. split; [exact Hg | reflexivity]. }
  destruct (on_jump_arc_run h calls Hh st (resized_to_resize w h st0) Harc)
    as [[_ Hy] | (_ & k & Hk & _ & Hy)]; fold st' in Hy; rewrite Hy.
  - split; lra.
  - destruct (jumpArc_bounds k Hk) as [Hlo Hhi].
    set (a := jumpArc k) in *.
    assert (Hp : - (h * 0.4845) <= h * a /\ h * a <= 0) by (split; nra).
    split; lra.
Qed.

Lemma jump_stays_on_screen_witness :
  let st := resizeCanvas 800 50 globals in
  let y0 := Player.y (player st) in
  let st' := runPhysics (CallJump :: replicate 17 CallStep) st in
  0 < Player.y (player st')
  /\ y0 - 50 * 0.485 <= Player.y (player st') <= y0.
Proof.
  assert (H1 : (50 : Q) <= 50) by qle_eval.
  exact (jump_stays_on_screen 800 50 globals
           (CallJump :: replicate 17 CallStep) H1 eq_refl).
Defined.
